(** * dps: curriculum training loop, hyper-parameter sampler, parallel session

    A shallow embedding of the orchestration code of the [dps] package:
    - [dps/train.py]: [EarlyStopHook], [TrainingLoop] and [training_loop];
    - [dps/parallel/hyper.py]: [generate_all] and [sample_configs];
    - [dps/parallel/submit_job.py]: [ParallelSession].

    The first part of the file holds the model, one module per source unit;
    the second part holds the properties proved about it. *)

From Stdlib Require Import ZArith QArith Lia.
From stdpp Require Import gmap strings list sorting.

Open Scope Z_scope.

(* ===================================================================== *)
(** * Part I: the model                                                   *)
(* ===================================================================== *)

(** The numbers the training code treats as floats (metrics, thresholds):
    only these operations on them are used by the code modelled here. The
    comparisons are arbitrary, so a value that compares false with everything
    (a NaN) is covered. *)
Class Metric (M : Type) : Type := {
  gt : M -> M -> bool;          (* [a > b] *)
  lt : M -> M -> bool;          (* [a < b] *)
  nonzero : M -> bool;          (* [bool(a)] *)
  of_int : Z -> M;              (* an integer used where a float is expected *)
  pinf : M                      (* [np.inf] *)
}.

(** ** [dps/train.py]: [EarlyStopHook] *)

Module EarlyStop.

(** [cfg.patience] is a step count or [np.inf]. *)
Inductive patience_t : Type :=
| Finite (p : Z)
| Infinity.

(** [d > patience] for an integer step difference [d]. *)
Definition exceeds (d : Z) (p : patience_t) : bool :=
  match p with
  | Finite p => p <? d
  | Infinity => false
  end.

Section Hook.

(** The metric is whatever the validation record holds under the name of the
    stopping criteria (a Python float); the hook only ever compares two such
    values with [>] and [<]. [R] is the type of validation records. *)
Context {M R : Type} `{Metric M}.

Record hook : Type := Hook {
  patience : patience_t;
  maximize : bool;
  _best_stopping_criteria : option M;
  _best_record : option R;
  _best_step : option Z;
  _early_stopped : bool
}.

(** [reset]: the three [_best_*] attributes become [None] and
    [_early_stopped] becomes [0] (falsy). *)
Definition reset (h : hook) : hook :=
  {| patience := patience h;
     maximize := maximize h;
     _best_stopping_criteria := None;
     _best_record := None;
     _best_step := None;
     _early_stopped := false |}.

(** [__init__(patience, maximize)] stores both and calls [reset]. *)
Definition init (p : patience_t) (mx : bool) : hook :=
  reset {| patience := p; maximize := mx;
           _best_stopping_criteria := None; _best_record := None;
           _best_step := None; _early_stopped := false |}.

(** [sc] is strictly better than [b] in the direction of the flag. *)
Definition better (mx : bool) (sc b : M) : bool :=
  if mx then gt sc b else lt sc b.

Definition _check_trigger (h : hook) (sc : M) : bool :=
  match _best_stopping_criteria h with
  | None => true
  | Some b => better (maximize h) sc b
  end.

(** [check(stopping_criteria, step, record)] returns the updated hook and the
    pair [(new_best, should_stop)]. [None] stands for the [TypeError] Python
    raises on [step - None], which needs a hook whose best value is set while
    its best step is not. *)
Definition check (h : hook) (sc : M) (step : Z) (record : R)
  : option (hook * (bool * bool)) :=
  let new_best := _check_trigger h sc in
  let h1 :=
    if new_best then
      {| patience := patience h; maximize := maximize h;
         _best_stopping_criteria := Some sc;
         _best_record := Some record;
         _best_step := Some step;
         _early_stopped := _early_stopped h |}
    else h in
  match _best_step h1 with
  | None => None
  | Some bs =>
      let stopped := _early_stopped h1 || exceeds (step - bs) (patience h1) in
      Some ({| patience := patience h1; maximize := maximize h1;
               _best_stopping_criteria := _best_stopping_criteria h1;
               _best_record := _best_record h1;
               _best_step := _best_step h1;
               _early_stopped := stopped |},
            (new_best, stopped))
  end.

(** A sequence of calls [check(sc, step, record)] on one hook, in order; the
    answers are collected. *)
Fixpoint checks (h : hook) (cs : list (M * Z * R))
  : option (hook * list (bool * bool)) :=
  match cs with
  | [] => Some (h, [])
  | (sc, step, record) :: cs' =>
      match check h sc step record with
      | None => None
      | Some (h', out) =>
          match checks h' cs' with
          | None => None
          | Some (h'', outs) => Some (h'', out :: outs)
          end
      end
  end.

(** Every value of the sequence is strictly better than all values before it
    (the values of [prev] included). *)
Fixpoint improving (mx : bool) (prev : list M) (vs : list M) : bool :=
  match vs with
  | [] => true
  | v :: vs' =>
      forallb (fun p => better mx v p) prev && improving mx (v :: prev) vs'
  end.

(** Calls at the steps [b+1], [b+2], ... with the values [vs]. *)
Definition after_step (b : Z) (vs : list (M * R)) : list (M * Z * R) :=
  imap (fun k vr => (vr.1, b + 1 + Z.of_nat k, vr.2)) vs.

(** The step of the first call that answered [should_stop = True]. *)
Fixpoint first_stop (cs : list (M * Z * R)) (outs : list (bool * bool))
  : option Z :=
  match cs, outs with
  | (_, step, _) :: cs', (_, stop) :: outs' =>
      if stop then Some step else first_stop cs' outs'
  | _, _ => None
  end.

End Hook.

Arguments hook : clear implicits.

(** The early-stopping property read on whole sequences of checks, from a
    fresh hook: when [v], checked at step [b], is better than every value
    checked before it, no value checked later is better than [v], and the
    later checks are made at each of the steps [b+1], [b+2], ... up to
    [b + patience + 1] at least, then the first check to answer
    [should_stop = True] is the one of step [b + patience + 1]. *)
Definition stops_after_patience_of_best : Prop :=
  forall (M R : Type) `(Metric M) (p : Z) (mx : bool)
         (pre : list (M * Z * R)) (v : M) (b : Z) (r : R)
         (vs : list (M * R)) (h' : hook M R) (outs : list (bool * bool)),
    0 <= p ->
    Forall (fun c => better mx v c.1.1 = true) pre ->
    Forall (fun x => better mx x.1 v = false) vs ->
    p < Z.of_nat (length vs) ->
    checks (init (Finite p) mx) (pre ++ (v, b, r) :: after_step b vs)
      = Some (h', outs) ->
    first_stop (pre ++ (v, b, r) :: after_step b vs) outs = Some (b + p + 1).

End EarlyStop.

(** ** [dps/train.py]: [TrainingLoop] *)

Module Train.

Import EarlyStop.

(** The exceptions the orchestration code raises, catches or lets through. *)
Inductive exn : Type :=
| KeyboardInterrupt
| NotImplementedError
| TimeLimitAlarm          (* raised inside the stage by [time_limit] *)
| ZeroDivisionError
| TypeError
| KeyError (k : string)
| AttributeError (k : string)
| IndexError
| Exception (msg : string)
| Diverges.               (* not an exception: the fuel of a loop ran out *)

Inductive res (A : Type) : Type :=
| Ok (a : A)
| Raise (e : exn).
Arguments Ok {A} a.
Arguments Raise {A} e.

(** A state-and-exception monad: a computation reads and updates the state
    [S]; the updates made before an exception are kept, as in Python. *)
Definition comp (S A : Type) : Type := S -> res A * S.

Definition ret {S A} (a : A) : comp S A := fun s => (Ok a, s).
Definition raise {S A} (e : exn) : comp S A := fun s => (Raise e, s).
Definition bind {S A B} (c : comp S A) (k : A -> comp S B) : comp S B :=
  fun s =>
    match c s with
    | (Ok a, s') => k a s'
    | (Raise e, s') => (Raise e, s')
    end.
Definition get {S} : comp S S := fun s => (Ok s, s).
Definition modify {S} (f : S -> S) : comp S unit := fun s => (Ok tt, f s).
Definition lift {S A} (r : res A) : comp S A := fun s => (r, s).

Notation "'do' x <- c ; k" := (bind c (fun x => k))
  (at level 10, x name, c at level 100, k at level 200).
Notation "'exec' c ; k" := (bind c (fun _ => k))
  (at level 10, c at level 100, k at level 200).

(** [try: c except ...]: [h] picks the handler of an exception, if any. *)
Definition try_except {S A} (c : comp S A) (h : exn -> option (comp S A))
  : comp S A :=
  fun s =>
    match c s with
    | (Raise e, s') =>
        match h e with
        | Some k => k s'
        | None => (Raise e, s')
        end
    | r => r
    end.

Definition comma : Ascii.ascii := Ascii.ascii_of_nat 44.

(** [s.split(c)]. *)
Fixpoint split_on (c : Ascii.ascii) (s : string) : list string :=
  match s with
  | EmptyString => [EmptyString]
  | String a s' =>
      if Ascii.eqb a c then EmptyString :: split_on c s'
      else match split_on c s' with
           | p :: ps => String a p :: ps
           | [] => [String a EmptyString]
           end
  end.

(** [needle in s] for strings. *)
Fixpoint contains (needle s : string) : bool :=
  String.prefix needle s ||
  match s with
  | EmptyString => false
  | String _ s' => contains needle s'
  end.

(** Python's [a % b] on integers: the sign follows the divisor, and a zero
    divisor raises. *)
Definition pymod {S} (a b : Z) : comp S Z :=
  if b =? 0 then raise ZeroDivisionError else ret (a mod b).

Section Loop.

Context {M R : Type} `{Metric M}.
(** [val_record[name]]: the entry of a validation record under a name. *)
Variable entry : string -> R -> option M.

(** *** Configuration values and the configuration stack *)

Inductive value : Type :=
| VNone
| VBool (b : bool)
| VInt (z : Z)
| VInf                       (* [np.inf] *)
| VNum (m : M)               (* a float *)
| VStr (s : string).

Definition truthy (v : value) : bool :=
  match v with
  | VNone => false
  | VBool b => b
  | VInt z => negb (z =? 0)
  | VInf => true
  | VNum m => nonzero m
  | VStr s => negb (String.eqb s "")
  end.

(** Modelled from the spec: the class [Config] and the global [cfg] of
    [dps.utils], which are not part of the sources at hand. A [Config] is a
    key/value mapping; entering one as a context manager pushes it onto the
    scope stack of [cfg] and leaving it pops it; a key is read from the
    innermost layer that has it ("later layers winning"). The stack is kept
    innermost first. *)
Abbreviation layer := (gmap string value).
Abbreviation config_stack := (list (gmap string value)).

Fixpoint cfg_lookup (stack : config_stack) (k : string) : option value :=
  match stack with
  | [] => None
  | l :: below =>
      match l !! k with
      | Some v => Some v
      | None => cfg_lookup below k
      end
  end.

Definition cfg_enter (l : layer) (stack : config_stack) : config_stack :=
  l :: stack.
Definition cfg_exit (stack : config_stack) : config_stack := tail stack.

(** [cfg.freeze()]: the flat mapping a reader of [cfg] sees. *)
Definition cfg_freeze (stack : config_stack) : layer :=
  foldr (fun l acc => l ∪ acc) ∅ stack.

(** [base] overlaid with [over]: the keys of [over] win. *)
Definition overlay (over base : layer) : layer := over ∪ base.

(** *** The collaborators: updater, hooks, and the machine *)

(** The updater built for a stage. Its methods are opaque to the loop, so
    each is given by what it answers at the local step of the call. *)
Record updater : Type := {
  stopping_criteria : string;            (* "name,direction" *)
  n_experiences : Z -> Z;
  update : Z -> res unit;
  evaluate_val : Z -> res R;
  evaluate_test : Z -> res R;
  final_test : res R;                    (* [evaluate] after the stage *)
  save : Z -> string                     (* path returned by [save] *)
}.

(** A [Hook]: called every [n] steps, and on step 0 when [initial]. *)
Record step_hook : Type := {
  hook_n : Z;
  hook_initial : bool;
  hook_step : Z -> res unit
}.

(** One entry of [history]; a key that has not been recorded is [None]. *)
Record stage_record : Type := {
  stage : nat;
  train_data : list Z;                   (* the local steps recorded *)
  val_data : list R;
  test_data : list R;
  best_path : option string;
  best_global_step : option Z;
  best_local_step : option Z;
  best_stopping_criteria : option M;
  n_steps : option Z;
  rec_reason : option string;
  phys_memory_delta_mb : option Z;
  test_record : option R
}.

(** What [_build_return_value] returns and the generators yield. *)
Record snapshot : Type := {
  snap_config : layer;
  snap_history : list stage_record;
  snap_host : string;
  snap_exp_dir : string
}.

(** Calls made on the collaborators, in order. *)
Inductive event : Type :=
| EStartStage (hook_idx stage_idx : nat)
| EHookStep (hook_idx : nat) (step : Z)
| EEndStage (hook_idx : nat)
| EUpdate (step : Z)
| EEvaluate (mode : string) (step : Z)
| ESave (step : Z)
| ERestore (path : string)
| EFinalTest
| ERender
| EBuildEnv (stage_idx : nat)
| EGetUpdater (stage_idx : nat) (in_effect : gmap string value).

(** The machine the loop runs on. *)
Record world : Type := {
  hostname : string;
  now_at_start : Z;                      (* [time.time()] when [run] starts *)
  now_at_stage : nat -> Z;               (* the clock when a stage starts *)
  gen_seed : Z;
  get_experiment_name : string;          (* [cfg.get_experiment_name()] *)
  new_experiment : string -> Z -> string; (* directory for a name and seed *)
  get_updater : nat -> layer -> updater;
  memory_usage : nat -> bool -> Z        (* stage; after the stage or before *)
}.

(** The updaters built, by stage, with the config in effect at that time. *)
Definition updaters (tr : list event) : list (nat * layer) :=
  omap (fun e => match e with
                 | EGetUpdater i c => Some (i, c)
                 | _ => None
                 end) tr.

(** *** The state of a [TrainingLoop] *)

(** The attributes of [self] that change during a run, the scope stack of
    the global [cfg], the values yielded so far and the calls made. *)
Record tl : Type := {
  history : list stage_record;
  global_step : Z;
  local_step : Z;
  threshold_reached : bool;
  reason : option string;
  stopping_criteria_name : string;
  maximize_sc : bool;
  env : option nat;                      (* the stage the env was built in *)
  cfg : config_stack;
  yielded : list snapshot;
  trace : list event
}.

Definition set_history (f : list stage_record -> list stage_record) (s : tl) :=
  {| history := f (history s); global_step := global_step s;
     local_step := local_step s; threshold_reached := threshold_reached s;
     reason := reason s; stopping_criteria_name := stopping_criteria_name s;
     maximize_sc := maximize_sc s; env := env s; cfg := cfg s;
     yielded := yielded s; trace := trace s |}.
Definition set_steps (g l : Z) (s : tl) :=
  {| history := history s; global_step := g;
     local_step := l; threshold_reached := threshold_reached s;
     reason := reason s; stopping_criteria_name := stopping_criteria_name s;
     maximize_sc := maximize_sc s; env := env s; cfg := cfg s;
     yielded := yielded s; trace := trace s |}.
Definition set_outcome (t : bool) (r : option string) (s : tl) :=
  {| history := history s; global_step := global_step s;
     local_step := local_step s; threshold_reached := t;
     reason := r; stopping_criteria_name := stopping_criteria_name s;
     maximize_sc := maximize_sc s; env := env s; cfg := cfg s;
     yielded := yielded s; trace := trace s |}.
Definition set_criteria (name : string) (mx : bool) (s : tl) :=
  {| history := history s; global_step := global_step s;
     local_step := local_step s; threshold_reached := threshold_reached s;
     reason := reason s; stopping_criteria_name := name;
     maximize_sc := mx; env := env s; cfg := cfg s;
     yielded := yielded s; trace := trace s |}.
Definition set_env (e : option nat) (s : tl) :=
  {| history := history s; global_step := global_step s;
     local_step := local_step s; threshold_reached := threshold_reached s;
     reason := reason s; stopping_criteria_name := stopping_criteria_name s;
     maximize_sc := maximize_sc s; env := e; cfg := cfg s;
     yielded := yielded s; trace := trace s |}.
Definition set_cfg (f : config_stack -> config_stack) (s : tl) :=
  {| history := history s; global_step := global_step s;
     local_step := local_step s; threshold_reached := threshold_reached s;
     reason := reason s; stopping_criteria_name := stopping_criteria_name s;
     maximize_sc := maximize_sc s; env := env s; cfg := f (cfg s);
     yielded := yielded s; trace := trace s |}.
Definition add_yield (v : snapshot) (s : tl) :=
  {| history := history s; global_step := global_step s;
     local_step := local_step s; threshold_reached := threshold_reached s;
     reason := reason s; stopping_criteria_name := stopping_criteria_name s;
     maximize_sc := maximize_sc s; env := env s; cfg := cfg s;
     yielded := yielded s ++ [v]; trace := trace s |}.
Definition add_event (e : event) (s : tl) :=
  {| history := history s; global_step := global_step s;
     local_step := local_step s; threshold_reached := threshold_reached s;
     reason := reason s; stopping_criteria_name := stopping_criteria_name s;
     maximize_sc := maximize_sc s; env := env s; cfg := cfg s;
     yielded := yielded s; trace := trace s ++ [e] |}.

Definition emit (e : event) : comp tl unit := modify (add_event e).

(** *** Reading [cfg] *)

(** [cfg.k]: a missing key raises. *)
Definition cfg_get (k : string) : comp tl value :=
  fun s =>
    match cfg_lookup (cfg s) k with
    | Some v => (Ok v, s)
    | None => (Raise (AttributeError k), s)
    end.

(** [cfg.get(k, d)]. *)
Definition cfg_get_default (k : string) (d : value) : comp tl value :=
  fun s => (Ok (default d (cfg_lookup (cfg s) k)), s).

Definition cfg_flag (k : string) : comp tl bool :=
  do v <- cfg_get k; ret (truthy v).

(** A key used in integer arithmetic. *)
Definition cfg_int (k : string) : comp tl Z :=
  do v <- cfg_get k;
  match v with
  | VInt z => ret z
  | _ => raise TypeError
  end.

(** A key used as a bound on an integer: an integer or [np.inf]. *)
Definition cfg_bound (k : string) : comp tl patience_t :=
  do v <- cfg_get k;
  match v with
  | VInt z => ret (Finite z)
  | VInf => ret Infinity
  | _ => raise TypeError
  end.

(** A key compared with a metric. *)
Definition cfg_metric (k : string) : comp tl M :=
  do v <- cfg_get k;
  match v with
  | VNum m => ret m
  | VInt z => ret (of_int z)
  | VInf => ret pinf
  | _ => raise TypeError
  end.

(** [x >= b] for a bound [b]. *)
Definition reaches (x : Z) (b : patience_t) : bool :=
  match b with
  | Finite b => b <=? x
  | Infinity => false
  end.

(** *** [record], [latest], [_build_return_value] *)

Fixpoint update_last {A} (f : A -> A) (l : list A) : list A :=
  match l with
  | [] => []
  | [x] => [f x]
  | x :: l' => x :: update_last f l'
  end.

(** [self.latest]: [self.history[-1]]. *)
Definition latest : comp tl stage_record :=
  fun s =>
    match last (history s) with
    | Some d => (Ok d, s)
    | None => (Raise IndexError, s)
    end.

(** [self.record(...)]: updates [self.history[-1]] in place. *)
Definition record (f : stage_record -> stage_record) : comp tl unit :=
  exec latest; modify (set_history (update_last f)).

Definition new_record (stage_idx : nat) : stage_record :=
  {| stage := stage_idx; train_data := []; val_data := []; test_data := [];
     best_path := None; best_global_step := None; best_local_step := None;
     best_stopping_criteria := None; n_steps := None; rec_reason := None;
     phys_memory_delta_mb := None; test_record := None |}.

Definition add_train (step : Z) (d : stage_record) : stage_record :=
  {| stage := stage d; train_data := train_data d ++ [step];
     val_data := val_data d; test_data := test_data d;
     best_path := best_path d; best_global_step := best_global_step d;
     best_local_step := best_local_step d;
     best_stopping_criteria := best_stopping_criteria d;
     n_steps := n_steps d; rec_reason := rec_reason d;
     phys_memory_delta_mb := phys_memory_delta_mb d;
     test_record := test_record d |}.
Definition add_val (r : R) (d : stage_record) : stage_record :=
  {| stage := stage d; train_data := train_data d;
     val_data := val_data d ++ [r]; test_data := test_data d;
     best_path := best_path d; best_global_step := best_global_step d;
     best_local_step := best_local_step d;
     best_stopping_criteria := best_stopping_criteria d;
     n_steps := n_steps d; rec_reason := rec_reason d;
     phys_memory_delta_mb := phys_memory_delta_mb d;
     test_record := test_record d |}.
Definition add_test (r : R) (d : stage_record) : stage_record :=
  {| stage := stage d; train_data := train_data d;
     val_data := val_data d; test_data := test_data d ++ [r];
     best_path := best_path d; best_global_step := best_global_step d;
     best_local_step := best_local_step d;
     best_stopping_criteria := best_stopping_criteria d;
     n_steps := n_steps d; rec_reason := rec_reason d;
     phys_memory_delta_mb := phys_memory_delta_mb d;
     test_record := test_record d |}.
Definition set_best (path : string) (g : Z) (l : option Z) (sc : option M)
    (d : stage_record) : stage_record :=
  {| stage := stage d; train_data := train_data d;
     val_data := val_data d; test_data := test_data d;
     best_path := Some path; best_global_step := Some g;
     best_local_step := l; best_stopping_criteria := sc;
     n_steps := n_steps d; rec_reason := rec_reason d;
     phys_memory_delta_mb := phys_memory_delta_mb d;
     test_record := test_record d |}.
Definition set_n_steps (n : Z) (d : stage_record) : stage_record :=
  {| stage := stage d; train_data := train_data d;
     val_data := val_data d; test_data := test_data d;
     best_path := best_path d; best_global_step := best_global_step d;
     best_local_step := best_local_step d;
     best_stopping_criteria := best_stopping_criteria d;
     n_steps := Some n; rec_reason := rec_reason d;
     phys_memory_delta_mb := phys_memory_delta_mb d;
     test_record := test_record d |}.
Definition set_reason (r : option string) (d : stage_record) : stage_record :=
  {| stage := stage d; train_data := train_data d;
     val_data := val_data d; test_data := test_data d;
     best_path := best_path d; best_global_step := best_global_step d;
     best_local_step := best_local_step d;
     best_stopping_criteria := best_stopping_criteria d;
     n_steps := n_steps d; rec_reason := r;
     phys_memory_delta_mb := phys_memory_delta_mb d;
     test_record := test_record d |}.
Definition set_memory (delta : Z) (d : stage_record) : stage_record :=
  {| stage := stage d; train_data := train_data d;
     val_data := val_data d; test_data := test_data d;
     best_path := best_path d; best_global_step := best_global_step d;
     best_local_step := best_local_step d;
     best_stopping_criteria := best_stopping_criteria d;
     n_steps := n_steps d; rec_reason := rec_reason d;
     phys_memory_delta_mb := Some delta;
     test_record := test_record d |}.
Definition set_test_record (r : R) (d : stage_record) : stage_record :=
  {| stage := stage d; train_data := train_data d;
     val_data := val_data d; test_data := test_data d;
     best_path := best_path d; best_global_step := best_global_step d;
     best_local_step := best_local_step d;
     best_stopping_criteria := best_stopping_criteria d;
     n_steps := n_steps d; rec_reason := rec_reason d;
     phys_memory_delta_mb := phys_memory_delta_mb d;
     test_record := Some r |}.

(** The parts of a run that stay fixed once [run] has set them up. *)
Record session : Type := {
  the_world : world;
  hooks : list step_hook;
  curriculum : list layer;
  exp_dir : string;
  start_time : Z
}.

(** [_build_return_value]: reads [self.latest] first, then snapshots the
    history, the frozen [cfg], the host and the experiment directory. *)
Definition _build_return_value (ss : session) : comp tl snapshot :=
  exec latest;
  do s <- get;
  ret {| snap_config := cfg_freeze (cfg s);
         snap_history := history s;
         snap_host := hostname (the_world ss);
         snap_exp_dir := exp_dir ss |}.

(** [yield self._build_return_value()]. *)
Definition yield_value (ss : session) : comp tl unit :=
  do v <- _build_return_value ss; modify (add_yield v).

(** *** [_run_stage] *)

(** How one pass through the body of [while True] ends: the next pass
    starts with the hook as it is now, or the loop is left with the local
    [threshold_reached] and [reason]. *)
Inductive ctl : Type :=
| Continue (es : hook M R)
| Break (thr : bool) (why : string).

(** The [for hook in self.hooks] block of one pass. *)
Fixpoint run_hooks (step : Z) (i : nat) (hs : list step_hook)
  : comp tl unit :=
  match hs with
  | [] => ret tt
  | h :: hs' =>
      let at_start := (step =? 0) && hook_initial h in
      do periodic <-
        (if 0 <? step
         then do r <- pymod step (hook_n h); ret (r =? 0)
         else ret false);
      exec (if at_start || periodic
            then (exec emit (EHookStep i step); lift (hook_step h step))
            else ret tt);
      run_hooks step (S i) hs'
  end.

(** The [if evaluate or display] block of one pass. *)
Definition evaluate_block (ss : session) (u : updater) (es : hook M R)
    (step : Z) : comp tl ctl :=
  exec cfg_get "n_val";
  exec emit (EEvaluate "val" step);
  do val_record <- lift (evaluate_val u step);
  exec record (add_val val_record);
  exec emit (EEvaluate "test" step);
  do test_rec <- lift (evaluate_test u step);
  exec record (add_test test_rec);
  do s <- get;
  do sc <- (match entry (stopping_criteria_name s) val_record with
            | Some sc => ret sc
            | None => raise (KeyError (stopping_criteria_name s))
            end);
  do answer <- (match check es sc step val_record with
                | Some a => ret a
                | None => raise TypeError
                end);
  let '(es', (new_best, stop)) := answer in
  exec (if new_best
        then (exec emit (ESave step);
              record (set_best (save u step) (global_step s)
                               (_best_step es') (_best_stopping_criteria es')))
        else ret tt);
  if stop then ret (Break false "Early stopping triggered") else
  do threshold <- cfg_metric "threshold";
  let thr := if maximize_sc s then gt sc threshold else lt sc threshold in
  if thr then ret (Break true "Stopping criteria threshold reached") else
  exec cfg_get "batch_size";
  exec record (set_n_steps step);
  ret (Continue es').

(** One pass through the body of the [while True] of [_run_stage]. *)
Definition stage_pass (ss : session) (u : updater) (es : hook M R)
  : comp tl ctl :=
  do s <- get;
  let step := local_step s in
  do max_steps <- cfg_bound "max_steps";
  if reaches step max_steps
  then ret (Break false "Maximum number of steps reached") else
  do max_experiences <- cfg_bound "max_experiences";
  if reaches (n_experiences u step) max_experiences
  then ret (Break false "Maximum number of experiences reached") else
  exec (if 0 <? step
        then (do c <- cfg_int "checkpoint_step";
              do r <- pymod step c;
              if r =? 0 then yield_value ss else ret tt)
        else ret tt);
  do eval_step <- cfg_int "eval_step";
  do r <- pymod step eval_step;
  let evaluate := r =? 0 in
  do display_step <- cfg_int "display_step";
  do r <- pymod step display_step;
  let display := r =? 0 in
  do render_step <- cfg_int "render_step";
  do render <-
    (if 0 <? render_step
     then do r <- pymod step render_step; ret ((r =? 0) && (0 <? step))
     else ret false);
  do do_train <- cfg_flag "do_train";
  exec (if do_train
        then (exec cfg_get "batch_size";
              exec emit (EUpdate step);
              lift (update u step))
        else ret tt);
  exec record (add_train step);
  do next <-
    (if evaluate || display
     then evaluate_block ss u es step
     else ret (Continue es));
  match next with
  | Break thr why => ret (Break thr why)
  | Continue es' =>
      exec run_hooks step 0%nat (hooks ss);
      exec (if render
            then (do h <- cfg_get "render_hook";
                  match h with VNone => ret tt | _ => emit ERender end)
            else ret tt);
      do do_train <- cfg_flag "do_train";
      if negb do_train then ret (Break false "`do_train` set to False") else
      exec modify (fun s => set_steps (global_step s + 1) (local_step s + 1) s);
      ret (Continue es')
  end.

(** The [while True] loop; [fuel] bounds the number of passes. *)
Fixpoint stage_loop (fuel : nat) (ss : session) (u : updater)
    (es : hook M R) : comp tl unit :=
  match fuel with
  | O => raise Diverges
  | S fuel' =>
      do next <- stage_pass ss u es;
      match next with
      | Continue es' => stage_loop fuel' ss u es'
      | Break thr why => modify (set_outcome thr (Some why))
      end
  end.

(** [k] passes through the body none of which leaves the loop: the hook
    after them; [None] when one of them leaves the loop. *)
Fixpoint passes (k : nat) (ss : session) (u : updater) (es : hook M R)
  : comp tl (option (hook M R)) :=
  match k with
  | O => ret (Some es)
  | S k' =>
      do next <- stage_pass ss u es;
      match next with
      | Continue es' => passes k' ss u es'
      | Break _ _ => ret None
      end
  end.

Definition _run_stage (fuel : nat) (ss : session) (u : updater)
    (early_stop : hook M R) : comp tl unit :=
  exec modify (fun s => set_steps (global_step s) 0 s);
  stage_loop fuel ss u early_stop.

(** *** [time_remaining] and [run_stage] *)

(** [self.time_remaining]: the deadline when [cfg.deadline] parses as a date
    (here: when it is an instant in seconds), else [cfg.max_time] less the
    time elapsed, and no limit when [max_time] is [None] or not positive. *)
Definition time_remaining (ss : session) (stage_idx : nat)
  : comp tl patience_t :=
  let now := now_at_stage (the_world ss) stage_idx in
  do s <- get;
  match cfg_lookup (cfg s) "deadline" with
  | Some (VInt deadline) => ret (Finite (deadline - now))
  | _ =>
      do max_time <- cfg_get "max_time";
      match max_time with
      | VNone | VInf => ret Infinity
      | VInt m =>
          if m <=? 0 then ret Infinity
          else ret (Finite (m - (now - start_time ss)))
      | _ => raise TypeError
      end
  end.

Fixpoint for_each_hook (f : nat -> event) (i : nat) (hs : list step_hook)
  : comp tl unit :=
  match hs with
  | [] => ret tt
  | _ :: hs' => exec emit (f i); for_each_hook f (S i) hs'
  end.

(** The stopping criteria of the stage: [cfg.get("stopping_criteria", "")]
    or else the updater's, split at the comma. *)
Definition read_stopping_criteria (u : updater) : comp tl unit :=
  do v <- cfg_get_default "stopping_criteria" (VStr "");
  do spec <- (if truthy v
              then match v with VStr s => ret s | _ => raise TypeError end
              else ret (stopping_criteria u));
  match split_on comma spec with
  | name :: direction :: _ =>
      if contains "max" direction then modify (set_criteria name true)
      else if contains "min" direction then modify (set_criteria name false)
      else raise (Exception "Ambiguous stopping criteria specification")
  | _ => raise IndexError
  end.

(** [run_stage] is modelled in three parts. First the statements before the
    [with time_limit] block; they answer the hook made for the stage. *)
Definition stage_setup (ss : session) (stage_idx : nat) (u : updater)
  : comp tl (hook M R) :=
  exec modify (set_outcome false (Some ""));
  exec read_stopping_criteria u;
  do p <- cfg_bound "patience";
  do s <- get;
  exec for_each_hook (fun i => EStartStage i stage_idx) 0%nat (hooks ss);
  exec time_remaining ss stage_idx;
  exec time_remaining ss stage_idx;
  ret (init p (maximize_sc s)).

(** Then the [with time_limit] block around [try: yield from _run_stage];
    it answers [limiter.ran_out]. Modelled from the spec: [time_limit] of
    [dps.utils], a time-box around the stage; when the time is up it
    interrupts the body (here [TimeLimitAlarm]), absorbs that interruption
    on leaving the [with] block and sets [limiter.ran_out]. *)
Definition timed_stage (fuel : nat) (ss : session) (u : updater)
    (early_stop : hook M R) : comp tl bool :=
  try_except
    (try_except
       (exec _run_stage fuel ss u early_stop; ret false)
       (fun e =>
          match e with
          | KeyboardInterrupt =>
              Some (exec modify (set_outcome false (Some "User interrupt"));
                    ret false)
          | NotImplementedError => Some (raise (Exception "NotImplemented"))
          | _ => None
          end))
    (fun e =>
       match e with
       | TimeLimitAlarm => Some (ret true)
       | _ => None
       end).

(** Last the statements after the block: the memory use is recorded, every
    hook's [end_stage] is called, and a time-out is reported. *)
Definition stage_cleanup (ss : session) (stage_idx : nat) (ran_out : bool)
  : comp tl unit :=
  let w := the_world ss in
  let phys_memory_before := memory_usage w stage_idx false in
  let phys_memory_after := memory_usage w stage_idx true in
  exec record (set_memory (phys_memory_after - phys_memory_before));
  exec for_each_hook EEndStage 0%nat (hooks ss);
  if ran_out
  then (exec modify (fun s => set_outcome (threshold_reached s)
                                          (Some "Time limit exceeded") s);
        do fail <- cfg_flag "error_on_timeout";
        if fail then raise (Exception "Timed out.") else ret tt)
  else ret tt.

Definition run_stage (fuel : nat) (ss : session) (stage_idx : nat)
    (u : updater) : comp tl unit :=
  do early_stop <- stage_setup ss stage_idx u;
  do ran_out <- timed_stage fuel ss u early_stop;
  stage_cleanup ss stage_idx ran_out.

(** *** [_run]: the stages of the curriculum *)

(** [with stage_config: body]: the layer is pushed, and popped however the
    body ends. *)
Definition with_config {A} (l : layer) (body : comp tl A) : comp tl A :=
  fun s =>
    let '(r, s') := body (set_cfg (cfg_enter l) s) in
    (r, set_cfg cfg_exit s').

(** [self.history[-2]]. *)
Definition penultimate (h : list stage_record) : option stage_record :=
  match reverse h with
  | _ :: d :: _ => Some d
  | _ => None
  end.

Definition require {A} (k : string) (o : option A) : comp tl A :=
  match o with
  | Some a => ret a
  | None => raise (KeyError k)
  end.

(** The part of a stage that runs with [stage_config] entered. It answers
    whether the curriculum goes on ([false] is the [break]). The TensorFlow
    session, the summary writers, tensorboard and printing are left out. *)
Definition stage_body (fuel : nat) (ss : session) (stage_idx : nat)
  : comp tl bool :=
  let w := the_world ss in
  do rebuild <-
    (if (stage_idx =? 0)%nat then ret true
     else do keep <- cfg_flag "preserve_env"; ret (negb keep));
  exec (if rebuild : bool
        then (exec emit (EBuildEnv stage_idx);
              modify (set_env (Some stage_idx)))
        else ret tt);
  do s <- get;
  let in_effect := cfg_freeze (cfg s) in
  exec emit (EGetUpdater stage_idx in_effect);
  let u := get_updater w stage_idx in_effect in
  do load_path <- cfg_get "load_path";
  exec (if truthy load_path
        then match load_path with
             | VStr path => emit (ERestore path)
             | _ => raise TypeError
             end
        else if (0 <? stage_idx)%nat
        then (do keep <- cfg_flag "preserve_policy";
              if keep
              then (do d <- (match penultimate (history s) with
                             | Some d => ret d
                             | None => raise IndexError
                             end);
                    do path <- require "best_path" (best_path d);
                    emit (ERestore path))
              else ret tt)
        else ret tt);
  exec run_stage fuel ss stage_idx u;
  do s <- get;
  let reached := threshold_reached s in
  exec record (set_reason (reason s));
  do d <- latest;
  exec require "best_global_step" (best_global_step d);
  exec require "best_local_step" (best_local_step d);
  exec require "best_stopping_criteria" (best_stopping_criteria d);
  do path <- require "best_path" (best_path d);
  exec emit (ERestore path);
  exec cfg_get "n_val";
  exec emit EFinalTest;
  do test_rec <- lift (final_test u);
  exec record (set_test_record test_rec);
  do render_step <- cfg_int "render_step";
  exec (if 0 <? render_step
        then (do h <- cfg_get "render_hook";
              match h with VNone => ret tt | _ => emit ERender end)
        else ret tt);
  do go_on <- (if reached then ret true else cfg_flag "power_through");
  ret go_on.

(** The [for stage_idx, stage_config in enumerate(self.curriculum)] loop. *)
Fixpoint run_stages (fuel : nat) (ss : session) (stage_idx : nat)
    (stages : list layer) : comp tl unit :=
  match stages with
  | [] => ret tt
  | stage_config :: rest =>
      do remaining <- time_remaining ss stage_idx;
      if (match remaining with Finite t => t <=? 1 | Infinity => false end)
      then ret tt
      else
        exec modify (set_history (fun h => h ++ [new_record stage_idx]));
        exec cfg_get "use_gpu";
        exec cfg_get "save_summaries";
        do go_on <- with_config stage_config (stage_body fuel ss stage_idx);
        if go_on : bool then run_stages fuel ss (S stage_idx) rest else ret tt
  end.

Definition _run (fuel : nat) (ss : session) : comp tl unit :=
  exec modify (fun s => set_steps 0 (local_step s) s);
  exec run_stages fuel ss 0%nat (curriculum ss);
  exec cfg_get "slim";
  yield_value ss.

(** *** [run], [stepped_training_loop], [training_loop] *)

(** Modelled from the spec: [cfg.k = v] on the global [cfg] of [dps.utils]
    writes the key into the innermost layer of the scope stack. *)
Definition cfg_set (k : string) (v : value) : comp tl unit :=
  modify (set_cfg (fun stack =>
    match stack with
    | [] => [ {[ k := v ]} ]
    | l :: below => <[ k := v ]> l :: below
    end)).

(** A [TrainingLoop(exp_name, start_time, hooks)] before [run]. *)
Record training_loop_object : Type := {
  exp_name : string;
  given_start_time : option Z;
  given_hooks : list step_hook
}.

(** [__init__]: [exp_name or cfg.get_experiment_name()], [hooks or []]. *)
Definition TrainingLoop (w : world) (name : string) (start : option Z)
    (hs : option (list step_hook)) : training_loop_object :=
  {| exp_name := if String.eqb name "" then get_experiment_name w else name;
     given_start_time := start;
     given_hooks := default [] hs |}.

(** [run]: the curriculum is read from [cfg.curriculum], a missing seed is
    drawn, the experiment directory is made from the name and the seed, the
    start time defaults to now, and [_run] does the rest. *)
Definition run (fuel : nat) (w : world) (stages : list layer)
    (self : training_loop_object) : comp tl unit :=
  do seed <- cfg_get "seed";
  do seed <- (match seed with
              | VNone => exec cfg_set "seed" (VInt (gen_seed w));
                         ret (gen_seed w)
              | VInt z => if z <? 0
                          then (exec cfg_set "seed" (VInt (gen_seed w));
                                ret (gen_seed w))
                          else ret z
              | _ => raise TypeError
              end);
  let dir := new_experiment w (exp_name self) seed in
  let start := default (now_at_start w) (given_start_time self) in
  exec cfg_set "path" (VStr dir);
  _run fuel {| the_world := w; hooks := given_hooks self;
               curriculum := stages; exp_dir := dir; start_time := start |}.

(** The state in which a fresh loop starts under the scope stack [stack]. *)
Definition fresh (stack : config_stack) : tl :=
  {| history := []; global_step := 0; local_step := 0;
     threshold_reached := false; reason := None;
     stopping_criteria_name := ""; maximize_sc := false; env := None;
     cfg := stack; yielded := []; trace := [] |}.

(** [stepped_training_loop(exp_name='', start_time=None)]: the generator,
    given by the values it yields, how it ends, and the state it leaves. *)
Definition stepped_training_loop (fuel : nat) (w : world)
    (stages : list layer) (stack : config_stack)
    (name : string) (start : option Z) : res unit * tl :=
  run fuel w stages (TrainingLoop w name start None) (fresh stack).

(** [training_loop(exp_name='', start_time=None)]:
    [list(stepped_training_loop())[-1]]. An exception of the generator goes
    through [list]; the scope stack the call leaves behind is returned too. *)
Definition training_loop (fuel : nat) (w : world)
    (stages : list layer) (stack : config_stack)
    (name : string) (start : option Z) : res snapshot * config_stack :=
  match stepped_training_loop fuel w stages stack "" None with
  | (Ok _, s) =>
      match last (yielded s) with
      | Some v => (Ok v, cfg s)
      | None => (Raise IndexError, cfg s)
      end
  | (Raise e, s) => (Raise e, cfg s)
  end.

End Loop.

Arguments value : clear implicits.
Abbreviation layer M := (gmap string (value M)).
Abbreviation config_stack M := (list (gmap string (value M))).
Arguments updater : clear implicits.
Arguments stage_record : clear implicits.
Arguments snapshot : clear implicits.
Arguments event : clear implicits.
Arguments world : clear implicits.
Arguments tl : clear implicits.
Arguments session : clear implicits.
Arguments ctl : clear implicits.

(** A user interrupt read as the end of the whole run: in any run, a stage
    whose record gives "User interrupt" as its reason is the last stage that
    was started. *)
Definition interrupt_ends_curriculum : Prop :=
  forall (M R : Type) `(Metric M) (entry : string -> R -> option M)
         (fuel : nat) (w : world M R) (stages : list (layer M))
         (self : training_loop_object) (stack : config_stack M)
         (i : nat) (d : stage_record M R),
    history (run entry fuel w stages self (fresh stack)).2 !! i = Some d ->
    rec_reason d = Some "User interrupt" ->
    length (history (run entry fuel w stages self (fresh stack)).2) = S i.

End Train.

(** ** [dps/parallel/hyper.py]: [generate_all], [nested_sample],
    [sample_configs] *)

Module Hyper.

Inductive res (A : Type) : Type :=
| Ok (a : A)
| Raise (msg : string).
Arguments Ok {A} a.
Arguments Raise {A} msg.

Section Sampler.

(** [V]: the values a parameter ranges over, with Python's [<] on them
    (values that cannot be compared with each other are not modelled);
    [O]: the objects that are neither iterable nor distributions. *)
Context {V O : Type} `{EqDecision V}.
Variable ltb : V -> V -> bool.

(** An entry of the flattened [distributions], by how the code sees it. *)
Inductive dist : Type :=
| Enumerable (vs : list V)          (* [list(v)] succeeds *)
| Continuous (rvs : Z -> list V)    (* [list(v)] fails, [v.rvs] exists *)
| Fixed (o : O).                    (* [list(v)] fails, no [rvs] *)

(** An entry of a generated config. *)
Inductive item : Type :=
| Sampled (v : V)
| Kept (d : dist)                   (* an entry of [other], as it was *)
| Int (z : Z).                      (* [idx], [repeat], [seed] *)

(** [sorted(flat.keys())]. *)
Definition sorted_keys (flat : gmap string dist) : list string :=
  merge_sort (λ a b, Is_true (String.leb a b)) (map fst (map_to_list flat)).

(** Python's [<] on tuples: decided at the first position that differs. *)
Fixpoint tuple_lt (a b : list V) : bool :=
  match a, b with
  | [], [] => false
  | [], _ :: _ => true
  | _ :: _, [] => false
  | x :: a', y :: b' => if decide (x = y) then tuple_lt a' b' else ltb x y
  end.

(** [sorted] on a list of tuples: stable, and an element moves before
    another only when it is [<] than it. *)
Definition sorted (l : list (list V)) : list (list V) :=
  merge_sort (λ a b, Is_true (negb (tuple_lt b a))) l.

(** [itertools.product] of the lists: the first list varies slowest. *)
Fixpoint product (lists : list (list V)) : list (list V) :=
  match lists with
  | [] => [[]]
  | l :: rest => p ← l; q ← product rest; [p :: q]
  end.

(** What the loop over the sorted keys of [generate_all] builds. *)
Record scanned : Type := {
  other : gmap string item;
  sampled_keys : list string;
  lists : list (list V)
}.

Fixpoint scan_all (flat : gmap string dist) (keys : list string)
    (acc : scanned) : res scanned :=
  match keys with
  | [] => Ok acc
  | k :: keys' =>
      match flat !! k with
      | None => Raise "KeyError"
      | Some (Enumerable vs) =>
          scan_all flat keys'
            {| other := other acc;
               sampled_keys := sampled_keys acc ++ [k];
               lists := lists acc ++ [vs] |}
      | Some (Continuous _) =>
          Raise "Attempting to generate all samples, but an element is a continuous distribution."
      | Some (Fixed o) =>
          scan_all flat keys'
            {| other := <[ k := Kept (Fixed o) ]> (other acc);
               sampled_keys := sampled_keys acc;
               lists := lists acc |}
      end
  end.

(** [new = Config(deepcopy(other)); for k, p in zip(keys, pset): new[k] = p]. *)
Definition build (oth : gmap string item) (keys : list string)
    (pset : list V) : gmap string item :=
  foldl (fun new kp => <[ kp.1 := Sampled kp.2 ]> new) oth (zip keys pset).

Definition empty_scan : scanned :=
  {| other := ∅; sampled_keys := []; lists := [] |}.

Definition generate_all (flat : gmap string dist)
  : res (list (gmap string item)) :=
  match scan_all flat (sorted_keys flat) empty_scan with
  | Raise msg => Raise msg
  | Ok sc =>
      Ok (map (build (other sc) (sampled_keys sc)) (sorted (product (lists sc))))
  end.

(** The random draws of [numpy] and [gen_seed], as given functions. *)
Record randomness : Type := {
  choice : string -> list V -> Z -> list V;
  permutation : list (gmap string item) -> list (gmap string item);
  gen_seed : nat -> nat -> Z          (* for sample [i] and repeat [r] *)
}.

(** [zip] of any number of lists: as long as the shortest of them, and
    empty when there is no list at all. *)
Definition zip_all (ls : list (list V)) : list (list V) :=
  match ls with
  | [] => []
  | l :: rest =>
      let n := foldr (fun l' m => Nat.min (length l') m) (length l) rest in
      omap (fun i => mapM (fun l' => l' !! i) ls) (seq 0 n)
  end.

(** The loop over the sorted keys of [nested_sample]. [np.random.choice]
    raises [ValueError] on an empty population and on a negative size; the
    entry then goes to [other] when it has no [rvs]. *)
Fixpoint scan_sample (rnd : randomness) (flat : gmap string dist)
    (n : Z) (keys : list string) (acc : scanned) : res scanned :=
  match keys with
  | [] => Ok acc
  | k :: keys' =>
      match flat !! k with
      | None => Raise "KeyError"
      | Some (Enumerable vs) =>
          if bool_decide (vs = []) || (n <? 0)
          then scan_sample rnd flat n keys'
                 {| other := <[ k := Kept (Enumerable vs) ]> (other acc);
                    sampled_keys := sampled_keys acc;
                    lists := lists acc |}
          else scan_sample rnd flat n keys'
                 {| other := other acc;
                    sampled_keys := sampled_keys acc ++ [k];
                    lists := lists acc ++ [choice rnd k vs n] |}
      | Some (Continuous rvs) =>
          scan_sample rnd flat n keys'
            {| other := other acc;
               sampled_keys := sampled_keys acc ++ [k];
               lists := lists acc ++ [rvs n] |}
      | Some (Fixed o) =>
          scan_sample rnd flat n keys'
            {| other := <[ k := Kept (Fixed o) ]> (other acc);
               sampled_keys := sampled_keys acc;
               lists := lists acc |}
      end
  end.

Definition nested_sample (rnd : randomness) (flat : gmap string dist)
    (n_samples : Z) : res (list (gmap string item)) :=
  match scan_sample rnd flat n_samples (sorted_keys flat) empty_scan with
  | Raise msg => Raise msg
  | Ok sc =>
      Ok (map (build (other sc) (sampled_keys sc)) (sorted (zip_all (lists sc))))
  end.

(** The first argument of [sample_configs]: a list of configs or a mapping
    from (flattened) parameter names to distributions. *)
Inductive spec : Type :=
| Literal (configs : list (gmap string item))
| Dists (flat : gmap string dist).

(** [l[:n]]: a negative [n] counts from the end. *)
Definition slice_to {A} (n : Z) (l : list A) : list A :=
  if 0 <=? n then take (Z.to_nat n) l
  else take (length l - Z.to_nat (- n)) l.

(** [bool(n_samples)] for [None] or an integer. *)
Definition given (n_samples : option Z) : bool :=
  match n_samples with
  | Some n => negb (n =? 0)
  | None => false
  end.

(** The [for i, s in enumerate(samples)] loop of [sample_configs]. *)
Definition fan_out (rnd : randomness) (n_repeats : Z)
    (samples : list (gmap string item)) : list (gmap string item) :=
  mjoin (imap (fun i s =>
           let s := <[ "idx" := Int (Z.of_nat i) ]> s in
           map (fun r => <[ "seed" := Int (gen_seed rnd i r) ]>
                           (<[ "repeat" := Int (Z.of_nat r) ]> s))
               (seq 0 (Z.to_nat n_repeats)))
         samples).

(** [sample_configs(distributions, base_config, n_repeats, n_samples=None)];
    [base_config] is not used by the body. *)
Definition sample_configs {B : Type} (rnd : randomness) (distributions : spec)
    (base_config : B) (n_repeats : Z) (n_samples : option Z)
  : res (list (gmap string item)) :=
  let samples :=
    match distributions with
    | Literal configs =>
        Ok (if given n_samples
            then slice_to (default 0 n_samples) (permutation rnd configs)
            else configs)
    | Dists flat =>
        if negb (given n_samples) then generate_all flat
        else nested_sample rnd flat (default 0 n_samples)
    end in
  match samples with
  | Raise msg => Raise msg
  | Ok samples => Ok (fan_out rnd n_repeats samples)
  end.

End Sampler.

(** *** [nested_map] *)

(** A value that may be a [dict]: its items in insertion order (the keys of
    a [dict] are distinct), or any other object, the objects being of one
    type [A]. *)
#[local] Unset Elimination Schemes.
Inductive nested (A : Type) : Type :=
| Leaf (a : A)
| Dict (items : list (string * nested A)).
#[local] Set Elimination Schemes.
Arguments Leaf {A} a.
Arguments Dict {A} items.

(** [d[k] = v] on the items of a dict: the value of a key that is there is
    replaced in place, a new key is appended. *)
Fixpoint set_item {B} (k : string) (v : B) (d : list (string * B))
  : list (string * B) :=
  match d with
  | [] => [(k, v)]
  | (k', v') :: d' =>
      if String.eqb k' k then (k', v) :: d' else (k', v') :: set_item k v d'
  end.

(** [d.update(other)]. *)
Definition update {B} (d other : list (string * B)) : list (string * B) :=
  foldl (fun acc kv => set_item kv.1 kv.2 acc) d other.

(** [nested_map(d, f)]: a copy of [d] updated with the mapped items when [d]
    is a dict, [f(d)] otherwise. *)
Fixpoint nested_map {A} (d : nested A) (f : A -> A) : nested A :=
  match d with
  | Dict items =>
      let _d := items in
      Dict (update _d (map (fun kv => match kv with
                                      | (k, v) => (k, nested_map v f)
                                      end) items))
  | Leaf a => Leaf (f a)
  end.

End Hyper.

(** ** [dps/parallel/submit_job.py]: [ParallelSession] *)

Module Parallel.

(** Modelled from the spec: the job store of [dps.parallel.base], which is
    not part of the sources at hand. An archive is a persisted job; what the
    session reads from it is which operations have recorded an output, so an
    archive is given by the set of their indices. Merging archives is the
    union, and [ready_incomplete_ops] lists the operations of the job (none
    of which waits on another) that have no output yet. *)
Definition archive : Type := gset nat.

Definition ready_incomplete_ops (ops : gset nat) (a : archive) : gset nat :=
  ops ∖ a.

(** [sorted] on operation indices. *)
Definition sorted (l : list nat) : list nat := merge_sort Nat.le l.

(** The files the session reads and writes. *)
Record files : Type := {
  input_zip : archive;                 (* [{input_zip_abs}] *)
  input_zip_bk : option archive;       (* [{input_zip_abs}.bk] *)
  results_dir : archive;               (* [results/{archive_root}] *)
  results_zip : option archive;        (* [results.zip] *)
  scratch : gmap string archive        (* [{local_scratch}] of each host *)
}.

(** The arguments of [__init__] that [run] uses, and the operations of the
    job in [input_zip]. *)
Record params : Type := {
  ops : gset nat;
  host_pool : list string;
  min_hosts : nat;
  max_hosts : nat;
  ppn : nat;
  n_retries : Z;
  dry_run : bool
}.

(** What is outside the controller, by step: whether a host answers the
    connection test, whether its preparation commands succeed, on which host
    (if any) an operation run in the step records its output, and whether
    the host's results reach the controller. *)
Record outside : Type := {
  reachable : nat -> string -> bool;
  prepared : nat -> string -> bool;
  completes : nat -> nat -> option string;
  fetched : nat -> string -> bool
}.

(** The local variables of [run] and the attributes it updates. *)
Record state : Type := {
  fs : files;
  hosts : list string;
  subjobs_remaining : list nat;
  n_failures : gmap nat nat;
  dead_jobs : gset nat;
  step_idx : nat
}.

Inductive res (A : Type) : Type :=
| Ok (a : A)
| Raise (msg : string)
| Diverges.                            (* the fuel of the loop ran out *)
Arguments Ok {A} a.
Arguments Raise {A} msg.
Arguments Diverges {A}.

Definition set_scratch (f : gmap string archive -> gmap string archive)
    (d : files) : files :=
  {| input_zip := input_zip d; input_zip_bk := input_zip_bk d;
     results_dir := results_dir d; results_zip := results_zip d;
     scratch := f (scratch d) |}.

(** Staging in [recruit_hosts]: the archive is copied and unzipped only
    when the host does not have it yet. *)
Definition stage_host (host : string) (d : files) : files :=
  match scratch d !! host with
  | Some _ => d
  | None => set_scratch <[ host := input_zip d ]> d
  end.

(** The [for host in self.host_pool] loop of [recruit_hosts(max_procs)];
    [max_procs] is [None] for [np.inf]. *)
Fixpoint recruit_loop (p : params) (o : outside) (i : nat)
    (max_procs : option nat) (pool : list string)
    (found : list string) (d : files) : list string * files :=
  match pool with
  | [] => (found, d)
  | host :: pool' =>
      let n_hosts := length found in
      if (max_hosts p <=? n_hosts)%nat then (found, d)
      else if (match max_procs with
               | Some m => (m <=? n_hosts * ppn p)%nat
               | None => false
               end) then (found, d)
      else if negb (String.eqb host ":") && negb (reachable o i host)
      then recruit_loop p o i max_procs pool' found d
      else if prepared o i host
      then recruit_loop p o i max_procs pool' (found ++ [host])
             (stage_host host d)
      else recruit_loop p o i max_procs pool' found d
  end.

Definition recruit_hosts (p : params) (o : outside) (i : nat)
    (max_procs : option nat) (d : files) : res (list string * files) :=
  let '(found, d') := recruit_loop p o i max_procs (host_pool p) [] d in
  if (length found <? min_hosts p)%nat
  then Raise "Found too few usable hosts."
  else Ok (found, d').

(** [step]: each operation of the step is run on one of the hosts; where it
    succeeds, its output is recorded in that host's copy of the archive. *)
Definition step (o : outside) (i : nat) (hs : list string)
    (indices_for_step : list nat) (d : files) : files :=
  foldl (fun d j =>
           match completes o i j with
           | Some h =>
               if bool_decide (h ∈ hs)
               then set_scratch (alter (fun a => a ∪ {[ j ]}) h) d
               else d
           | None => d
           end)
        d indices_for_step.

(** [fetch] and [checkpoint]: the archive of every host whose transfer works
    is unzipped into [results], and [results] is zipped into [results.zip]. *)
Definition checkpoint (o : outside) (i : nat) (hs : list string)
    (d : files) : files :=
  let merged :=
    foldl (fun acc h =>
             if fetched o i h then acc ∪ default ∅ (scratch d !! h) else acc)
          (results_dir d) hs in
  {| input_zip := input_zip d; input_zip_bk := input_zip_bk d;
     results_dir := merged;
     results_zip := Some (default ∅ (results_zip d) ∪ merged);
     scratch := scratch d |}.

(** The [for j in indices_for_step] loop of [run]: an operation of the step
    that is still incomplete has failed once more, and is dead once its
    failures exceed [n_retries]. *)
Definition count_failures (p : params) (remaining : gset nat)
    (indices_for_step : list nat) (acc : gmap nat nat * gset nat)
  : gmap nat nat * gset nat :=
  foldl (fun acc j =>
           if bool_decide (j ∈ remaining)
           then let n := S (default 0%nat (acc.1 !! j)) in
                (<[ j := n ]> acc.1,
                 if n_retries p <? Z.of_nat n then {[ j ]} ∪ acc.2 else acc.2)
           else acc)
        acc indices_for_step.

(** One pass through the body of [while subjobs_remaining]; it answers the
    indices run in the step and the state after it. *)
Definition loop_body (p : params) (o : outside) (st : state)
  : res (list nat * state) :=
  let i := step_idx st in
  match recruit_hosts p o i (Some (length (subjobs_remaining st))) (fs st) with
  | Raise msg => Raise msg
  | Diverges => Diverges
  | Ok (hs, d1) =>
      let n_procs := (ppn p * length hs)%nat in
      let indices_for_step := take n_procs (subjobs_remaining st) in
      let d2 := step o i hs indices_for_step d1 in
      let d3 := checkpoint o i hs d2 in
      match results_zip d3 with
      | None => Raise "results.zip is missing"
      | Some job =>
          let remaining := ready_incomplete_ops (ops p) job in
          let '(failures, dead) :=
            count_failures p remaining indices_for_step
                           (n_failures st, dead_jobs st) in
          Ok (indices_for_step,
              {| fs := d3; hosts := hs;
                 subjobs_remaining :=
                   sorted (filter (fun idx => idx ∉ dead) (elements remaining));
                 n_failures := failures; dead_jobs := dead;
                 step_idx := S i |})
      end
  end.

(** At most [k] passes of the loop: the indices of each step with the state
    after it, and the state reached. *)
Fixpoint run_steps (k : nat) (p : params) (o : outside) (st : state)
  : res (list (list nat * state) * state) :=
  match k, subjobs_remaining st with
  | O, _ | _, [] => Ok ([], st)
  | S k', _ :: _ =>
      match loop_body p o st with
      | Raise msg => Raise msg
      | Diverges => Diverges
      | Ok (indices, st') =>
          match run_steps k' p o st' with
          | Ok (tr, final) => Ok ((indices, st') :: tr, final)
          | r => r
          end
      end
  end.

(** The state in which the loop of [run] starts; [self.hosts] is set anew by
    [recruit_hosts] before it is read. *)
Definition start (p : params) (d : files) : state :=
  {| fs := d; hosts := [];
     subjobs_remaining :=
       sorted (elements (ready_incomplete_ops (ops p) (input_zip d)));
     n_failures := ∅; dead_jobs := ∅; step_idx := 0 |}.

(** The two copies after the loop: [cp -f input input.bk], then
    [cp -f results.zip input]. *)
Definition finish (d : files) : res files :=
  match results_zip d with
  | None => Raise "cp: cannot stat results.zip"
  | Some merged =>
      Ok {| input_zip := merged; input_zip_bk := Some (input_zip d);
            results_dir := results_dir d; results_zip := results_zip d;
            scratch := scratch d |}
  end.

(** [run]: nothing on a dry run; else the loop, then the two copies. *)
Definition run (fuel : nat) (p : params) (o : outside) (d : files)
  : res files :=
  if dry_run p then Ok d
  else match run_steps fuel p o (start p d) with
       | Raise msg => Raise msg
       | Diverges => Diverges
       | Ok (_, st) =>
           match subjobs_remaining st with
           | [] => finish (fs st)
           | _ :: _ => Diverges
           end
       end.

(** *** [__init__]: the schedule of a session *)

(** How the argument [wall_time] parses: as a duration ["HH:MM:SS"], or else
    as a date, which leaves the time from now to that date. A [timedelta] is
    given in microseconds. *)
Inductive wall_time : Type :=
| Duration (us : Z)
| Deadline (us_from_now : Z).

Definition wall_us (w : wall_time) : Z :=
  match w with Duration us => us | Deadline us => us end.

(** [int(t.total_seconds())]: whole seconds, rounded towards zero. *)
Definition whole_seconds (us : Z) : Z := Z.quot us 1000000.

(** [int(np.ceil(a / b))] and [int(np.floor(a / b))] on integers, [b] not
    zero. The quotient is a float in the source; it is rounded correctly, so
    these agree with it as long as the numbers stay below 2^53. *)
Definition ceil_div (a b : Z) : Z := - ((- a) / b).
Definition floor_div (a b : Z) : Z := a / b.

(** What [__init__] leaves in the attributes that the schedule is made of. *)
Record schedule : Type := {
  sched_hosts : list string;           (* [self.hosts] *)
  sched_n_procs : Z;                   (* [self.n_procs] *)
  n_steps : Z;
  n_nodes : Z;
  execution_time : Z;
  abs_seconds_per_step : Z;
  seconds_per_step : Z
}.

Inductive init_result : Type :=
| Finished                             (* returned early: no attribute is set *)
| Ready (p : params) (sc : schedule) (d : files)
| InitRaise (msg : string).

(** [__init__], from the parsed time arguments on. [fresh_directory] tells
    whether the [results] directory of the job directory could be made; it
    is empty then, and there is no [results.zip] yet.
    [self.host_pool] is first set to [host_pool or HOST_POOL] and then, by
    [self.__dict__.update(locals())], to the argument [host_pool] itself;
    [recruit_hosts] iterates over it. *)
Definition init (job_ops : gset nat) (host_pool_arg : option (list string))
    (min_hosts_arg max_hosts_arg ppn_arg : nat) (n_retries_arg : Z)
    (dry_run_arg : bool) (fresh_directory : bool)
    (wall : wall_time) (cleanup_us time_slack : Z)
    (o : outside) (d : files) : init_result :=
  if negb fresh_directory then InitRaise "FileExistsError" else
  if (match wall with
      | Duration _ => false
      | Deadline us => whole_seconds us <? 0
      end) then InitRaise "Deadline is in the past!" else
  if wall_us wall <? cleanup_us
  then InitRaise "Cleanup time is larger than wall_time!" else
  let indices_to_run :=
    sorted (elements (ready_incomplete_ops job_ops (input_zip d))) in
  let n_jobs_to_run := Z.of_nat (length indices_to_run) in
  if n_jobs_to_run =? 0 then Finished else
  match host_pool_arg with
  | None => InitRaise "TypeError: 'NoneType' object is not iterable"
  | Some pool =>
      let p := {| ops := job_ops; host_pool := pool;
                  min_hosts := min_hosts_arg; max_hosts := max_hosts_arg;
                  ppn := ppn_arg; n_retries := n_retries_arg;
                  dry_run := dry_run_arg |} in
      let d0 := {| input_zip := input_zip d; input_zip_bk := input_zip_bk d;
                   results_dir := ∅; results_zip := None;
                   scratch := scratch d |} in
      match recruit_hosts p o 0 None d0 with
      | Raise msg => InitRaise msg
      | Diverges => InitRaise "Diverges"
      | Ok (hs, d1) =>
          let self_n_procs := Z.of_nat (ppn_arg * length hs) in
          let ppn_z := Z.of_nat ppn_arg in
          let sized :=
            if n_jobs_to_run <? self_n_procs
            then let nodes := ceil_div n_jobs_to_run ppn_z in
                 Some (1, nodes, nodes * ppn_z, take (Z.to_nat nodes) hs)
            else if self_n_procs =? 0 then None
            else Some (ceil_div n_jobs_to_run self_n_procs,
                       Z.of_nat (length hs), self_n_procs, hs) in
          match sized with
          | None => InitRaise "ZeroDivisionError"
          | Some (steps, nodes, procs, hs') =>
              let execution := whole_seconds (wall_us wall - cleanup_us) in
              let abs_seconds := floor_div execution steps in
              let seconds := abs_seconds - time_slack in
              if negb (0 <? execution) then InitRaise "AssertionError"
              else if negb (0 <? abs_seconds) then InitRaise "AssertionError"
              else if negb (0 <? seconds) then InitRaise "AssertionError"
              else Ready p
                     {| sched_hosts := hs'; sched_n_procs := procs;
                        n_steps := steps; n_nodes := nodes;
                        execution_time := execution;
                        abs_seconds_per_step := abs_seconds;
                        seconds_per_step := seconds |}
                     d1
          end
      end
  end.

End Parallel.

(** ** Concrete numbers and inputs used in examples *)

Module Scenario.

(** Floats as far as the examples need them: rationals, the infinities and
    a NaN, with the comparisons of IEEE 754. *)
Inductive num : Type :=
| Rat (q : Q)
| PInf
| NInf
| NaN.

Definition num_lt (a b : num) : bool :=
  match a, b with
  | NaN, _ | _, NaN => false
  | _, NInf => false
  | NInf, _ => true
  | PInf, _ => false
  | _, PInf => true
  | Rat x, Rat y => negb (Qle_bool y x)
  end.

#[global] Instance num_metric : Metric num := {
  gt a b := num_lt b a;
  lt a b := num_lt a b;
  nonzero a := match a with Rat q => negb (Qeq_bool q 0) | _ => true end;
  of_int z := Rat (inject_Z z);
  pinf := PInf
}.

(** An integer-valued metric. *)
Definition n (z : Z) : num := Rat (inject_Z z).

(** A hook with patience 2 that maximizes, after checks of 5 at step 0 and
    of 4 at step 1. *)
Definition after_five_four : EarlyStop.hook num unit :=
  {| EarlyStop.patience := EarlyStop.Finite 2; EarlyStop.maximize := true;
     EarlyStop._best_stopping_criteria := Some (n 5);
     EarlyStop._best_record := Some tt;
     EarlyStop._best_step := Some 0;
     EarlyStop._early_stopped := false |}.

(** Checks of an [EarlyStopHook] with patience 0 that maximizes: 5 at step
    0, 4 at step 1, 10 at step 2, 9 at step 3. *)
Definition plateau_then_best : list (num * Z * unit) :=
  [(n 5, 0, tt); (n 4, 1, tt); (n 10, 2, tt); (n 9, 3, tt)].

(** *** A training run *)

(** Validation records map names to numbers. *)
Definition vrecord : Type := gmap string num.
Definition entry (name : string) (r : vrecord) : option num := r !! name.

(** The base config of the runs below: [lr = 0.1]; at most 5 steps per
    stage; the accuracy is to rise above 9.5; every step is evaluated. *)
Definition base : Train.layer num :=
  list_to_map
    [("lr", Train.VNum (Rat (1 # 10))); ("seed", Train.VInt 12);
     ("max_time", Train.VInt 0); ("use_gpu", Train.VBool false);
     ("save_summaries", Train.VBool false); ("load_path", Train.VStr "");
     ("preserve_env", Train.VBool true); ("preserve_policy", Train.VBool true);
     ("power_through", Train.VBool true); ("patience", Train.VInf);
     ("max_steps", Train.VInt 5); ("max_experiences", Train.VInf);
     ("checkpoint_step", Train.VInt 2); ("eval_step", Train.VInt 1);
     ("display_step", Train.VInt 100); ("render_step", Train.VInt 0);
     ("do_train", Train.VBool true); ("batch_size", Train.VInt 16);
     ("n_val", Train.VInt 200); ("threshold", Train.VNum (Rat (19 # 2)));
     ("render_hook", Train.VNone); ("error_on_timeout", Train.VBool false);
     ("slim", Train.VBool false)].

(** An updater whose accuracy at local step [s] is [s]; [interrupt_at]
    is the step whose [update] the user interrupts, if any. *)
Definition climbing (interrupt_at : option Z) : Train.updater vrecord :=
  {| Train.stopping_criteria := "acc,max";
     Train.n_experiences := fun s => 16 * s;
     Train.update := fun s =>
       if bool_decide (interrupt_at = Some s)
       then Train.Raise Train.KeyboardInterrupt else Train.Ok tt;
     Train.evaluate_val := fun s => Train.Ok {[ "acc" := n s ]};
     Train.evaluate_test := fun s => Train.Ok {[ "acc" := n s ]};
     Train.final_test := Train.Ok {[ "acc" := n 0 ]};
     Train.save := fun s => "best_of_stage" |}.

(** A machine on which time stands still; [interrupted] is the stage in
    which the user interrupts the update of step 2, if any. *)
Definition machine (interrupted : option nat) : Train.world num vrecord :=
  {| Train.hostname := "localhost";
     Train.now_at_start := 0;
     Train.now_at_stage := fun _ => 0;
     Train.gen_seed := 7;
     Train.get_experiment_name := "exp";
     Train.new_experiment := fun name seed => String.append "/experiments/" name;
     Train.get_updater := fun stage_idx _ =>
       climbing (if bool_decide (interrupted = Some stage_idx)
                 then Some 2 else None);
     Train.memory_usage := fun _ after => if after then 120 else 100 |}.

(** The curriculum of the specification's scenario. *)
Definition two_stages : list (Train.layer num) :=
  [ {[ "T" := Train.VInt 2 ]}; {[ "T" := Train.VInt 4 ]} ].

(** A hook called every second step. *)
Definition every_other_step : Train.step_hook :=
  {| Train.hook_n := 2; Train.hook_initial := false;
     Train.hook_step := fun _ => Train.Ok tt |}.

(** The fixed parts of a run on [machine None] with the two stages. *)
Definition the_session : Train.session num vrecord :=
  {| Train.the_world := machine None; Train.hooks := [];
     Train.curriculum := two_stages; Train.exp_dir := "/experiments/exp";
     Train.start_time := 0 |}.

(** The state in which [_run_stage] is entered for stage 0: one open record
    in the history, the stage's layer on top of [base], the accuracy to be
    maximized; and the hook [run_stage] makes for it. *)
Definition stage_start : Train.tl num vrecord :=
  Train.set_criteria "acc" true
    (Train.set_history (fun _ => [Train.new_record 0])
       (Train.fresh [ {[ "T" := Train.VInt 2 ]}; base ])).

Definition fresh_hook : EarlyStop.hook num vrecord :=
  EarlyStop.init EarlyStop.Infinity true.

(** Five passes of the stage loop from there. *)
Definition five_passes :
    Train.res (option (EarlyStop.hook num vrecord)) * Train.tl num vrecord :=
  Train.passes entry 5 the_session (climbing None) fresh_hook
    (Train.set_steps (Train.global_step stage_start) 0 stage_start).

Definition hook_after_five : EarlyStop.hook num vrecord :=
  match five_passes.1 with
  | Train.Ok (Some es) => es
  | _ => fresh_hook
  end.

Definition after_five : Train.tl num vrecord := five_passes.2.

(** Stage 0 with a hook, on an updater whose update of step 2 the user
    interrupts: the setup of the stage, then [_run_stage]. *)
Definition hooked_session : Train.session num vrecord :=
  {| Train.the_world := machine (Some 0%nat);
     Train.hooks := [every_other_step];
     Train.curriculum := two_stages; Train.exp_dir := "/experiments/exp";
     Train.start_time := 0 |}.

Definition setup_done :
    Train.res (EarlyStop.hook num vrecord) * Train.tl num vrecord :=
  Train.stage_setup hooked_session 0 (climbing (Some 2)) stage_start.

Definition hook_of_setup : EarlyStop.hook num vrecord :=
  match setup_done.1 with
  | Train.Ok es => es
  | Train.Raise _ => fresh_hook
  end.

Definition interrupted : Train.tl num vrecord :=
  (Train._run_stage entry 6 hooked_session (climbing (Some 2)) hook_of_setup
     setup_done.2).2.

Definition open_record : Train.stage_record num vrecord :=
  default (Train.new_record 0) (last (Train.history interrupted)).

(** A loop object with that hook. *)
Definition hooked_loop : Train.training_loop_object :=
  Train.TrainingLoop (machine (Some 0%nat)) "" None (Some [every_other_step]).

(** *** A hyper-parameter search *)

(** Parameter values are integers here; the entries that are neither
    iterable nor distributions are given by a name. *)
Definition grid : gmap string (@Hyper.dist Z string) :=
  list_to_map
    [("lr", Hyper.Enumerable [1; 2]);
     ("n_layers", Hyper.Enumerable [10; 20; 30]);
     ("optimizer", Hyper.Fixed "adam")].

Definition grid_configs : list (gmap string (@Hyper.item Z string)) :=
  match Hyper.generate_all Z.ltb grid with
  | Hyper.Ok cs => cs
  | Hyper.Raise _ => []
  end.

Definition fixed_only : gmap string (@Hyper.dist Z string) :=
  list_to_map [("optimizer", Hyper.Fixed "adam"); ("loss", Hyper.Fixed "mse")].

(** Draws that are not random at all: the first value every time, the list
    reversed, and seeds that count up. *)
Definition dice : @Hyper.randomness Z string :=
  {| Hyper.choice := fun _ vs n => replicate (Z.to_nat n) (default 0 (head vs));
     Hyper.permutation := reverse;
     Hyper.gen_seed := fun i r => Z.of_nat (100 * i + r) |}.

Definition grid_twice : list (gmap string (@Hyper.item Z string)) :=
  match Hyper.sample_configs Z.ltb dice (Hyper.Dists grid) tt 2 (Some 0) with
  | Hyper.Ok cs => cs
  | Hyper.Raise _ => []
  end.

(** *** A parallel session *)

(** Three operations on two single-processor hosts, one retry each. *)
Definition cluster : Parallel.params :=
  {| Parallel.ops := list_to_set [0; 1; 2]%nat;
     Parallel.host_pool := [":"; "node1"];
     Parallel.min_hosts := 1; Parallel.max_hosts := 2; Parallel.ppn := 1;
     Parallel.n_retries := 1; Parallel.dry_run := false |}.

(** Every host answers and every transfer works; operation 0 succeeds at
    once, operation 1 at its second attempt, operation 2 never. *)
Definition flaky : Parallel.outside :=
  {| Parallel.reachable := fun _ _ => true;
     Parallel.prepared := fun _ _ => true;
     Parallel.completes := fun i j =>
       match j with
       | 0%nat => Some ":"
       | 1%nat => if (i =? 0)%nat then None else Some ":"
       | _ => None
       end;
     Parallel.fetched := fun _ _ => true |}.

(** A job none of whose operations has run. *)
Definition new_job : Parallel.files :=
  {| Parallel.input_zip := ∅; Parallel.input_zip_bk := None;
     Parallel.results_dir := ∅; Parallel.results_zip := None;
     Parallel.scratch := ∅ |}.

Definition session_steps
  : list (list nat * Parallel.state) * Parallel.state :=
  match Parallel.run_steps 5 cluster flaky (Parallel.start cluster new_job) with
  | Parallel.Ok r => r
  | _ => ([], Parallel.start cluster new_job)
  end.

(** The first pass of that session. *)
Definition first_pass : list nat * Parallel.state :=
  match Parallel.loop_body cluster flaky (Parallel.start cluster new_job) with
  | Parallel.Ok r => r
  | _ => ([], Parallel.start cluster new_job)
  end.

Definition second_pass : list nat * Parallel.state :=
  match Parallel.loop_body cluster flaky first_pass.2 with
  | Parallel.Ok r => r
  | _ => ([], first_pass.2)
  end.

Definition first_recruits : list string * Parallel.files :=
  match Parallel.recruit_hosts cluster flaky 0 (Some 3%nat) new_job with
  | Parallel.Ok r => r
  | _ => ([], new_job)
  end.

Definition session_end : Parallel.files :=
  match Parallel.run 5 cluster flaky new_job with
  | Parallel.Ok d => d
  | _ => new_job
  end.

(** *** Further stages *)

(** An updater whose [update] is not implemented from step 1 on. *)
Definition unimplemented : Train.updater vrecord :=
  {| Train.stopping_criteria := "acc,max";
     Train.n_experiences := fun s => 16 * s;
     Train.update := fun s =>
       if 0 <? s then Train.Raise Train.NotImplementedError else Train.Ok tt;
     Train.evaluate_val := fun s => Train.Ok {[ "acc" := n s ]};
     Train.evaluate_test := fun s => Train.Ok {[ "acc" := n s ]};
     Train.final_test := Train.Ok {[ "acc" := n 0 ]};
     Train.save := fun s => "best_of_stage" |}.

(** The state in which [_run_stage] on that updater fails. *)
Definition crashed : Train.tl num vrecord :=
  (Train._run_stage entry 6 hooked_session unimplemented
     hook_of_setup setup_done.2).2.

(** The state of a loop that has not run yet, under the base config. *)
Definition untrained : Train.tl num vrecord :=
  Train.fresh [base].

(** A session without any stage. *)
Definition no_stages : Train.session num vrecord :=
  {| Train.the_world := machine None; Train.hooks := [];
     Train.curriculum := []; Train.exp_dir := "/experiments/exp";
     Train.start_time := 0 |}.

(** The state the two-stage curriculum ends in. *)
Definition finished : Train.tl num vrecord :=
  (Train._run entry 6 the_session untrained).2.

(** The start of stage 0 with [eval_step = 0]. *)
Definition never_evaluated : Train.tl num vrecord :=
  Train.set_cfg (Train.cfg_enter {[ "eval_step" := Train.VInt 0 ]})
    stage_start.

(** The state after the hooks of step 2 have run. *)
Definition hooks_ran : Train.tl num vrecord :=
  (Train.run_hooks 2 0 [every_other_step; every_other_step]
     stage_start).2.

(** *** The schedule of a session, and a nested config *)

(** What [__init__] makes of the three operations on the pool of two
    hosts, with one hour of wall time of which a quarter is for cleanup. *)
Definition planned
  : Parallel.params * Parallel.schedule * Parallel.files :=
  match Parallel.init (list_to_set [0; 1; 2]%nat) (Some [":"; "node1"])
          1 2 1 1 false true (Parallel.Duration 3600000000) 900000000 0
          flaky new_job with
  | Parallel.Ready p sc d => (p, sc, d)
  | _ => (cluster,
          {| Parallel.sched_hosts := []; Parallel.sched_n_procs := 0;
             Parallel.n_steps := 0; Parallel.n_nodes := 0;
             Parallel.execution_time := 0;
             Parallel.abs_seconds_per_step := 0;
             Parallel.seconds_per_step := 0 |},
          new_job)
  end.

(** Distributions nested two levels deep, the leaves being numbers. *)
Definition config_tree : Hyper.nested Z :=
  Hyper.Dict [("lr", Hyper.Leaf 1);
               ("net", Hyper.Dict [("depth", Hyper.Leaf 3);
                                    ("width", Hyper.Leaf 64)])].

End Scenario.

(* ===================================================================== *)
(** * Part II: properties                                                 *)
(* ===================================================================== *)

Section EarlyStopFacts.

Import EarlyStop.
Context {M R : Type} `{Metric M}.

Lemma check_new_best (h : hook M R) sc step rec :
  _check_trigger h sc = true ->
  check h sc step rec =
    Some ({| patience := patience h; maximize := maximize h;
             _best_stopping_criteria := Some sc; _best_record := Some rec;
             _best_step := Some step;
             _early_stopped := _early_stopped h || exceeds 0 (patience h) |},
          (true, _early_stopped h || exceeds 0 (patience h))).
Proof.
  intros Ht. unfold check. rewrite Ht. cbn. by rewrite Z.sub_diag.
Qed.

Lemma check_no_best (h : hook M R) sc step rec b :
  _check_trigger h sc = false ->
  _best_step h = Some b ->
  check h sc step rec =
    Some ({| patience := patience h; maximize := maximize h;
             _best_stopping_criteria := _best_stopping_criteria h;
             _best_record := _best_record h;
             _best_step := Some b;
             _early_stopped := _early_stopped h || exceeds (step - b) (patience h) |},
          (false, _early_stopped h || exceeds (step - b) (patience h))).
Proof.
  intros Ht Hb. unfold check. rewrite Ht, Hb. reflexivity.
Qed.

(** A fresh hook answers [new_best = True] to its first check, and
    [should_stop] exactly when the patience is negative. *)
Lemma check_fresh (h : hook M R) sc step rec :
  _best_stopping_criteria h = None ->
  _early_stopped h = false ->
  exists h', check h sc step rec = Some (h', (true, exceeds 0 (patience h))).
Proof.
  intros Hb Hs. rewrite check_new_best by (unfold _check_trigger; by rewrite Hb).
  rewrite Hs. cbn. eauto.
Qed.

(** While every value is better than all before it, every check is a new
    best and none asks to stop. *)
Lemma improving_never_stops (p : Z) (mx : bool) (cs : list (M * Z * R)) :
  0 <= p ->
  forall (h : hook M R) (prev : list M),
    patience h = Finite p ->
    maximize h = mx ->
    _early_stopped h = false ->
    (forall b0, _best_stopping_criteria h = Some b0 -> b0 ∈ prev) ->
    improving mx prev (map (fun c => c.1.1) cs) = true ->
    exists h', checks h cs = Some (h', map (fun _ => (true, false)) cs).
Proof.
  intros Hp. induction cs as [|[[sc step] rec] cs IH]; intros h prev Hpat Hmx Hs Hb Himp.
  - cbn. eauto.
  - cbn in Himp. apply andb_true_iff in Himp as [Hall Himp].
    assert (Ht : _check_trigger h sc = true).
    { unfold _check_trigger. destruct (_best_stopping_criteria h) as [b0|] eqn:E; [|done].
      rewrite Hmx. rewrite forallb_forall in Hall. apply Hall.
      apply list_elem_of_In. by apply Hb. }
    cbn [checks]. rewrite (check_new_best _ _ _ _ Ht), Hs, Hpat. cbn [exceeds orb].
    assert (Hn : (p <? 0) = false) by (apply Z.ltb_ge; lia). rewrite Hn.
    match goal with
    | |- context [checks ?h1 cs] =>
        destruct (IH h1 (sc :: prev)) as [h' Hh']; try done
    end.
    + cbn. intros b0 [= <-]. set_solver.
    + rewrite Hh'. cbn. eauto.
Qed.

(** After a best at step [b], checks at the following steps with values that
    do not improve on it ask to stop exactly from step [b + p + 1] on. *)
Lemma plateau_stops (p b : Z) (mx : bool) (v : M) (vs : list (M * R)) :
  forall (k0 : nat) (h : hook M R),
    patience h = Finite p ->
    maximize h = mx ->
    _best_stopping_criteria h = Some v ->
    _best_step h = Some b ->
    _early_stopped h = (p <? Z.of_nat k0) ->
    Forall (fun x => better mx x.1 v = false) vs ->
    exists h',
      checks h (imap (fun k vr => (vr.1, b + 1 + Z.of_nat (k0 + k), vr.2)) vs)
      = Some (h', imap (fun k _ => (false, p <? Z.of_nat (k0 + k) + 1)) vs).
Proof.
  induction vs as [|[x r] vs IH]; intros k0 h Hpat Hmx Hbest Hstep Hs Hflat.
  - cbn. eauto.
  - apply Forall_cons in Hflat as [Hx Hrest]. cbn in Hx.
    rewrite !imap_cons. cbn [checks fst snd].
    assert (Ht : _check_trigger h x = false).
    { unfold _check_trigger. by rewrite Hbest, Hmx. }
    rewrite (check_no_best _ _ _ _ b Ht Hstep), Hs, Hpat. cbn [exceeds].
    replace (b + 1 + Z.of_nat (k0 + 0) - b) with (Z.of_nat (k0 + 0) + 1) by lia.
    assert (Hor : (p <? Z.of_nat k0) || (p <? Z.of_nat (k0 + 0) + 1)
                  = (p <? Z.of_nat (k0 + 0) + 1)).
    { destruct (Z.ltb_spec p (Z.of_nat k0)), (Z.ltb_spec p (Z.of_nat (k0 + 0) + 1));
        cbn; try reflexivity; lia. }
    rewrite Hor.
    rewrite (imap_ext (_ ∘ S) (fun k vr => (vr.1, b + 1 + Z.of_nat (S k0 + k), vr.2)))
      by (intros k y _; cbn; repeat f_equal; lia).
    rewrite (imap_ext (_ ∘ S) (fun k _ => (false, p <? Z.of_nat (S k0 + k) + 1)))
      by (intros k y _; cbn; repeat f_equal; lia).
    match goal with
    | |- context [checks ?h1 _] =>
        destruct (IH (S k0) h1) as [h' Hh']; try done
    end.
    + cbn. destruct (Z.ltb_spec p (Z.of_nat (k0 + 0) + 1)), (Z.ltb_spec p (Z.of_nat (S k0)));
        try reflexivity; lia.
    + rewrite Hh'. eauto.
Qed.

(** As long as no check has asked to stop, the hook is still tracking. *)
Lemma checks_tracking (p : Z) (mx : bool) (pre : list (M * Z * R)) :
  forall (h0 h1 : hook M R) (outs : list (bool * bool)),
    patience h0 = Finite p ->
    maximize h0 = mx ->
    _early_stopped h0 = false ->
    checks h0 pre = Some (h1, outs) ->
    Forall (fun o => o.2 = false) outs ->
    patience h1 = Finite p /\ maximize h1 = mx /\ _early_stopped h1 = false.
Proof.
  induction pre as [|[[sc st] rc] pre IH]; intros h0 h1 outs H1 H2 H3 Hrun Houts.
  - cbn in Hrun. by simplify_eq.
  - cbn [checks] in Hrun.
    destruct (check h0 sc st rc) as [[h0' [nb stop]]|] eqn:Ec; [|done].
    destruct (checks h0' pre) as [[h0'' outs']|] eqn:Er; [|done].
    injection Hrun as <- <-. apply Forall_cons in Houts as [Hstop Houts].
    cbn in Hstop. subst stop.
    unfold check in Ec.
    destruct (_check_trigger h0 sc); cbn in Ec.
    + injection Ec as <- _ Hstop.
      eapply IH; [ | | | exact Er | exact Houts]; cbn; done.
    + destruct (_best_step h0); [|done].
      injection Ec as <- _ Hstop.
      eapply IH; [ | | | exact Er | exact Houts]; cbn; done.
Qed.

End EarlyStopFacts.

(** C10. Right after [reset] (and so on a freshly constructed hook) the
    first call to [check] answers [new_best = True] whatever the metric
    value and the [maximize] flag, because no best value is stored yet; its
    [should_stop] is [True] exactly when the patience is negative. *)
Theorem first_check_is_new_best {M R : Type} `{Metric M}
    (h : EarlyStop.hook M R) (p : EarlyStop.patience_t) (mx : bool)
    (sc : M) (step : Z) (rec : R) :
  (exists h', EarlyStop.check (EarlyStop.reset h) sc step rec
              = Some (h', (true, EarlyStop.exceeds 0 (EarlyStop.patience h)))) /\
  (exists h', EarlyStop.check (EarlyStop.init p mx) sc step rec
              = Some (h', (true, EarlyStop.exceeds 0 p))) /\
  (EarlyStop.exceeds 0 p = true <-> exists z, p = EarlyStop.Finite z /\ z < 0).
Proof.
  split; [|split].
  - destruct (check_fresh (EarlyStop.reset h) sc step rec) as [h' Hh']; eauto.
  - destruct (check_fresh (EarlyStop.init p mx) sc step rec) as [h' Hh']; eauto.
  - destruct p as [z|]; cbn.
    + rewrite Z.ltb_lt. split; [eauto|]. by intros (z' & [= <-] & ?).
    + split; [done|]. by intros (z' & ? & ?).
Qed.

(** C3 as stated fails: with patience 0 and values 5, 4, 10, 9 checked at
    steps 0 to 3, the best value is the one of step 2 and nothing improves
    on it later, yet [check] answers [should_stop = True] at step 1 already
    (and keeps doing so), not first at step 2 + 0 + 1. *)
Lemma plateau_before_best_stops_first :
  ~ EarlyStop.stops_after_patience_of_best.
Proof.
  intros Hc.
  assert (E : exists h' outs,
             EarlyStop.checks (EarlyStop.init (EarlyStop.Finite 0) true)
               Scenario.plateau_then_best = Some (h', outs) /\
             EarlyStop.first_stop Scenario.plateau_then_best outs = Some 1).
  { eexists _, _. split; vm_compute; reflexivity. }
  destruct E as (h' & outs & Hrun & Hfirst).
  specialize (Hc Scenario.num unit _ 0 true
                 [(Scenario.n 5, 0, tt); (Scenario.n 4, 1, tt)]
                 (Scenario.n 10) 2 tt [(Scenario.n 9, tt)] h' outs).
  change ([(Scenario.n 5, 0, tt); (Scenario.n 4, 1, tt)] ++
          (Scenario.n 10, 2, tt) :: EarlyStop.after_step 2 [(Scenario.n 9, tt)])
    with Scenario.plateau_then_best in Hc.
  rewrite Hfirst in Hc.
  assert (Some 1 = Some (2 + 0 + 1)) as [=].
  apply Hc; [lia | | | cbn; lia | exact Hrun].
  - repeat constructor.
  - repeat constructor.
Qed.

(** C3, amended. For a hook with a finite patience [p >= 0]:
    (1) checked from fresh on values each strictly better than all before,
    every check is a new best and none answers [should_stop = True];
    (2) when no check so far has answered [should_stop = True] and [v],
    checked at step [b], is a new best, then with checks at each of the
    steps [b+1], [b+2], ... on values that do not improve on [v], the check
    of step [b + 1 + k] answers [should_stop = True] exactly when [p < k + 1]:
    first at step [b + p + 1], and at every later one. *)
Theorem early_stop_patience {M R : Type} `{Metric M} (p : Z) (mx : bool)
    (cs pre : list (M * Z * R)) (h1 : EarlyStop.hook M R)
    (outs : list (bool * bool)) (v : M) (b : Z) (r : R) (vs : list (M * R)) :
  0 <= p ->
  EarlyStop.improving mx [] (map (fun c => c.1.1) cs) = true ->
  EarlyStop.checks (EarlyStop.init (EarlyStop.Finite p) mx) pre = Some (h1, outs) ->
  Forall (fun o => o.2 = false) outs ->
  EarlyStop._check_trigger h1 v = true ->
  Forall (fun x => EarlyStop.better mx x.1 v = false) vs ->
  (exists h', EarlyStop.checks (EarlyStop.init (EarlyStop.Finite p) mx) cs
              = Some (h', map (fun _ => (true, false)) cs)) /\
  (exists h2, EarlyStop.checks h1 ((v, b, r) :: EarlyStop.after_step b vs)
              = Some (h2, (true, false)
                          :: imap (fun k _ => (false, p <? Z.of_nat k + 1)) vs)).
Proof.
  intros Hp Himp Hpre Houts Hv Hflat. split.
  - eapply improving_never_stops; eauto. cbn. done.
  - destruct (checks_tracking p mx pre (EarlyStop.init (EarlyStop.Finite p) mx)
                h1 outs eq_refl eq_refl eq_refl Hpre Houts)
      as (Hpat & Hmx & Hs).
    cbn [EarlyStop.checks].
    rewrite (check_new_best _ _ _ _ Hv), Hs, Hpat. cbn [EarlyStop.exceeds orb].
    assert (Hn : (p <? 0) = false) by (apply Z.ltb_ge; lia). rewrite Hn.
    match goal with
    | |- context [EarlyStop.checks ?h2 _] =>
        destruct (plateau_stops p b mx v vs 0 h2) as [h' Hh']; try done
    end.
    unfold EarlyStop.after_step. cbn in Hh'. rewrite Hh'. eauto.
Qed.

(** [early_stop_patience] on a run: patience 2, maximizing; 1, 2, 3 is an
    improving sequence; after 5 and 4 at steps 0 and 1 the value 10 at step 2
    is a new best, and four checks at 9 follow: the first to ask for a stop
    is the one of step 5. *)
Lemma early_stop_patience_witness :
  (exists h', EarlyStop.checks (EarlyStop.init (EarlyStop.Finite 2) true)
                [(Scenario.n 1, 0, tt); (Scenario.n 2, 1, tt); (Scenario.n 3, 2, tt)]
              = Some (h', [(true, false); (true, false); (true, false)])) /\
  (exists h2, EarlyStop.checks Scenario.after_five_four
                ((Scenario.n 10, 2, tt)
                   :: EarlyStop.after_step 2
                        [(Scenario.n 9, tt); (Scenario.n 9, tt);
                         (Scenario.n 9, tt); (Scenario.n 9, tt)])
              = Some (h2, [(true, false); (false, false); (false, false);
                           (false, true); (false, true)])).
Proof.
  apply (early_stop_patience (M := Scenario.num) (R := unit) 2 true
           [(Scenario.n 1, 0, tt); (Scenario.n 2, 1, tt); (Scenario.n 3, 2, tt)]
           [(Scenario.n 5, 0, tt); (Scenario.n 4, 1, tt)]
           Scenario.after_five_four [(true, false); (false, false)]
           (Scenario.n 10) 2 tt
           [(Scenario.n 9, tt); (Scenario.n 9, tt);
            (Scenario.n 9, tt); (Scenario.n 9, tt)]).
  - lia.
  - vm_compute. reflexivity.
  - vm_compute. reflexivity.
  - repeat constructor.
  - vm_compute. reflexivity.
  - repeat constructor.
Defined.

(** ** Frame properties of the training loop *)

Section Keeps.

Import Train.
Context {M R : Type} `{Metric M}.
Variable entry : string -> R -> option M.

(** [keeps P c]: however [c] ends, the state it leaves is related by [P] to
    the one it started in. *)
Definition keeps {A} (P : relation (tl M R)) (c : comp (tl M R) A) : Prop :=
  forall s, P s (c s).2.

Variable P : relation (tl M R).
Context `{!PreOrder P}.

Lemma keeps_ret {A} (a : A) : keeps P (ret a).
Proof. intros s. reflexivity. Qed.

Lemma keeps_raise {A} e : keeps P (@raise _ A e).
Proof. intros s. reflexivity. Qed.

Lemma keeps_lift {A} (r : res A) : keeps P (lift r).
Proof. intros s. reflexivity. Qed.

Lemma keeps_get : keeps P get.
Proof. intros s. reflexivity. Qed.

Lemma keeps_bind {A B} (c : comp (tl M R) A) (k : A -> comp (tl M R) B) :
  keeps P c -> (forall a, keeps P (k a)) -> keeps P (bind c k).
Proof.
  intros Hc Hk s. unfold bind. specialize (Hc s).
  destruct (c s) as [[a|e] s1]; cbn in *; [|done].
  etransitivity; [exact Hc|]. apply Hk.
Qed.

Lemma keeps_try_except {A} (c : comp (tl M R) A) h :
  keeps P c -> (forall e k, h e = Some k -> keeps P k) ->
  keeps P (try_except c h).
Proof.
  intros Hc Hh s. unfold try_except. specialize (Hc s).
  destruct (c s) as [[a|e] s1]; cbn in *; [done|].
  destruct (h e) as [k|] eqn:E; [|done].
  etransitivity; [exact Hc|]. by eapply Hh.
Qed.

Lemma keeps_pymod a b : keeps P (pymod a b).
Proof. unfold pymod. destruct (b =? 0); [apply keeps_raise | apply keeps_ret]. Qed.

Lemma keeps_cfg_get k : keeps P (cfg_get k).
Proof. intros s. unfold cfg_get. destruct (cfg_lookup _ _); reflexivity. Qed.

Lemma keeps_cfg_get_default k d : keeps P (cfg_get_default k d).
Proof. intros s. reflexivity. Qed.

Lemma keeps_latest : keeps P latest.
Proof. intros s. unfold latest. destruct (last _); reflexivity. Qed.

Lemma keeps_require {A} k (o : option A) : keeps P (require k o).
Proof. destruct o; [apply keeps_ret | apply keeps_raise]. Qed.

(** One step of a frame proof: split a [bind], close a leaf, or case on
    what the computation branches on. *)
Ltac keeps_step :=
  lazymatch goal with
  | |- keeps _ (bind _ _) => apply keeps_bind; [|intros ?]
  | |- keeps _ (ret _) => apply keeps_ret
  | |- keeps _ (raise _) => apply keeps_raise
  | |- keeps _ (lift _) => apply keeps_lift
  | |- keeps _ get => apply keeps_get
  | |- keeps _ (pymod _ _) => apply keeps_pymod
  | |- keeps _ (cfg_get _) => apply keeps_cfg_get
  | |- keeps _ (cfg_get_default _ _) => apply keeps_cfg_get_default
  | |- keeps _ latest => apply keeps_latest
  | |- keeps _ (require _ _) => apply keeps_require
  | |- keeps _ (match ?x with _ => _ end) => destruct x
  end.

Lemma keeps_cfg_flag k : keeps P (cfg_flag k).
Proof. unfold cfg_flag. repeat keeps_step. Qed.

Lemma keeps_cfg_int k : keeps P (cfg_int k).
Proof. unfold cfg_int. repeat keeps_step. Qed.

Lemma keeps_cfg_bound k : keeps P (cfg_bound k).
Proof. unfold cfg_bound. repeat keeps_step. Qed.

Lemma keeps_cfg_metric k : keeps P (cfg_metric k).
Proof. unfold cfg_metric. repeat keeps_step. Qed.

(** The changes of state [P] has to put up with. *)
Hypothesis P_event :
  forall e s, (forall i c, e <> EGetUpdater i c) -> P s (add_event e s).
Hypothesis P_history : forall f s, P s (set_history f s).
Hypothesis P_outcome : forall t r s, P s (set_outcome t r s).
Hypothesis P_criteria : forall n mx s, P s (set_criteria n mx s).
Hypothesis P_yield : forall v s, P s (add_yield v s).

Lemma keeps_emit e : (forall i c, e <> EGetUpdater i c) -> keeps P (emit e).
Proof. intros He s. by apply P_event. Qed.

Lemma keeps_record f : keeps P (record f).
Proof.
  unfold record. apply keeps_bind; [apply keeps_latest|]. intros _ s. apply P_history.
Qed.

Lemma keeps_modify (f : tl M R -> tl M R) :
  (forall s, P s (f s)) -> keeps P (modify f).
Proof. intros Hf s. apply Hf. Qed.

Ltac keeps_more :=
  first
    [ keeps_step
    | apply keeps_cfg_flag | apply keeps_cfg_int | apply keeps_cfg_bound
    | apply keeps_cfg_metric | apply keeps_record
    | apply keeps_emit; intros ? ?; discriminate
    | apply keeps_modify; intros ?;
      first [ apply P_yield | apply P_outcome | apply P_criteria
            | apply P_history ] ].

Lemma keeps_yield_value ss : keeps P (yield_value ss).
Proof. unfold yield_value, _build_return_value. repeat keeps_more. Qed.

Lemma keeps_run_hooks step hs : forall i, keeps P (run_hooks step i hs).
Proof.
  induction hs as [|h hs IH]; intros i; cbn [run_hooks].
  - apply keeps_ret.
  - repeat keeps_more; apply IH.
Qed.

Lemma keeps_for_each_hook f hs :
  (forall i j c, f i <> EGetUpdater j c) ->
  forall i, keeps P (for_each_hook f i hs).
Proof.
  intros Hf. induction hs as [|h hs IH]; intros i; cbn [for_each_hook].
  - apply keeps_ret.
  - apply keeps_bind; [apply keeps_emit; apply Hf|]. intros _. apply IH.
Qed.

Lemma keeps_evaluate_block ss u es step :
  keeps P (evaluate_block entry ss u es step).
Proof. unfold evaluate_block. repeat keeps_more. Qed.

Lemma keeps_time_remaining ss i : keeps P (time_remaining ss i).
Proof. unfold time_remaining. repeat keeps_more. Qed.

Lemma keeps_read_stopping_criteria u : keeps P (read_stopping_criteria u).
Proof. unfold read_stopping_criteria. repeat keeps_more. Qed.

(** From here on [P] also puts up with changes of the step counters. *)
Hypothesis P_steps : forall g l s, P s (set_steps g l s).

Lemma keeps_stage_pass ss u es : keeps P (stage_pass entry ss u es).
Proof.
  unfold stage_pass.
  repeat first [ keeps_more | apply keeps_yield_value | apply keeps_run_hooks
               | apply keeps_evaluate_block
               | apply keeps_modify; intros ?; apply P_steps ].
Qed.

Lemma keeps_stage_loop ss u fuel : forall es, keeps P (stage_loop entry fuel ss u es).
Proof.
  induction fuel as [|fuel IH]; intros es; cbn [stage_loop].
  - apply keeps_raise.
  - apply keeps_bind; [apply keeps_stage_pass|]. intros [es'|thr why].
    + apply IH.
    + apply keeps_modify. intros s. apply P_outcome.
Qed.

Lemma keeps__run_stage fuel ss u es : keeps P (_run_stage entry fuel ss u es).
Proof.
  unfold _run_stage. apply keeps_bind.
  - apply keeps_modify. intros s. apply P_steps.
  - intros _. apply keeps_stage_loop.
Qed.

Lemma keeps_run_stage fuel ss i u : keeps P (run_stage entry fuel ss i u).
Proof.
  unfold run_stage, stage_setup, timed_stage, stage_cleanup.
  repeat first
    [ apply keeps_time_remaining | apply keeps_read_stopping_criteria
    | apply keeps_for_each_hook; intros ? ? ?; discriminate
    | apply keeps_try_except;
      [| intros e k He; destruct e; simplify_eq ]
    | apply keeps__run_stage
    | keeps_more ].
Qed.

End Keeps.

(** Frame proofs for a relation whose tolerances are hypotheses at hand. *)
Ltac keeps_leaf L :=
  solve [ apply L; first [ assumption | intros ? ?; discriminate
                         | intros ? ? ?; discriminate ] ].

Ltac keeps_auto :=
  repeat first
    [ match goal with |- PreOrder _ => assumption end
    | apply keeps_ret | apply keeps_raise | apply keeps_lift | apply keeps_get
    | apply keeps_pymod | apply keeps_cfg_get | apply keeps_cfg_get_default
    | apply keeps_latest | apply keeps_require
    | apply keeps_cfg_flag | apply keeps_cfg_int | apply keeps_cfg_bound
    | apply keeps_cfg_metric
    | keeps_leaf keeps_record | keeps_leaf keeps_emit
    | keeps_leaf keeps_yield_value | keeps_leaf keeps_run_hooks
    | keeps_leaf keeps_evaluate_block | keeps_leaf keeps_time_remaining
    | keeps_leaf keeps_read_stopping_criteria
    | keeps_leaf keeps_for_each_hook | keeps_leaf keeps_run_stage
    | match goal with
      | |- keeps _ (Train.modify _) =>
          apply keeps_modify; first [assumption | intros ?; solve [auto]]
      end
    | apply keeps_bind; [assumption | | intros ?]
    | apply keeps_bind; [ | intros ?]
    | match goal with
      | |- keeps _ (match ?x with _ => _ end) => destruct x
      end ].

(** ** The stage loop *)

Section StageFacts.

Import Train.
Context {M R : Type} `{Metric M}.
Variable entry : string -> R -> option M.

(** The scope stack and the step counters are as before. *)
Definition steady (s s' : tl M R) : Prop :=
  cfg s' = cfg s /\ local_step s' = local_step s /\
  global_step s' = global_step s.

#[local] Instance steady_preorder : PreOrder steady.
Proof.
  split.
  - by intros s.
  - intros s1 s2 s3 (? & ? & ?) (? & ? & ?). unfold steady. repeat split; congruence.
Qed.

Lemma steady_block {A} (c : comp (tl M R) A) :
  (forall P : relation (tl M R), PreOrder P ->
     (forall e s, (forall i c, e <> EGetUpdater i c) -> P s (add_event e s)) ->
     (forall f s, P s (set_history f s)) ->
     (forall t r s, P s (set_outcome t r s)) ->
     (forall n mx s, P s (set_criteria n mx s)) ->
     (forall v s, P s (add_yield v s)) ->
     keeps P c) ->
  keeps steady c.
Proof. intros Hc. apply Hc; try done. apply _. Qed.

(** [ensures Q c]: [Q] relates the state [c] starts in, what it answers and
    the state it leaves. *)
Definition ensures {A} (Q : tl M R -> res A -> tl M R -> Prop)
    (c : comp (tl M R) A) : Prop :=
  forall s, Q s (c s).1 (c s).2.

Lemma ensures_bind {A B} (P : relation (tl M R))
    (Q : tl M R -> res B -> tl M R -> Prop)
    (c : comp (tl M R) A) (k : A -> comp (tl M R) B) :
  keeps P c ->
  (forall a, ensures Q (k a)) ->
  (forall s s' e, P s s' -> Q s (Raise e) s') ->
  (forall s s1 r s', P s s1 -> Q s1 r s' -> Q s r s') ->
  ensures Q (bind c k).
Proof.
  intros Hc Hk Hraise Hframe s. unfold bind. specialize (Hc s).
  destruct (c s) as [[a|e] s1]; cbn in *.
  - eapply Hframe; [exact Hc|]. apply Hk.
  - by apply Hraise.
Qed.

(** A pass that goes on to the next one has advanced both step counters by
    one and left the scope stack alone. *)
Definition advanced (s : tl M R) (r : res (ctl M R)) (s' : tl M R) : Prop :=
  match r with
  | Ok (Continue _) =>
      cfg s' = cfg s /\ local_step s' = local_step s + 1 /\
      global_step s' = global_step s + 1
  | _ => True
  end.

Lemma pass_advances ss u es : ensures advanced (stage_pass entry ss u es).
Proof.
  assert (Hraise : forall s s' e, steady s s' -> advanced s (Raise e) s') by done.
  assert (Hframe : forall s s1 r s', steady s s1 -> advanced s1 r s' -> advanced s r s').
  { intros s s1 [[es'|]|] s' (? & ? & ?); cbn; try done.
    intros (? & ? & ?). repeat split; congruence. }
  unfold stage_pass.
  repeat first
    [ match goal with
      | |- ensures _ (ret (Break _ _)) => by intros ?
      | |- ensures _ (bind (modify _) (fun _ => ret (Continue _))) =>
          by intros ?
      | |- ensures _ (match ?x with _ => _ end) => destruct x
      | |- keeps steady _ => solve [apply steady_block; intros; keeps_auto]
      end
    | apply (ensures_bind steady); [ | intros ? | exact Hraise | exact Hframe ] ].
Qed.

(** At a step that has reached [max_steps] the pass leaves the loop at
    once: nothing is read but [cfg.max_steps], and the state is untouched. *)
Lemma pass_at_max ss u es (s : tl M R) (n : Z) :
  cfg_lookup (cfg s) "max_steps" = Some (VInt n) ->
  n <= local_step s ->
  stage_pass entry ss u es s
  = (Ok (Break false "Maximum number of steps reached"), s).
Proof.
  intros Hcfg Hle. unfold stage_pass, bind, get, cfg_bound, bind, cfg_get.
  rewrite Hcfg. cbn. assert (Hr : (n <=? local_step s) = true) by (apply Z.leb_le; lia).
  by rewrite Hr.
Qed.

Lemma passes_advance ss u k :
  forall es es' (s s1 : tl M R),
    passes entry k ss u es s = (Ok (Some es'), s1) ->
    cfg s1 = cfg s /\ local_step s1 = local_step s + Z.of_nat k.
Proof.
  induction k as [|k IH]; intros es es' s s1 Hrun.
  - cbn in Hrun. injection Hrun as <- <-. split; [done|lia].
  - cbn [passes] in Hrun. unfold bind in Hrun.
    pose proof (pass_advances ss u es s) as Hadv.
    destruct (stage_pass entry ss u es s) as [[[es1|thr why]|e] s0]; cbn in Hadv; try done.
    destruct Hadv as (Hc & Hl & _). apply IH in Hrun as [Hc' Hl'].
    split; [congruence|lia].
Qed.

Lemma passes_loop ss u k :
  forall es es' (s s1 : tl M R) fuel,
    passes entry k ss u es s = (Ok (Some es'), s1) ->
    stage_loop entry (k + fuel) ss u es s = stage_loop entry fuel ss u es' s1.
Proof.
  induction k as [|k IH]; intros es es' s s1 fuel Hrun.
  - cbn in Hrun. by injection Hrun as <- <-.
  - cbn [passes] in Hrun. cbn [Nat.add stage_loop]. unfold bind in *.
    destruct (stage_pass entry ss u es s) as [[[es1|thr why]|e] s0]; try done.
    by apply IH.
Qed.

End StageFacts.

(** C5. In a stage whose loop gets as far as step [max_steps] -- no earlier
    pass has left it, so in particular no evaluation has crossed the
    threshold -- the loop is left at exactly that step with the max-steps
    reason and [threshold_reached = False]: the pass of step [max_steps]
    stops at the test on the step count, before any evaluation or threshold
    check, and changes nothing. Any fuel above [max_steps] is enough. *)
Theorem max_steps_before_threshold {M R : Type} `{Metric M}
    (entry : string -> R -> option M) (fuel : nat) (ss : Train.session M R)
    (u : Train.updater R) (es es' : EarlyStop.hook M R)
    (s s1 : Train.tl M R) (max_steps : Z) :
  0 <= max_steps ->
  Train.cfg_lookup (Train.cfg s) "max_steps" = Some (Train.VInt max_steps) ->
  Train.passes entry (Z.to_nat max_steps) ss u es
    (Train.set_steps (Train.global_step s) 0 s) = (Train.Ok (Some es'), s1) ->
  (Z.to_nat max_steps < fuel)%nat ->
  Train._run_stage entry fuel ss u es s
  = (Train.Ok tt,
     Train.set_outcome false (Some "Maximum number of steps reached") s1) /\
  Train.local_step s1 = max_steps /\
  Train.stage_pass entry ss u es' s1
  = (Train.Ok (Train.Break false "Maximum number of steps reached"), s1).
Proof.
  intros Hpos Hcfg Hrun Hfuel.
  destruct (passes_advance entry _ _ _ _ _ _ _ Hrun) as [Hc Hl]. cbn in Hc, Hl.
  assert (Hstep : Train.local_step s1 = max_steps) by lia.
  assert (Hlast : Train.stage_pass entry ss u es' s1
                  = (Train.Ok (Train.Break false "Maximum number of steps reached"), s1)).
  { apply (pass_at_max entry _ _ _ _ max_steps); [congruence|lia]. }
  split; [|by split].
  unfold Train._run_stage, Train.bind, Train.modify.
  replace fuel with (Z.to_nat max_steps + S (fuel - Z.to_nat max_steps - 1))%nat by lia.
  rewrite (passes_loop entry _ _ _ _ _ _ _ _ Hrun).
  cbn [Train.stage_loop]. unfold Train.bind. by rewrite Hlast.
Qed.

(** [max_steps_before_threshold] on the stage of the specification's
    example: at most 5 steps, an accuracy that equals the step number and a
    threshold of 9.5, which it would first exceed at step 10. *)
Lemma max_steps_before_threshold_witness :
  Train._run_stage Scenario.entry 6 Scenario.the_session
    (Scenario.climbing None) Scenario.fresh_hook Scenario.stage_start
  = (Train.Ok tt,
     Train.set_outcome false (Some "Maximum number of steps reached")
       Scenario.after_five) /\
  Train.local_step Scenario.after_five = 5 /\
  Train.stage_pass Scenario.entry Scenario.the_session (Scenario.climbing None)
    Scenario.hook_after_five Scenario.after_five
  = (Train.Ok (Train.Break false "Maximum number of steps reached"),
     Scenario.after_five).
Proof.
  apply (max_steps_before_threshold Scenario.entry 6 Scenario.the_session
           (Scenario.climbing None) Scenario.fresh_hook
           Scenario.hook_after_five Scenario.stage_start Scenario.after_five 5).
  - lia.
  - vm_compute. reflexivity.
  - vm_compute. reflexivity.
  - lia.
Defined.

(** C9. [training_loop(exp_name, start_time)] does not pass its arguments
    on: it runs the generator [stepped_training_loop()] with the defaults
    (the loop is [TrainingLoop('', None)], so the name is the one of [cfg]
    and the start time is read from the clock), and answers the last value
    yielded. Hence its result is that of [training_loop()]. *)
Theorem training_loop_ignores_arguments {M R : Type} `{Metric M}
    (entry : string -> R -> option M) (fuel : nat) (w : Train.world M R)
    (stages : list (Train.layer M)) (stack : Train.config_stack M)
    (exp_name : string) (start_time : option Z) :
  Train.training_loop entry fuel w stages stack exp_name start_time
  = Train.training_loop entry fuel w stages stack "" None /\
  Train.training_loop entry fuel w stages stack exp_name start_time
  = (let r := Train.run entry fuel w stages
                (Train.TrainingLoop w "" None None) (Train.fresh stack) in
     (match r.1 with
      | Train.Ok _ =>
          match last (Train.yielded r.2) with
          | Some v => Train.Ok v
          | None => Train.Raise Train.IndexError
          end
      | Train.Raise e => Train.Raise e
      end, Train.cfg r.2)).
Proof.
  split; [reflexivity|].
  unfold Train.training_loop, Train.stepped_training_loop. cbn zeta.
  destruct (Train.run _ _ _ _ _ _) as [[[]|e] s]; cbn; [|done].
  by destruct (last _).
Qed.

(** The generator itself does use the name it is given: on the example
    machine the experiment directory of the last value yielded follows it,
    while [training_loop] called with the same name reports the directory of
    the default name. *)
Lemma stepped_training_loop_uses_exp_name :
  (Train.snap_exp_dir <$>
     last (Train.yielded
             (Train.stepped_training_loop Scenario.entry 6
                (Scenario.machine None) Scenario.two_stages [Scenario.base]
                "a" None).2))
  = Some "/experiments/a" /\
  (match (Train.training_loop Scenario.entry 6 (Scenario.machine None)
            Scenario.two_stages [Scenario.base] "a" None).1 with
   | Train.Ok v => Some (Train.snap_exp_dir v)
   | Train.Raise _ => None
   end) = Some "/experiments/exp".
Proof. split; vm_compute; reflexivity. Qed.

(** ** The curriculum *)

Section CurriculumFacts.

Import Train.
Context {M R : Type} `{Metric M}.
Variable entry : string -> R -> option M.

Lemma cfg_freeze_lookup (stack : config_stack M) (k : string) :
  cfg_freeze stack !! k = cfg_lookup stack k.
Proof.
  induction stack as [|l stack IH]; [done|].
  change (cfg_freeze (l :: stack)) with (l ∪ cfg_freeze stack).
  cbn [cfg_lookup]. rewrite lookup_union, IH.
  by destruct (l !! k), (cfg_lookup stack k).
Qed.

Lemma overlay_lookup (over base : layer M) (k : string) :
  overlay over base !! k
  = match over !! k with Some v => Some v | None => base !! k end.
Proof.
  unfold overlay. rewrite lookup_union.
  destruct (over !! k), (base !! k); done.
Qed.

(** The scope stack is as before and no updater has been built. *)
Definition quiet (s s' : tl M R) : Prop :=
  cfg s' = cfg s /\ updaters (trace s') = updaters (trace s).

#[local] Instance quiet_preorder : PreOrder quiet.
Proof.
  split.
  - by intros s.
  - intros s1 s2 s3 [? ?] [? ?]. split; congruence.
Qed.

Lemma quiet_block {A} (c : comp (tl M R) A) :
  (forall P : relation (tl M R), PreOrder P ->
     (forall e s, (forall i c, e <> EGetUpdater i c) -> P s (add_event e s)) ->
     (forall f s, P s (set_history f s)) ->
     (forall t r s, P s (set_outcome t r s)) ->
     (forall n mx s, P s (set_criteria n mx s)) ->
     (forall v s, P s (add_yield v s)) ->
     (forall g l s, P s (set_steps g l s)) ->
     (forall e s, P s (set_env e s)) ->
     keeps P c) ->
  keeps quiet c.
Proof.
  intros Hc. apply Hc; try done; [apply _|].
  intros e s He. split; [done|]. cbn. unfold updaters. rewrite omap_app. cbn.
  destruct e; try by rewrite app_nil_r. exfalso. by eapply He.
Qed.

(** The scope stack is as before and the updater of stage [i] has been
    built under the config in effect at the start -- unless an exception
    came first. *)
Definition built {A} (i : nat) (s : tl M R) (r : res A) (s' : tl M R) : Prop :=
  cfg s' = cfg s /\
  ((exists e, r = Raise e) /\ updaters (trace s') = updaters (trace s) \/
   updaters (trace s') = updaters (trace s) ++ [(i, cfg_freeze (cfg s))]).

Lemma built_bind {A B} i (c : comp (tl M R) A) (k : A -> comp (tl M R) B) :
  keeps quiet c -> (forall a, ensures (built i) (k a)) ->
  ensures (built i) (bind c k).
Proof.
  intros Hc Hk s. unfold bind. destruct (Hc s) as [Hc1 Hc2].
  destruct (c s) as [[a|e] s1]; cbn in *.
  - destruct (Hk a s1) as [Hk1 Hk2]. split; [congruence|].
    rewrite Hc1, Hc2 in Hk2. done.
  - split; [done|]. left. eauto.
Qed.

Lemma built_emit {B} i (rest : tl M R -> comp (tl M R) B) :
  (forall s, keeps quiet (rest s)) ->
  ensures (built i)
    (bind get (fun s =>
       bind (emit (EGetUpdater i (cfg_freeze (cfg s)))) (fun _ => rest s))).
Proof.
  intros Hq s0. unfold bind, get, emit, modify. cbn.
  destruct (Hq s0 (add_event (EGetUpdater i (cfg_freeze (cfg s0))) s0))
    as [Hq1 Hq2].
  destruct (rest s0 _) as [r s1]. cbn in *.
  split; [exact Hq1|]. right. rewrite Hq2. unfold updaters.
  by rewrite omap_app.
Qed.

Lemma stage_body_built fuel ss i :
  ensures (built i) (stage_body entry fuel ss i).
Proof.
  unfold stage_body. cbn zeta.
  apply built_bind; [apply quiet_block; intros; keeps_auto|]. intros rebuild.
  apply built_bind; [apply quiet_block; intros; keeps_auto|]. intros ?.
  apply built_emit. intros s. apply quiet_block; intros; keeps_auto.
Qed.

(** Leaving the [with] block pops the stage's layer: the updater was built
    under the own overrides of the stage on top of what was in effect
    before the block. *)
Lemma with_config_built fuel ss i (l : layer M) (s : tl M R) :
  let rs := with_config l (stage_body entry fuel ss i) s in
  cfg rs.2 = cfg s /\
  ((exists e, rs.1 = Raise e) /\ updaters (trace rs.2) = updaters (trace s) \/
   updaters (trace rs.2)
   = updaters (trace s) ++ [(i, overlay l (cfg_freeze (cfg s)))]).
Proof.
  unfold with_config. cbn zeta.
  pose proof (stage_body_built fuel ss i (set_cfg (cfg_enter l) s)) as [Hc Hu].
  destruct (stage_body entry fuel ss i (set_cfg (cfg_enter l) s)) as [r s1].
  cbn in *. rewrite Hc. split; [done|]. exact Hu.
Qed.

(** The updaters built by the loop over the stages: those of a number of
    leading stages, each under its own overrides on top of the config in
    effect before the loop; and the scope stack is as before. *)
Definition ran (i0 : nat) (stages : list (layer M)) (s s' : tl M R) : Prop :=
  cfg s' = cfg s /\
  exists k, updaters (trace s')
            = updaters (trace s)
              ++ imap (fun j l => ((i0 + j)%nat, overlay l (cfg_freeze (cfg s))))
                      (take k stages).

Lemma run_stages_ran fuel ss stages :
  forall i0, keeps (ran i0 stages) (run_stages entry fuel ss i0 stages).
Proof.
  induction stages as [|l rest IH]; intros i0 s.
  - cbn. split; [done|]. exists 0%nat. by rewrite app_nil_r.
  - assert (Hnone : forall s1 : tl M R, quiet s s1 -> ran i0 (l :: rest) s s1).
    { intros s1 [Hc Hu]. split; [done|]. exists 0%nat. cbn. by rewrite app_nil_r. }
    cbn [run_stages]. unfold bind at 1.
    assert (Ht : keeps quiet (time_remaining ss i0))
      by (apply quiet_block; intros; keeps_auto).
    specialize (Ht s). destruct (time_remaining ss i0 s) as [[remaining|e] s1];
      cbn in Ht; [|by apply Hnone].
    destruct (match remaining with
              | EarlyStop.Finite t => t <=? 1
              | EarlyStop.Infinity => false
              end); [by apply Hnone|].
    unfold bind at 1.
    match goal with
    | |- context [match ?c s1 with _ => _ end] =>
        assert (Hm : keeps quiet c) by (apply quiet_block; intros; keeps_auto);
        specialize (Hm s1); destruct (c s1) as [[[]|e] s2]; cbn in Hm;
        [|apply Hnone; by etransitivity]
    end.
    unfold bind at 1.
    match goal with
    | |- context [match ?c s2 with _ => _ end] =>
        assert (Hg : keeps quiet c) by (apply quiet_block; intros; keeps_auto);
        specialize (Hg s2); destruct (c s2) as [[?|e] s3]; cbn in Hg;
        [|apply Hnone; by do 2 (etransitivity; [eassumption|])]
    end.
    unfold bind at 1.
    match goal with
    | |- context [match ?c s3 with _ => _ end] =>
        assert (Hg' : keeps quiet c) by (apply quiet_block; intros; keeps_auto);
        specialize (Hg' s3); destruct (c s3) as [[?|e] s4]; cbn in Hg';
        [|apply Hnone; by do 3 (etransitivity; [eassumption|])]
    end.
    assert (Hq : quiet s s4) by (by do 3 (etransitivity; [eassumption|])).
    destruct Hq as [Hqc Hqu].
    unfold bind at 1.
    pose proof (with_config_built fuel ss i0 l s4) as [Hc Hu]. cbn zeta in Hc, Hu.
    destruct (with_config l (stage_body entry fuel ss i0) s4) as [r s5].
    cbn in Hc, Hu. rewrite Hqc, Hqu in Hu. rewrite Hqc in Hc.
    assert (Hone : updaters (trace s5)
                   = updaters (trace s) ++ [(i0, overlay l (cfg_freeze (cfg s)))] ->
                   ran i0 (l :: rest) s s5).
    { intros Hu'. split; [done|]. exists 1%nat. cbn. rewrite Hu'.
      by rewrite Nat.add_0_r. }
    destruct r as [go_on|e]; cbn.
    + destruct Hu as [[[e He] _]|Hu]; [done|].
      destruct go_on; [|by apply Hone].
      destruct (IH (S i0) s5) as [Hc' (k & Hk)].
      split; [congruence|]. exists (S k). rewrite Hk, Hu, Hc. cbn.
      rewrite <- app_assoc. cbn. rewrite Nat.add_0_r. do 2 f_equal.
      apply imap_ext. intros j x _. cbn. f_equal. lia.
    + destruct Hu as [[_ Hu]|Hu]; [|by apply Hone].
      apply Hnone. by split.
Qed.

Lemma _run_ran fuel ss : keeps (ran 0 (curriculum ss)) (_run entry fuel ss).
Proof.
  intros s. unfold _run. unfold bind at 1. unfold modify at 1.
  set (s1 := set_steps 0 (local_step s) s).
  unfold bind at 1.
  pose proof (run_stages_ran fuel ss (curriculum ss) 0%nat s1) as [Hc (k & Hk)].
  destruct (run_stages entry fuel ss 0 (curriculum ss) s1) as [[[]|e] s2];
    cbn in Hc, Hk |- *.
  - match goal with
    | |- ran _ _ _ (?c s2).2 =>
        assert (Hq : keeps quiet c) by (apply quiet_block; intros; keeps_auto);
        destruct (Hq s2) as [Hq1 Hq2]
    end.
    split; [congruence|]. exists k. by rewrite Hq2, Hk.
  - split; [done|]. by exists k.
Qed.

End CurriculumFacts.

(** C4. The updaters that [_run] builds are those of a number of leading
    stages of the curriculum, and the one of stage [i] is built while the
    config in effect is the config in effect before the loop overlaid with
    [curriculum[i]] alone: a key is read from [curriculum[i]] when it is set
    there and from the base otherwise, so no override of another stage is
    seen, its layer having been popped when its stage ended. After [_run]
    the scope stack is as before. *)
Theorem stage_config_is_base_plus_own_overrides {M R : Type} `{Metric M}
    (entry : string -> R -> option M) (fuel : nat) (ss : Train.session M R)
    (s : Train.tl M R) :
  let s' := (Train._run entry fuel ss s).2 in
  let base := Train.cfg_freeze (Train.cfg s) in
  Train.cfg s' = Train.cfg s /\
  (exists k,
     Train.updaters (Train.trace s')
     = Train.updaters (Train.trace s)
       ++ imap (fun i l => (i, Train.overlay l base))
               (take k (Train.curriculum ss))) /\
  (forall (l : Train.layer M) (key : string),
     Train.overlay l base !! key
     = match l !! key with
       | Some v => Some v
       | None => Train.cfg_lookup (Train.cfg s) key
       end).
Proof.
  cbn zeta. destruct (_run_ran entry fuel ss s) as [Hc (k & Hk)].
  split; [exact Hc|]. split.
  - exists k. exact Hk.
  - intros l key. by rewrite overlay_lookup, cfg_freeze_lookup.
Qed.

(** The scenario of the specification: base config with [lr = 0.1] and the
    curriculum [[{T: 2}, {T: 4}]]. Stage 0 runs with [T = 2] and stage 1
    with [T = 4], both with [lr = 0.1]. *)
Lemma two_stage_curriculum_configs :
  map (fun ic => (ic.1, ic.2 !! "T", ic.2 !! "lr"))
      (Train.updaters
         (Train.trace
            (Train.stepped_training_loop Scenario.entry 6
               (Scenario.machine None) Scenario.two_stages [Scenario.base]
               "" None).2))
  = [(0%nat, Some (Train.VInt 2), Some (Train.VNum (Scenario.Rat (1 # 10))));
     (1%nat, Some (Train.VInt 4), Some (Train.VNum (Scenario.Rat (1 # 10))))].
Proof. vm_compute. reflexivity. Qed.

(** ** A user interrupt during a stage *)

Section InterruptFacts.

Import Train.
Context {M R : Type} `{Metric M}.
Variable entry : string -> R -> option M.

(** The state after the calls [f i], [f (i+1)], ... for the hooks. *)
Definition after_events (es : list (event M)) (s : tl M R) : tl M R :=
  foldl (fun s e => add_event e s) s es.

Lemma for_each_hook_run (f : nat -> event M) (hs : list step_hook) :
  forall i (s : tl M R),
    for_each_hook f i hs s
    = (Ok tt, after_events (map f (seq i (length hs))) s).
Proof.
  induction hs as [|h hs IH]; intros i s; [done|].
  cbn [for_each_hook]. unfold bind, emit, modify. by rewrite IH.
Qed.

Lemma after_events_spec (es : list (event M)) :
  forall s : tl M R,
    trace (after_events es s) = trace s ++ es /\
    history (after_events es s) = history s /\
    cfg (after_events es s) = cfg s /\
    reason (after_events es s) = reason s /\
    threshold_reached (after_events es s) = threshold_reached s.
Proof.
  induction es as [|e es IH]; intros s.
  - cbn. by rewrite app_nil_r.
  - change (after_events (e :: es) s) with (after_events es (add_event e s)).
    destruct (IH (add_event e s)) as (-> & -> & -> & -> & ->). cbn.
    by rewrite <- app_assoc.
Qed.

(** What [run_stage] does when [_run_stage] is interrupted by the user. *)
Lemma run_stage_interrupted fuel ss i u es (s s1 s2 : tl M R) d :
  stage_setup ss i u s = (Ok es, s1) ->
  _run_stage entry fuel ss u es s1 = (Raise KeyboardInterrupt, s2) ->
  last (history s2) = Some d ->
  run_stage entry fuel ss i u s
  = (Ok tt,
     after_events (map EEndStage (seq 0 (length (hooks ss))))
       (set_history
          (update_last
             (set_memory (memory_usage (the_world ss) i true
                          - memory_usage (the_world ss) i false)))
          (set_outcome false (Some "User interrupt") s2))).
Proof.
  intros Hsetup Hrun Hlast.
  unfold run_stage. unfold bind at 1. rewrite Hsetup.
  unfold bind at 1. unfold timed_stage, try_except. unfold bind at 1.
  rewrite Hrun. unfold bind at 1. unfold modify at 1. unfold ret at 1.
  unfold stage_cleanup. cbn zeta. unfold bind at 1. unfold record.
  unfold bind at 1. unfold latest at 1. cbn [history set_outcome].
  rewrite Hlast. unfold modify at 1. unfold bind.
  by rewrite for_each_hook_run.
Qed.

(** The scope stack and [threshold_reached] are as before. *)
Definition calm (s s' : tl M R) : Prop :=
  cfg s' = cfg s /\ threshold_reached s' = threshold_reached s.

Lemma calm_block {A} (c : comp (tl M R) A) :
  (forall P : relation (tl M R), PreOrder P ->
     (forall e s, (forall i c, e <> EGetUpdater i c) -> P s (add_event e s)) ->
     (forall f s, P s (set_history f s)) ->
     keeps P c) ->
  keeps calm c.
Proof.
  intros Hc. apply Hc; try done. split.
  - by intros s.
  - intros s1 s2 s3 [? ?] [? ?]. split; congruence.
Qed.

(** How a computation relates to whether the curriculum goes on: when it
    answers [go_on] with [threshold_reached] false, [go_on] is the truth
    value of [cfg.power_through]. *)
Definition decides (s : tl M R) (r : res bool) (s' : tl M R) : Prop :=
  forall go_on, r = Ok go_on -> threshold_reached s' = false ->
  exists v, cfg_lookup (cfg s') "power_through" = Some v /\ go_on = truthy v.

Lemma ensures_get {A} (Q : tl M R -> res A -> tl M R -> Prop)
    (k : tl M R -> comp (tl M R) A) :
  (forall s, Q s (k s s).1 (k s s).2) -> ensures Q (bind get k).
Proof. intros Hk s. unfold bind, get. apply Hk. Qed.

Lemma stage_body_decides fuel ss i : ensures decides (stage_body entry fuel ss i).
Proof.
  unfold stage_body. cbn zeta.
  do 7 (apply (ensures_bind (fun _ _ => True));
        [by intros ? | intros ? | by intros ? ? ? ? ? | by intros ? ? ? ? ? ?]).
  apply ensures_get. intros s0. cbn beta.
  set (reached := threshold_reached s0).
  set (Q := fun (s : tl M R) (r : res bool) (s' : tl M R) =>
              calm s s' /\
              forall go_on, r = Ok go_on -> reached = false ->
              exists v, cfg_lookup (cfg s) "power_through" = Some v /\
                        go_on = truthy v).
  assert (Hraise : forall s s' e, calm s s' -> Q s (Raise e) s') by (by split).
  assert (Hframe : forall s s1 r s', calm s s1 -> Q s1 r s' -> Q s r s').
  { intros s s1 r s' [Hc1 Ht1] [[Hc2 Ht2] Hgo]. split; [split; congruence|].
    intros go_on Hr Hf. destruct (Hgo go_on Hr Hf) as (v & Hv & ->).
    exists v. by rewrite <- Hc1. }
  match goal with
  | |- decides s0 (?rest s0).1 (?rest s0).2 =>
      assert (HQ : ensures Q rest)
  end.
  { repeat first
      [ match goal with
        | |- keeps calm _ => solve [apply calm_block; intros; keeps_auto]
        | |- ensures Q (bind (if reached then _ else _) _) => fail 2
        end
      | apply (ensures_bind calm); [ | intros ? | exact Hraise | exact Hframe ] ].
    intros s. unfold bind, cfg_flag, bind, cfg_get, ret.
    destruct reached eqn:Er; cbn.
    - split; [done|]. by intros.
    - destruct (cfg_lookup (cfg s) "power_through") as [v|] eqn:Ev; cbn.
      + split; [done|]. intros go_on [= <-] _. eauto.
      + split; [done|]. by intros. }
  destruct (HQ s0) as [[Hc Ht] Hgo].
  intros go_on Hr Hf. destruct (Hgo go_on Hr) as (v & Hv & ->).
  { unfold reached. by rewrite <- Ht. }
  exists v. by rewrite Hc.
Qed.

End InterruptFacts.

(** The run of the two-stage curriculum in which the user interrupts stage 0
    while [cfg.power_through] is set: the run ends normally, and the stage
    after the interrupted one is run as well. *)
Lemma interrupted_run_goes_on :
  let out := Train.run Scenario.entry 6 (Scenario.machine (Some 0%nat))
               Scenario.two_stages Scenario.hooked_loop
               (Train.fresh [Scenario.base]) in
  out.1 = Train.Ok tt /\
  map Train.rec_reason (Train.history out.2)
  = [Some "User interrupt"; Some "Maximum number of steps reached"].
Proof. vm_compute. done. Qed.

(** C6, as stated: the interrupt does not put an end to the curriculum. In
    the run above the record of stage 0 gives the reason "User interrupt"
    and yet a record of stage 1 follows it. *)
Lemma interrupt_does_not_end_curriculum : ~ Train.interrupt_ends_curriculum.
Proof.
  intros Hclaim.
  specialize (Hclaim Scenario.num Scenario.vrecord _ Scenario.entry 6%nat
                (Scenario.machine (Some 0%nat)) Scenario.two_stages
                Scenario.hooked_loop [Scenario.base] 0%nat).
  destruct (Train.history
              (Train.run Scenario.entry 6 (Scenario.machine (Some 0%nat))
                 Scenario.two_stages Scenario.hooked_loop
                 (Train.fresh [Scenario.base])).2) as [|d0 [|d1 [|d2 h]]] eqn:Eh;
    try (vm_compute in Eh; discriminate Eh).
  specialize (Hclaim d0 eq_refl).
  assert (Hreason : Train.rec_reason d0 = Some "User interrupt").
  { vm_compute in Eh. by injection Eh as <- _. }
  specialize (Hclaim Hreason). discriminate Hclaim.
Qed.

(** C6, amended. When [_run_stage] is interrupted by the user
    (KeyboardInterrupt) in the stage that [run_stage] has set up, [run_stage]
    absorbs the interrupt and ends normally; the reason of the stage is
    "User interrupt" and [threshold_reached] is False; the clean-up is done:
    the physical-memory delta is written into the stage's record and the
    [end_stage] of every hook is called, in order, after everything the
    stage did. The interrupt is not raised again. Whether the curriculum goes
    on is decided as for any stage that did not reach its threshold: a stage
    body that ends with [threshold_reached] False answers the truth value of
    [cfg.power_through], so the rest of the curriculum is skipped only when
    that is false. *)
Theorem interrupt_is_recorded_and_absorbed {M R : Type} `{Metric M}
    (entry : string -> R -> option M) (fuel : nat) (ss : Train.session M R)
    (stage_idx : nat) (u : Train.updater R) (early_stop : EarlyStop.hook M R)
    (s s1 s2 : Train.tl M R) (d : Train.stage_record M R) :
  Train.stage_setup ss stage_idx u s = (Train.Ok early_stop, s1) ->
  Train._run_stage entry fuel ss u early_stop s1
  = (Train.Raise Train.KeyboardInterrupt, s2) ->
  last (Train.history s2) = Some d ->
  (exists s3,
     Train.run_stage entry fuel ss stage_idx u s = (Train.Ok tt, s3) /\
     Train.reason s3 = Some "User interrupt" /\
     Train.threshold_reached s3 = false /\
     Train.history s3
     = Train.update_last
         (Train.set_memory
            (Train.memory_usage (Train.the_world ss) stage_idx true
             - Train.memory_usage (Train.the_world ss) stage_idx false))
         (Train.history s2) /\
     Train.trace s3
     = Train.trace s2
       ++ map Train.EEndStage (seq 0 (length (Train.hooks ss))) /\
     Train.cfg s3 = Train.cfg s2) /\
  (forall fuel' i' t go_on t',
     Train.stage_body entry fuel' ss i' t = (Train.Ok go_on, t') ->
     Train.threshold_reached t' = false ->
     exists v, Train.cfg_lookup (Train.cfg t') "power_through" = Some v /\
               go_on = Train.truthy v).
Proof.
  intros Hsetup Hrun Hlast. split.
  - eexists. split; [exact (run_stage_interrupted entry _ _ _ _ _ _ _ _ _
                              Hsetup Hrun Hlast)|].
    match goal with
    | |- context [after_events ?es ?t] =>
        destruct (after_events_spec es t) as (-> & -> & -> & -> & ->)
    end.
    done.
  - intros fuel' i' t go_on t' Hbody Hthr.
    pose proof (stage_body_decides entry fuel' ss i' t) as Hd.
    rewrite Hbody in Hd. by apply Hd.
Qed.

(** [interrupt_is_recorded_and_absorbed] on stage 0 of the two-stage
    curriculum, with one hook, when the user interrupts the update of
    step 2. *)
Lemma interrupt_is_recorded_and_absorbed_witness :
  (exists s3,
     Train.run_stage Scenario.entry 6 Scenario.hooked_session 0
       (Scenario.climbing (Some 2)) Scenario.stage_start = (Train.Ok tt, s3) /\
     Train.reason s3 = Some "User interrupt" /\
     Train.threshold_reached s3 = false /\
     Train.history s3
     = Train.update_last (Train.set_memory (120 - 100))
         (Train.history Scenario.interrupted) /\
     Train.trace s3
     = Train.trace Scenario.interrupted ++ [Train.EEndStage 0%nat] /\
     Train.cfg s3 = Train.cfg Scenario.interrupted) /\
  (forall fuel' i' t go_on t',
     Train.stage_body Scenario.entry fuel' Scenario.hooked_session i' t
     = (Train.Ok go_on, t') ->
     Train.threshold_reached t' = false ->
     exists v, Train.cfg_lookup (Train.cfg t') "power_through" = Some v /\
               go_on = Train.truthy v).
Proof.
  apply (interrupt_is_recorded_and_absorbed Scenario.entry 6
           Scenario.hooked_session 0 (Scenario.climbing (Some 2))
           Scenario.hook_of_setup Scenario.stage_start
           Scenario.setup_done.2 Scenario.interrupted Scenario.open_record).
  - vm_compute. reflexivity.
  - vm_compute. reflexivity.
  - vm_compute. reflexivity.
Defined.

(** ** [generate_all] and [sample_configs] *)

Section HyperFacts.

Import Hyper.
Context {V O : Type} `{EqDecision V}.

Abbreviation dist := (@dist V O).
Abbreviation item := (@item V O).

Lemma sorted_keys_perm (flat : gmap string dist) :
  sorted_keys flat ≡ₚ (map_to_list flat).*1.
Proof. unfold sorted_keys. apply merge_sort_Permutation. Qed.

Lemma sorted_keys_NoDup (flat : gmap string dist) : NoDup (sorted_keys flat).
Proof. rewrite sorted_keys_perm. apply NoDup_fst_map_to_list. Qed.

Lemma elem_of_sorted_keys (flat : gmap string dist) k :
  k ∈ sorted_keys flat <-> is_Some (flat !! k).
Proof.
  rewrite sorted_keys_perm, list_elem_of_fmap. split.
  - intros [[k' d] [-> Hin]]. apply elem_of_map_to_list in Hin. by exists d.
  - intros [d Hd]. exists (k, d). split; [done|]. by apply elem_of_map_to_list.
Qed.

(** The enumerable entries met along [keys], and the entries kept as they
    are. *)
Definition enum_part (flat : gmap string dist) (keys : list string)
  : list (string * list V) :=
  omap (fun k => match flat !! k with
                 | Some (Enumerable vs) => Some (k, vs)
                 | _ => None
                 end) keys.

Definition fixed_part (flat : gmap string dist) (keys : list string)
    (oth : gmap string item) : gmap string item :=
  foldl (fun acc k => match flat !! k with
                      | Some (Fixed o) => <[ k := Kept (Fixed o) ]> acc
                      | _ => acc
                      end) oth keys.

Definition continuous (d : dist) : Prop :=
  match d with Continuous _ => True | _ => False end.

Lemma scan_all_ok (flat : gmap string dist) (keys : list string) :
  forall acc,
    (forall k, k ∈ keys -> exists d, flat !! k = Some d /\ ~ continuous d) ->
    scan_all flat keys acc
    = Ok {| other := fixed_part flat keys (other acc);
            sampled_keys := sampled_keys acc ++ (enum_part flat keys).*1;
            lists := lists acc ++ (enum_part flat keys).*2 |}.
Proof.
  induction keys as [|k keys IH]; intros acc Hk.
  - cbn. rewrite !app_nil_r. by destruct acc.
  - destruct (Hk k) as (d & Hd & Hc); [constructor|].
    cbn [scan_all]. rewrite Hd.
    destruct d as [vs|rvs|o]; [| by destruct Hc |].
    + rewrite IH by (intros; apply Hk; set_solver).
      unfold enum_part, fixed_part. cbn. rewrite Hd. cbn.
      by rewrite <- !app_assoc.
    + rewrite IH by (intros; apply Hk; set_solver).
      unfold enum_part, fixed_part. cbn. by rewrite Hd.
Qed.

Lemma scan_all_raise (flat : gmap string dist) (keys : list string) :
  forall acc k rvs,
    (forall k, k ∈ keys -> is_Some (flat !! k)) ->
    k ∈ keys -> flat !! k = Some (Continuous rvs) ->
    exists msg, scan_all flat keys acc = Raise msg.
Proof.
  induction keys as [|k0 keys IH]; intros acc k rvs Hall Hin Hk.
  - by apply elem_of_nil in Hin.
  - cbn [scan_all]. destruct (Hall k0) as [d Hd]; [constructor|]. rewrite Hd.
    destruct d as [vs|rvs0|o]; [|eauto|].
    + apply elem_of_cons in Hin. destruct Hin as [Heq|Hin]; [congruence|].
      eapply IH; eauto. intros; apply Hall; set_solver.
    + apply elem_of_cons in Hin. destruct Hin as [Heq|Hin]; [congruence|].
      eapply IH; eauto. intros; apply Hall; set_solver.
Qed.


(** [itertools.product]: its members pick one element of each list. *)
Lemma elem_of_product (ls : list (list V)) :
  forall q, q ∈ product ls <-> Forall2 (fun p l => p ∈ l) q ls.
Proof.
  induction ls as [|l ls IH]; intros q; cbn [product].
  - rewrite list_elem_of_singleton. split; [intros ->; constructor|].
    by intros ->%Forall2_nil_inv_r.
  - rewrite list_elem_of_bind. split.
    + intros (p & Hq & Hp). apply list_elem_of_bind in Hq as (q' & Hq & Hq').
      apply list_elem_of_singleton in Hq as ->. constructor; [done|]. by apply IH.
    + intros Hq. apply Forall2_cons_inv_r in Hq as (p & q' & Hp & Hq' & ->).
      exists p. split; [|done]. apply list_elem_of_bind. exists q'.
      split; [by apply list_elem_of_singleton|]. by apply IH.
Qed.

Lemma length_bind_singleton {A B} (f : A -> B) (l : list A) :
  length (x ← l; [f x]) = length l.
Proof. induction l as [|a l IH]; [done|]. cbn. by rewrite IH. Qed.

Lemma length_product (ls : list (list V)) :
  length (product ls) = foldr Nat.mul 1%nat (length <$> ls).
Proof.
  induction ls as [|l ls IH]; [done|]. cbn [product fmap list_fmap foldr].
  rewrite <- IH. induction l as [|p l IHl]; [done|].
  cbn. rewrite length_app, IHl. f_equal. apply length_bind_singleton.
Qed.

Lemma NoDup_product (ls : list (list V)) :
  Forall NoDup ls -> NoDup (product ls).
Proof.
  induction ls as [|l ls IH]; intros Hnd; cbn [product].
  - apply NoDup_singleton.
  - apply Forall_cons in Hnd as [Hl Hls]. specialize (IH Hls).
    induction Hl as [|p l Hp Hl IHl]; [constructor|].
    cbn. apply NoDup_app. split; [|split; [|done]].
    + clear -IH. induction IH as [|q qs Hq Hqs IHq]; [constructor|].
      cbn. constructor; [|done]. rewrite list_elem_of_bind.
      intros (q' & Hin & Hq'). apply list_elem_of_singleton in Hin.
      by simplify_eq.
    + intros q Hq Hq'. apply list_elem_of_bind in Hq as (q1 & Hq & _).
      apply list_elem_of_singleton in Hq as ->.
      apply list_elem_of_bind in Hq' as (p' & Hq' & Hp').
      apply list_elem_of_bind in Hq' as (q2 & Hq' & _).
      apply list_elem_of_singleton in Hq'. by simplify_eq.
Qed.

Lemma sorted_perm (ltb : V -> V -> bool) (l : list (list V)) :
  sorted ltb l ≡ₚ l.
Proof. unfold sorted. apply merge_sort_Permutation. Qed.

(** [build]: the sampled keys are set, all others are those of [other]. *)
Lemma build_cons (oth : gmap string item) k keys (p : V) pset :
  build oth (k :: keys) (p :: pset) = build (<[ k := Sampled p ]> oth) keys pset.
Proof. done. Qed.

Lemma build_lookup_notin (keys : list string) :
  forall (oth : gmap string item) (pset : list V) k,
    k ∉ keys -> build oth keys pset !! k = oth !! k.
Proof.
  induction keys as [|k0 keys IH]; intros oth pset k Hk; [done|].
  destruct pset as [|p pset]; [done|].
  rewrite build_cons, IH by set_solver. apply lookup_insert_ne. set_solver.
Qed.

Lemma build_lookup_in (keys : list string) :
  forall (oth : gmap string item) (pset : list V) i k p,
    NoDup keys -> keys !! i = Some k -> pset !! i = Some p ->
    build oth keys pset !! k = Some (Sampled p).
Proof.
  induction keys as [|k0 keys IH]; intros oth pset i k p Hnd Hk Hp; [done|].
  destruct pset as [|p0 pset]; [done|]. apply NoDup_cons in Hnd as [Hk0 Hnd].
  rewrite build_cons. destruct i as [|i]; cbn in Hk, Hp.
  - simplify_eq. rewrite build_lookup_notin by done. apply lookup_insert_eq.
  - eapply IH; eauto.
Qed.


Lemma fixed_part_lookup (flat : gmap string dist) (keys : list string) :
  forall (oth : gmap string item) k,
    fixed_part flat keys oth !! k
    = match flat !! k with
      | Some (Fixed o) =>
          if decide (k ∈ keys) then Some (Kept (Fixed o)) else oth !! k
      | _ => oth !! k
      end.
Proof.
  induction keys as [|k0 keys IH]; intros oth k.
  - by destruct (flat !! k) as [[| |o]|].
  - change (fixed_part flat (k0 :: keys) oth)
      with (fixed_part flat keys
              match flat !! k0 with
              | Some (Fixed o) => <[ k0 := Kept (Fixed o) ]> oth
              | _ => oth
              end).
    rewrite IH. destruct (flat !! k) as [[vs|rvs|o]|] eqn:Ek.
    + destruct (flat !! k0) as [[| |o0]|] eqn:Ek0; try done.
      apply lookup_insert_ne. congruence.
    + destruct (flat !! k0) as [[| |o0]|] eqn:Ek0; try done.
      apply lookup_insert_ne. congruence.
    + destruct (decide (k ∈ keys)) as [Hin|Hin].
      * rewrite decide_True; [done|]. by constructor.
      * destruct (decide (k = k0)) as [->|Hne].
        -- rewrite decide_True by constructor. rewrite Ek.
           apply lookup_insert_eq.
        -- rewrite decide_False by (rewrite elem_of_cons; tauto).
           destruct (flat !! k0) as [[| |o0]|] eqn:Ek0; try done.
           by apply lookup_insert_ne.
    + destruct (flat !! k0) as [[| |o0]|] eqn:Ek0; try done.
      apply lookup_insert_ne. congruence.
Qed.

Lemma elem_of_enum_part (flat : gmap string dist) (keys : list string) k vs :
  (k, vs) ∈ enum_part flat keys
  <-> k ∈ keys /\ flat !! k = Some (Enumerable vs).
Proof.
  unfold enum_part. rewrite list_elem_of_omap. split.
  - intros (k' & Hin & Hk). destruct (flat !! k') as [[| |]|] eqn:E; simplify_eq.
    done.
  - intros [Hin Hk]. exists k. by rewrite Hk.
Qed.

Lemma enum_part_keys_sublist (flat : gmap string dist) (keys : list string) :
  (enum_part flat keys).*1 `sublist_of` keys.
Proof.
  induction keys as [|k keys IH]; [done|]. unfold enum_part in *. cbn.
  destruct (flat !! k) as [[vs| |]|]; cbn.
  - by constructor.
  - by apply sublist_cons.
  - by apply sublist_cons.
  - by apply sublist_cons.
Qed.

Lemma enum_part_NoDup (flat : gmap string dist) (keys : list string) :
  NoDup keys -> NoDup (enum_part flat keys).*1.
Proof.
  intros Hnd. exact (sublist_NoDup _ _ Hnd (enum_part_keys_sublist flat keys)).
Qed.

(** The sizes of the enumerable domains of [flat]. *)
Definition domain_sizes (flat : gmap string dist) : list nat :=
  omap (fun kd => match kd.2 with
                  | Enumerable vs => Some (length vs)
                  | _ => None
                  end) (map_to_list flat).

Lemma foldr_mul_perm (l l' : list nat) :
  l ≡ₚ l' -> foldr Nat.mul 1%nat l = foldr Nat.mul 1%nat l'.
Proof. induction 1; cbn; lia. Qed.

Lemma enum_part_sizes (flat : gmap string dist) :
  length <$> (enum_part flat (sorted_keys flat)).*2 ≡ₚ domain_sizes flat.
Proof.
  set (size_at := fun k => match flat !! k with
                           | Some (Enumerable vs) => Some (length vs)
                           | _ => None
                           end).
  assert (Hkeys : forall keys,
             length <$> (enum_part flat keys).*2 = omap size_at keys).
  { induction keys as [|k keys IH]; [done|]. unfold enum_part, size_at in *.
    cbn. destruct (flat !! k) as [[vs| |]|]; cbn; by rewrite ?IH. }
  rewrite Hkeys, sorted_keys_perm. unfold domain_sizes.
  erewrite list_omap_ext; [done|].
  apply Forall2_fmap_l, Forall_Forall2_diag, Forall_forall.
  intros [k d] Hin. apply elem_of_map_to_list in Hin. unfold size_at. cbn.
  by rewrite Hin.
Qed.

(** A config picks one value of every enumerable domain and keeps every
    other entry as it is; it has no further key. *)
Definition chooses (flat : gmap string dist) (c : gmap string item) : Prop :=
  forall k,
    match flat !! k with
    | None => c !! k = None
    | Some (Enumerable vs) => exists v, v ∈ vs /\ c !! k = Some (Sampled v)
    | Some (Continuous _) => False
    | Some (Fixed o) => c !! k = Some (Kept (Fixed o))
    end.

Lemma generate_all_ok (ltb : V -> V -> bool) (flat : gmap string dist) :
  (forall k d, flat !! k = Some d -> ~ continuous d) ->
  generate_all ltb flat
  = Ok (map (build (fixed_part flat (sorted_keys flat) ∅)
                   (enum_part flat (sorted_keys flat)).*1)
            (sorted ltb (product (enum_part flat (sorted_keys flat)).*2))).
Proof.
  intros Hc. unfold generate_all. rewrite scan_all_ok; [done|].
  intros k [d Hd]%elem_of_sorted_keys. eauto.
Qed.

Lemma built_chooses (flat : gmap string dist) (pset : list V) :
  (forall k d, flat !! k = Some d -> ~ continuous d) ->
  Forall2 (fun p l => p ∈ l) pset (enum_part flat (sorted_keys flat)).*2 ->
  chooses flat (build (fixed_part flat (sorted_keys flat) ∅)
                      (enum_part flat (sorted_keys flat)).*1 pset).
Proof.
  intros Hc Hp k.
  pose proof (enum_part_NoDup flat _ (sorted_keys_NoDup flat)) as Hnd.
  destruct (flat !! k) as [[vs|rvs|o]|] eqn:Ek.
  - assert (Hin : (k, vs) ∈ enum_part flat (sorted_keys flat)).
    { apply elem_of_enum_part. split; [|done]. apply elem_of_sorted_keys. eauto. }
    apply list_elem_of_lookup in Hin as [i Hi].
    assert (Hl : (enum_part flat (sorted_keys flat)).*2 !! i = Some vs)
      by (by rewrite list_lookup_fmap, Hi).
    destruct (Forall2_lookup_r _ _ _ _ _ Hp Hl) as (p & Hpi & Hpin).
    exists p. split; [done|]. eapply build_lookup_in; [done| |done].
    by rewrite list_lookup_fmap, Hi.
  - by apply (Hc _ _ Ek).
  - rewrite build_lookup_notin.
    + rewrite fixed_part_lookup, Ek. rewrite decide_True; [done|].
      apply elem_of_sorted_keys. eauto.
    + intros [[k' vs] [Hk Hin]]%list_elem_of_fmap. cbn in Hk. subst k'.
      apply elem_of_enum_part in Hin as [_ Hin]. congruence.
  - rewrite build_lookup_notin.
    + by rewrite fixed_part_lookup, Ek, lookup_empty.
    + intros [[k' vs] [Hk Hin]]%list_elem_of_fmap. cbn in Hk. subst k'.
      apply elem_of_enum_part in Hin as [_ Hin]. congruence.
Qed.


Lemma chooses_built (flat : gmap string dist) (c : gmap string item) :
  chooses flat c ->
  exists pset,
    Forall2 (fun p l => p ∈ l) pset (enum_part flat (sorted_keys flat)).*2 /\
    c = build (fixed_part flat (sorted_keys flat) ∅)
              (enum_part flat (sorted_keys flat)).*1 pset.
Proof.
  intros Hc.
  pose proof (enum_part_NoDup flat _ (sorted_keys_NoDup flat)) as Hnd.
  assert (Hps : exists pset,
             Forall2 (fun p kv => p ∈ kv.2 /\ c !! kv.1 = Some (Sampled p))
                     pset (enum_part flat (sorted_keys flat))).
  { assert (Hall : Forall (fun kv => flat !! kv.1 = Some (Enumerable kv.2))
                          (enum_part flat (sorted_keys flat))).
    { apply Forall_forall. intros [k vs] Hin.
      by apply elem_of_enum_part in Hin as [_ Hin]. }
    clear Hnd. induction Hall as [|[k vs] l Hk _ IH]; [by exists []|].
    destruct IH as [pset Hpset]. specialize (Hc k). cbn in Hk. rewrite Hk in Hc.
    destruct Hc as (v & Hv & Hcv). exists (v :: pset). by constructor. }
  destruct Hps as [pset Hpset]. exists pset. split.
  - apply Forall2_fmap_r. eapply Forall2_impl; [exact Hpset|]. by intros p kv [? _].
  - apply map_eq. intros k. specialize (Hc k).
    destruct (flat !! k) as [[vs|rvs|o]|] eqn:Ek.
    + assert (Hin : (k, vs) ∈ enum_part flat (sorted_keys flat)).
      { apply elem_of_enum_part. split; [|done]. apply elem_of_sorted_keys. eauto. }
      apply list_elem_of_lookup in Hin as [i Hi].
      destruct (Forall2_lookup_r _ _ _ _ _ Hpset Hi) as (p & Hpi & _ & Hcp).
      cbn in Hcp. rewrite Hcp. symmetry. eapply build_lookup_in; [done| |done].
      by rewrite list_lookup_fmap, Hi.
    + done.
    + rewrite build_lookup_notin.
      * rewrite fixed_part_lookup, Ek. rewrite decide_True; [done|].
        apply elem_of_sorted_keys. eauto.
      * intros [[k' vs] [Hk Hin]]%list_elem_of_fmap. cbn in Hk. subst k'.
        apply elem_of_enum_part in Hin as [_ Hin]. congruence.
    + rewrite build_lookup_notin.
      * by rewrite fixed_part_lookup, Ek, lookup_empty.
      * intros [[k' vs] [Hk Hin]]%list_elem_of_fmap. cbn in Hk. subst k'.
        apply elem_of_enum_part in Hin as [_ Hin]. congruence.
Qed.

Lemma build_inj (oth : gmap string item) (keys : list string) (p q : list V) :
  NoDup keys -> length p = length keys -> length q = length keys ->
  build oth keys p = build oth keys q -> p = q.
Proof.
  intros Hnd Hp Hq Heq. apply list_eq. intros i.
  destruct (keys !! i) as [k|] eqn:Ek.
  - destruct (lookup_lt_is_Some_2 p i) as [a Ha];
      [rewrite Hp; by eapply lookup_lt_Some|].
    destruct (lookup_lt_is_Some_2 q i) as [b Hb];
      [rewrite Hq; by eapply lookup_lt_Some|].
    pose proof (build_lookup_in keys oth p i k a Hnd Ek Ha) as H1.
    pose proof (build_lookup_in keys oth q i k b Hnd Ek Hb) as H2.
    rewrite Heq in H1. rewrite Ha, Hb. congruence.
  - apply lookup_ge_None in Ek.
    rewrite (proj2 (lookup_ge_None p i)), (proj2 (lookup_ge_None q i)); [done|lia|lia].
Qed.

(** [fan_out]: every sample gives [n_repeats] configs, in order. *)
Lemma length_mjoin_imap {A B} (N : nat) (l : list A) :
  forall g : nat -> A -> list B,
    (forall i s, length (g i s) = N) ->
    length (mjoin (imap g l)) = (length l * N)%nat.
Proof.
  induction l as [|x l IH]; intros g Hg; [done|].
  cbn. rewrite length_app, Hg, IH; [lia|]. intros i s. apply Hg.
Qed.

Lemma lookup_mjoin_imap {A B} (N : nat) (l : list A) :
  forall (g : nat -> A -> list B) i r s,
    (forall i s, length (g i s) = N) ->
    l !! i = Some s -> (r < N)%nat ->
    mjoin (imap g l) !! (i * N + r)%nat = g i s !! r.
Proof.
  induction l as [|x l IH]; intros g i r s Hg Hi Hr; [done|].
  cbn. destruct i as [|i]; cbn in Hi.
  - simplify_eq. cbn. rewrite lookup_app_l; [done|]. by rewrite Hg.
  - rewrite lookup_app_r by (rewrite Hg; lia). rewrite Hg.
    match goal with
    | |- _ !! ?n = _ => replace n with (i * N + r)%nat by lia
    end.
    apply (IH (g ∘ S) i r s); [|done|done]. intros; apply Hg.
Qed.



Lemma generate_all_ok_inv (ltb : V -> V -> bool) (flat : gmap string dist) cs :
  generate_all ltb flat = Ok cs ->
  forall k d, flat !! k = Some d -> ~ continuous d.
Proof.
  intros Hok k d Hk Hc. destruct d as [|rvs|]; try done.
  destruct (scan_all_raise flat (sorted_keys flat) empty_scan k rvs) as [msg Hm].
  - intros k' Hk'. by apply elem_of_sorted_keys.
  - apply elem_of_sorted_keys. eauto.
  - done.
  - unfold generate_all in Hok. by rewrite Hm in Hok.
Qed.

(** With fixed entries only, both scans keep every entry and sample none. *)
Lemma scan_sample_fixed (rnd : randomness) (flat : gmap string dist) n keys :
  forall acc,
    (forall k, k ∈ keys -> exists o, flat !! k = Some (Fixed o)) ->
    scan_sample rnd flat n keys acc
    = Ok {| other := fixed_part flat keys (other acc);
            sampled_keys := sampled_keys acc; lists := lists acc |}.
Proof.
  induction keys as [|k keys IH]; intros acc Hk.
  - by destruct acc.
  - destruct (Hk k) as [o Ho]; [constructor|]. cbn [scan_sample]. rewrite Ho.
    rewrite IH by (intros; apply Hk; by constructor).
    unfold fixed_part. cbn. by rewrite Ho.
Qed.

Lemma enum_part_fixed (flat : gmap string dist) keys :
  (forall k, k ∈ keys -> exists o, flat !! k = Some (Fixed o)) ->
  enum_part flat keys = [].
Proof.
  induction keys as [|k keys IH]; intros Hk; [done|].
  destruct (Hk k) as [o Ho]; [constructor|]. unfold enum_part in *. cbn.
  rewrite Ho. apply IH. intros; apply Hk; by constructor.
Qed.

Lemma fixed_part_all (flat : gmap string dist) :
  (forall k d, flat !! k = Some d -> exists o, d = Fixed o) ->
  fixed_part flat (sorted_keys flat) ∅ = (fun d => Kept d) <$> flat.
Proof.
  intros Hf. apply map_eq. intros k.
  rewrite fixed_part_lookup, lookup_fmap, lookup_empty.
  destruct (flat !! k) as [d|] eqn:Ek; [|done].
  destruct (Hf _ _ Ek) as [o ->]. cbn.
  rewrite decide_True; [done|]. apply elem_of_sorted_keys. eauto.
Qed.

End HyperFacts.


Lemma generate_all_is_full_product_aux {V O : Type} `{EqDecision V}
    (ltb : V -> V -> bool) (flat : gmap string (@Hyper.dist V O))
    (cs : list (gmap string (@Hyper.item V O))) :
  Hyper.generate_all ltb flat = Hyper.Ok cs ->
  length cs = foldr Nat.mul 1%nat (domain_sizes flat) /\
  (forall c, c ∈ cs <-> chooses flat c).
Proof.
  intros Hok. pose proof (generate_all_ok_inv ltb flat cs Hok) as Hc.
  rewrite (generate_all_ok ltb flat Hc) in Hok. injection Hok as <-. split.
  - rewrite length_map, (Permutation_length (sorted_perm ltb _)), length_product.
    apply foldr_mul_perm, enum_part_sizes.
  - intros c. change map with (@fmap list _). rewrite list_elem_of_fmap. split.
    + intros (pset & -> & Hin). rewrite sorted_perm in Hin.
      apply elem_of_product in Hin. by apply built_chooses.
    + intros Hch. destruct (chooses_built flat c Hch) as (pset & Hp & ->).
      exists pset. split; [done|]. rewrite sorted_perm. by apply elem_of_product.
Qed.

(** When [generate_all] returns, it returns the full Cartesian product: as
    many configs as the product of the sizes of the enumerable domains, and
    exactly the configs that pick one value of each enumerable domain and
    keep every other entry as it is. *)
Theorem generate_all_is_full_product {V O : Type} `{EqDecision V}
    (ltb : V -> V -> bool) (flat : gmap string (@Hyper.dist V O))
    (cs : list (gmap string (@Hyper.item V O))) :
  Hyper.generate_all ltb flat = Hyper.Ok cs ->
  length cs = foldr Nat.mul 1%nat (domain_sizes flat) /\
  (forall c, c ∈ cs <-> chooses flat c).
Proof. apply generate_all_is_full_product_aux. Qed.

(** When the values of every enumerable domain are distinct, the configs
    [generate_all] returns are distinct. *)
Theorem generate_all_no_duplicates {V O : Type} `{EqDecision V}
    (ltb : V -> V -> bool) (flat : gmap string (@Hyper.dist V O))
    (cs : list (gmap string (@Hyper.item V O))) :
  (forall k vs, flat !! k = Some (Hyper.Enumerable vs) -> NoDup vs) ->
  Hyper.generate_all ltb flat = Hyper.Ok cs ->
  NoDup cs.
Proof.
  intros Hnd Hok. pose proof (generate_all_ok_inv ltb flat cs Hok) as Hc.
  rewrite (generate_all_ok ltb flat Hc) in Hok. injection Hok as <-.
  change map with (@fmap list _). apply NoDup_fmap_2_strong.
  - intros p q Hp Hq Heq. rewrite sorted_perm in Hp, Hq.
    apply elem_of_product, Forall2_length in Hp, Hq.
    rewrite length_fmap in Hp, Hq.
    eapply build_inj; [| | |exact Heq].
    + apply enum_part_NoDup, sorted_keys_NoDup.
    + by rewrite length_fmap.
    + by rewrite length_fmap.
  - rewrite sorted_perm. apply NoDup_product, Forall_fmap, Forall_forall.
    intros [k vs] Hin. apply elem_of_enum_part in Hin as [_ Hin]. cbn. eauto.
Qed.

(** What [nested_sample] and [generate_all] return when no entry can be
    sampled (every entry is neither iterable nor a distribution):
    [nested_sample] returns no config at all, whatever the number of samples
    asked for, because [zip] of no list is empty; [generate_all] returns one
    config, the entries as they are. *)
Theorem nothing_to_sample {V O : Type} `{EqDecision V} (ltb : V -> V -> bool)
    (rnd : @Hyper.randomness V O) (flat : gmap string (@Hyper.dist V O))
    (n_samples : Z) :
  (forall k d, flat !! k = Some d -> exists o, d = Hyper.Fixed o) ->
  Hyper.nested_sample ltb rnd flat n_samples = Hyper.Ok [] /\
  Hyper.generate_all ltb flat = Hyper.Ok [(fun d => Hyper.Kept d) <$> flat].
Proof.
  intros Hf.
  assert (Hk : forall k, k ∈ Hyper.sorted_keys flat ->
                         exists o, flat !! k = Some (Hyper.Fixed o)).
  { intros k [d Hd]%elem_of_sorted_keys. destruct (Hf _ _ Hd) as [o ->]. eauto. }
  split.
  - unfold Hyper.nested_sample. by rewrite scan_sample_fixed by done.
  - rewrite generate_all_ok.
    + by rewrite (enum_part_fixed flat _ Hk), (fixed_part_all flat Hf).
    + intros k d Hd. destruct (Hf _ _ Hd) as [o ->]. by intros [].
Qed.

(** The loop of [sample_configs] over the samples: sample [i] gives the
    [n_repeats] consecutive configs number [i * n_repeats + r], each the
    sample with [idx = i], [repeat = r] and a seed of its own. *)
Theorem sample_configs_repeats_each_sample {V O : Type} `{EqDecision V}
    (rnd : @Hyper.randomness V O) (n_repeats : Z)
    (samples : list (gmap string (@Hyper.item V O))) :
  length (Hyper.fan_out rnd n_repeats samples)
  = (length samples * Z.to_nat n_repeats)%nat /\
  (forall i r s,
     samples !! i = Some s -> (r < Z.to_nat n_repeats)%nat ->
     Hyper.fan_out rnd n_repeats samples !! (i * Z.to_nat n_repeats + r)%nat
     = Some (<[ "seed" := Hyper.Int (Hyper.gen_seed rnd i r) ]>
               (<[ "repeat" := Hyper.Int (Z.of_nat r) ]>
                  (<[ "idx" := Hyper.Int (Z.of_nat i) ]> s)))).
Proof.
  unfold Hyper.fan_out. split.
  - apply length_mjoin_imap. intros i s. by rewrite length_map, length_seq.
  - intros i r s Hi Hr.
    rewrite (lookup_mjoin_imap (Z.to_nat n_repeats) samples _ i r s); [|  |done|done].
    + change map with (@fmap list _). rewrite list_lookup_fmap.
      by rewrite lookup_seq_lt.
    + intros i' s'. by rewrite length_map, length_seq.
Qed.

(** Asking [sample_configs] for no sample ([n_samples] is [None] or 0) over
    a mapping of distributions does not give an empty list: the whole grid
    is enumerated, [n1 * ... * nk] samples, each repeated [n_repeats]
    times. *)
Theorem sample_configs_zero_samples_is_full_grid {V O B : Type} `{EqDecision V}
    (ltb : V -> V -> bool) (rnd : @Hyper.randomness V O)
    (flat : gmap string (@Hyper.dist V O)) (base_config : B) (n_repeats : Z)
    (n_samples : option Z) (cs : list (gmap string (@Hyper.item V O))) :
  n_samples = None \/ n_samples = Some 0 ->
  Hyper.sample_configs ltb rnd (Hyper.Dists flat) base_config n_repeats n_samples
  = Hyper.Ok cs ->
  length cs
  = (foldr Nat.mul 1%nat (domain_sizes flat) * Z.to_nat n_repeats)%nat.
Proof.
  intros Hn Hok. unfold Hyper.sample_configs in Hok.
  assert (Hg : Hyper.given n_samples = false) by (by destruct Hn as [-> | ->]).
  rewrite Hg in Hok. cbn [negb] in Hok.
  destruct (Hyper.generate_all ltb flat) as [samples|msg] eqn:Egen; [|done].
  injection Hok as <-.
  destruct (generate_all_is_full_product_aux ltb flat samples Egen) as [Hlen _].
  rewrite <- Hlen. apply length_mjoin_imap.
  intros i s. by rewrite length_map, length_seq.
Qed.

(** With [n_repeats <= 0], [sample_configs] returns an empty list whenever
    it returns. *)
Theorem sample_configs_zero_repeats {V O B : Type} `{EqDecision V}
    (ltb : V -> V -> bool) (rnd : @Hyper.randomness V O)
    (distributions : @Hyper.spec V O) (base_config : B) (n_repeats : Z)
    (n_samples : option Z) (cs : list (gmap string (@Hyper.item V O))) :
  n_repeats <= 0 ->
  Hyper.sample_configs ltb rnd distributions base_config n_repeats n_samples
  = Hyper.Ok cs ->
  cs = [].
Proof.
  intros Hn Hok. unfold Hyper.sample_configs in Hok.
  match type of Hok with
  | match ?x with _ => _ end = _ => destruct x as [samples|msg]; [|done]
  end.
  injection Hok as <-. apply length_zero_iff_nil.
  unfold Hyper.fan_out. rewrite (length_mjoin_imap 0%nat); [lia|].
  intros i s. rewrite length_map, length_seq. lia.
Qed.

(** [generate_all_is_full_product] on a grid of two learning rates and three
    depths, with a fixed optimizer: six configs. *)
Lemma generate_all_is_full_product_witness :
  length Scenario.grid_configs
  = foldr Nat.mul 1%nat (domain_sizes Scenario.grid) /\
  (forall c, c ∈ Scenario.grid_configs <-> chooses Scenario.grid c).
Proof.
  apply (generate_all_is_full_product Z.ltb Scenario.grid Scenario.grid_configs).
  vm_compute. reflexivity.
Defined.

Lemma generate_all_no_duplicates_witness : NoDup Scenario.grid_configs.
Proof.
  apply (generate_all_no_duplicates Z.ltb Scenario.grid Scenario.grid_configs).
  - intros k vs Hk. apply elem_of_map_to_list in Hk. vm_compute in Hk.
    repeat (apply elem_of_cons in Hk; destruct Hk as [Hk|Hk]);
      [try discriminate Hk; injection Hk as _ ->;
       apply (bool_decide_unpack _); vm_compute; reflexivity ..|].
    by apply elem_of_nil in Hk.
  - vm_compute. reflexivity.
Defined.

Lemma nothing_to_sample_witness :
  Hyper.nested_sample Z.ltb Scenario.dice Scenario.fixed_only 3 = Hyper.Ok [] /\
  Hyper.generate_all Z.ltb Scenario.fixed_only
  = Hyper.Ok [(fun d => Hyper.Kept d) <$> Scenario.fixed_only].
Proof.
  apply (nothing_to_sample Z.ltb Scenario.dice Scenario.fixed_only 3).
  intros k d Hk. apply elem_of_map_to_list in Hk. vm_compute in Hk.
  repeat (apply elem_of_cons in Hk; destruct Hk as [Hk|Hk]);
    [injection Hk as _ ->; eauto ..|].
  by apply elem_of_nil in Hk.
Defined.

Lemma sample_configs_zero_samples_is_full_grid_witness :
  length Scenario.grid_twice
  = (foldr Nat.mul 1%nat (domain_sizes Scenario.grid) * Z.to_nat 2)%nat.
Proof.
  apply (sample_configs_zero_samples_is_full_grid Z.ltb Scenario.dice
           Scenario.grid tt 2 (Some 0) Scenario.grid_twice).
  - by right.
  - vm_compute. reflexivity.
Defined.

Lemma sample_configs_zero_repeats_witness :
  @nil (gmap string (@Hyper.item Z string)) = [].
Proof.
  apply (sample_configs_zero_repeats Z.ltb Scenario.dice
           (Hyper.Dists Scenario.grid) tt 0 (Some 4) []).
  - lia.
  - vm_compute. reflexivity.
Defined.

(** ** [ParallelSession] *)

Section ParallelFacts.

Import Parallel.

Variable p : params.
Variable o : outside.

(** A host that [recruit_hosts] can use in step [i]. *)
Definition usable (i : nat) (host : string) : Prop :=
  (host = ":" \/ reachable o i host = true) /\ prepared o i host = true.

Lemma stage_host_scratch host d :
  input_zip (stage_host host d) = input_zip d /\
  input_zip_bk (stage_host host d) = input_zip_bk d /\
  results_dir (stage_host host d) = results_dir d /\
  results_zip (stage_host host d) = results_zip d /\
  is_Some (scratch (stage_host host d) !! host) /\
  (forall h a, scratch d !! h = Some a -> scratch (stage_host host d) !! h = Some a).
Proof.
  unfold stage_host. destruct (scratch d !! host) as [a|] eqn:E; cbn.
  - repeat split; eauto.
  - repeat split; try done.
    + rewrite lookup_insert_eq. eauto.
    + intros h a Ha. rewrite lookup_insert_ne; [done|]. congruence.
Qed.

Lemma recruit_loop_spec i max_procs pool :
  forall found d found' d',
    recruit_loop p o i max_procs pool found d = (found', d') ->
    exists extra,
      found' = found ++ extra /\
      extra `sublist_of` pool /\
      Forall (usable i) extra /\
      (extra <> [] -> (length found' <= max_hosts p)%nat) /\
      (forall m, max_procs = Some m -> extra <> [] ->
                 ((length found' - 1) * ppn p < m)%nat) /\
      input_zip d' = input_zip d /\
      input_zip_bk d' = input_zip_bk d /\
      results_dir d' = results_dir d /\
      results_zip d' = results_zip d /\
      (forall h, h ∈ extra -> is_Some (scratch d' !! h)) /\
      (forall h a, scratch d !! h = Some a -> scratch d' !! h = Some a).
Proof.
  induction pool as [|host pool IH]; intros found d found' d' Hrun.
  - cbn in Hrun. simplify_eq. exists []. rewrite app_nil_r.
    repeat split; try done. intros h Hh. by apply elem_of_nil in Hh.
  - cbn [recruit_loop] in Hrun.
    assert (Hstop : (found', d') = (found, d) ->
              exists extra,
                found' = found ++ extra /\ extra `sublist_of` host :: pool /\
                Forall (usable i) extra /\
                (extra <> [] -> (length found' <= max_hosts p)%nat) /\
                (forall m, max_procs = Some m -> extra <> [] ->
                           ((length found' - 1) * ppn p < m)%nat) /\
                input_zip d' = input_zip d /\
                input_zip_bk d' = input_zip_bk d /\
                results_dir d' = results_dir d /\
                results_zip d' = results_zip d /\
                (forall h, h ∈ extra -> is_Some (scratch d' !! h)) /\
                (forall h a, scratch d !! h = Some a -> scratch d' !! h = Some a)).
    { intros [= -> ->]. exists []. rewrite app_nil_r.
      repeat split; try done.
      - apply sublist_nil_l.
      - intros h Hh. by apply elem_of_nil in Hh. }
    assert (Hskip : recruit_loop p o i max_procs pool found d = (found', d') ->
              exists extra,
                found' = found ++ extra /\ extra `sublist_of` host :: pool /\
                Forall (usable i) extra /\
                (extra <> [] -> (length found' <= max_hosts p)%nat) /\
                (forall m, max_procs = Some m -> extra <> [] ->
                           ((length found' - 1) * ppn p < m)%nat) /\
                input_zip d' = input_zip d /\
                input_zip_bk d' = input_zip_bk d /\
                results_dir d' = results_dir d /\
                results_zip d' = results_zip d /\
                (forall h, h ∈ extra -> is_Some (scratch d' !! h)) /\
                (forall h a, scratch d !! h = Some a -> scratch d' !! h = Some a)).
    { intros Hrec. destruct (IH _ _ _ _ Hrec) as (extra & ? & ? & ?).
      exists extra. split; [done|]. split; [by apply sublist_cons|done]. }
    destruct (max_hosts p <=? length found)%nat eqn:Emax; [by apply Hstop|].
    apply Nat.leb_gt in Emax.
    destruct (match max_procs with
              | Some m => (m <=? length found * ppn p)%nat
              | None => false
              end) eqn:Eprocs; [by apply Hstop|].
    destruct (negb (String.eqb host ":") && negb (reachable o i host)) eqn:Ereach;
      [by apply Hskip|].
    destruct (prepared o i host) eqn:Eprep; [|by apply Hskip].
    destruct (IH _ _ _ _ Hrun)
      as (extra & -> & Hsub & Huse & Hmax & Hprocs & Hi & Hb & Hr & Hz & Hin & Hkeep).
    destruct (stage_host_scratch host d) as (Hi0 & Hb0 & Hr0 & Hz0 & Hin0 & Hkeep0).
    exists (host :: extra). rewrite <- app_assoc. cbn [app].
    split; [done|]. split; [by apply sublist_skip|]. split.
    { constructor; [|done]. split; [|done].
      apply andb_false_iff in Ereach as [Hc|Hc]; apply negb_false_iff in Hc.
      - left. by apply String.eqb_eq.
      - by right. }
    split.
    { intros _. destruct extra as [|h extra].
      - rewrite length_app. cbn. lia.
      - rewrite <- app_assoc in Hmax. apply Hmax. done. }
    split.
    { intros m -> _. destruct extra as [|h extra].
      - rewrite length_app. cbn. apply Nat.leb_gt in Eprocs.
        replace (length found + 1 - 1)%nat with (length found) by lia. done.
      - rewrite <- app_assoc in Hprocs. by apply (Hprocs m). }
    repeat split; try congruence.
    + intros h [->|Hh]%elem_of_cons.
      * destruct Hin0 as [a Ha]. rewrite (Hkeep _ _ Ha). eauto.
      * by apply Hin.
    + intros h a Ha. by apply Hkeep, Hkeep0.
Qed.


(** The number of failed attempts recorded for operation [j]. *)
Definition failures (st : state) (j : nat) : nat :=
  default 0%nat (n_failures st !! j).

Lemma count_failures_spec (remaining : gset nat) (indices : list nat) :
  forall (acc : gmap nat nat * gset nat) j,
    NoDup indices ->
    default 0%nat ((count_failures p remaining indices acc).1 !! j)
    = (if decide (j ∈ indices /\ j ∈ remaining)
       then S (default 0%nat (acc.1 !! j))
       else default 0%nat (acc.1 !! j)) /\
    (j ∈ (count_failures p remaining indices acc).2
     <-> j ∈ acc.2 \/
         (j ∈ indices /\ j ∈ remaining /\
          n_retries p < Z.of_nat (S (default 0%nat (acc.1 !! j))))).
Proof.
  induction indices as [|j0 indices IH]; intros acc j Hnd.
  - cbn. rewrite decide_False by (intros [Hin _]; by apply elem_of_nil in Hin).
    split; [done|]. split; [by left|]. intros [?|[Hin _]]; [done|].
    by apply elem_of_nil in Hin.
  - apply NoDup_cons in Hnd as [Hj0 Hnd].
    change (count_failures p remaining (j0 :: indices) acc)
      with (count_failures p remaining indices
              (if bool_decide (j0 ∈ remaining)
               then let n := S (default 0%nat (acc.1 !! j0)) in
                    (<[ j0 := n ]> acc.1,
                     if n_retries p <? Z.of_nat n then {[ j0 ]} ∪ acc.2 else acc.2)
               else acc)).
    destruct (IH (if bool_decide (j0 ∈ remaining)
                  then let n := S (default 0%nat (acc.1 !! j0)) in
                       (<[ j0 := n ]> acc.1,
                        if n_retries p <? Z.of_nat n then {[ j0 ]} ∪ acc.2 else acc.2)
                  else acc) j Hnd) as [Hf Hd].
    rewrite Hf. clear Hf. split.
    + destruct (decide (j = j0)) as [->|Hne].
      * rewrite (decide_False (P := j0 ∈ indices /\ _)) by tauto.
        case_bool_decide as Hrem.
        -- cbn. rewrite lookup_insert_eq. cbn.
           rewrite decide_True; [done|]. split; [constructor|done].
        -- rewrite decide_False; [done|]. tauto.
      * assert (Hiff : (j ∈ indices /\ j ∈ remaining)
                       <-> (j ∈ j0 :: indices /\ j ∈ remaining))
          by (rewrite elem_of_cons; tauto).
        assert (Hlook : default 0%nat
                          ((if bool_decide (j0 ∈ remaining)
                            then let n := S (default 0%nat (acc.1 !! j0)) in
                                 (<[ j0 := n ]> acc.1,
                                  if n_retries p <? Z.of_nat n
                                  then {[ j0 ]} ∪ acc.2 else acc.2)
                            else acc).1 !! j)
                        = default 0%nat (acc.1 !! j)).
        { case_bool_decide; [|done]. cbn. by rewrite lookup_insert_ne. }
        rewrite Hlook.
        destruct (decide (j ∈ indices /\ j ∈ remaining)) as [Hy|Hn].
        -- rewrite decide_True; [done|]. tauto.
        -- rewrite decide_False; [done|]. tauto.
    + rewrite Hd. clear Hd. destruct (decide (j = j0)) as [->|Hne].
      * case_bool_decide as Hrem.
        -- cbn [fst snd]. rewrite lookup_insert_eq. cbn [default].
           destruct (Z.ltb_spec (n_retries p)
                       (Z.of_nat (S (default 0%nat (acc.1 !! j0))))) as [Hlt|Hge].
           ++ split; [intros _|intros _].
              ** right. split; [constructor|done].
              ** left. apply elem_of_union. left. by apply elem_of_singleton.
           ++ split.
              ** intros [?|(Hin & _)]; [by left|done].
              ** intros [?|(_ & _ & Hlt)]; [by left|lia].
        -- split.
           ++ intros [?|(Hin & _)]; [by left|done].
           ++ intros [?|(_ & ? & _)]; [by left|done].
      * assert (Hlook : default 0%nat
                          ((if bool_decide (j0 ∈ remaining)
                            then let n := S (default 0%nat (acc.1 !! j0)) in
                                 (<[ j0 := n ]> acc.1,
                                  if n_retries p <? Z.of_nat n
                                  then {[ j0 ]} ∪ acc.2 else acc.2)
                            else acc).1 !! j)
                        = default 0%nat (acc.1 !! j)).
        { case_bool_decide; [|done]. cbn. by rewrite lookup_insert_ne. }
        rewrite Hlook.
        assert (Hdead : j ∈ (if bool_decide (j0 ∈ remaining)
                             then let n := S (default 0%nat (acc.1 !! j0)) in
                                  (<[ j0 := n ]> acc.1,
                                   if n_retries p <? Z.of_nat n
                                   then {[ j0 ]} ∪ acc.2 else acc.2)
                             else acc).2 <-> j ∈ acc.2).
        { case_bool_decide; [|done]. cbn. case_match; [|done].
          rewrite elem_of_union, elem_of_singleton. tauto. }
        rewrite Hdead, elem_of_cons. tauto.
Qed.


Lemma step_files i hs indices :
  forall d,
    input_zip (step o i hs indices d) = input_zip d /\
    input_zip_bk (step o i hs indices d) = input_zip_bk d /\
    results_dir (step o i hs indices d) = results_dir d /\
    results_zip (step o i hs indices d) = results_zip d.
Proof.
  unfold step. induction indices as [|j indices IH]; intros d; [done|].
  cbn [foldl]. destruct (completes o i j) as [h|]; [|apply IH].
  case_bool_decide; [|apply IH].
  destruct (IH (set_scratch (alter (fun a => a ∪ {[ j ]}) h) d))
    as (-> & -> & -> & ->). done.
Qed.

Lemma sorted_perm_nat (l : list nat) : sorted l ≡ₚ l.
Proof. unfold sorted. apply merge_sort_Permutation. Qed.

Lemma sorted_Sorted (l : list nat) : Sorted Nat.le (sorted l).
Proof. unfold sorted. apply (Sorted_merge_sort Nat.le). Qed.

(** One pass of the loop, taken apart. *)
Lemma loop_body_inv st indices st' :
  loop_body p o st = Ok (indices, st') ->
  exists hs d1 job,
    recruit_hosts p o (step_idx st) (Some (length (subjobs_remaining st))) (fs st)
    = Ok (hs, d1) /\
    indices = take (ppn p * length hs) (subjobs_remaining st) /\
    results_zip (fs st') = Some job /\
    default ∅ (results_zip (fs st)) ⊆ job /\
    input_zip (fs st') = input_zip (fs st) /\
    input_zip_bk (fs st') = input_zip_bk (fs st) /\
    (n_failures st', dead_jobs st')
    = count_failures p (ready_incomplete_ops (ops p) job) indices
        (n_failures st, dead_jobs st) /\
    subjobs_remaining st'
    = sorted (filter (fun idx => idx ∉ dead_jobs st')
                (elements (ready_incomplete_ops (ops p) job))) /\
    hosts st' = hs /\ step_idx st' = S (step_idx st).
Proof.
  unfold loop_body. intros Hbody.
  destruct (recruit_hosts p o (step_idx st)
              (Some (length (subjobs_remaining st))) (fs st))
    as [[hs d1]|msg|] eqn:Erec; try done.
  pose proof Erec as Erec'. unfold recruit_hosts in Erec'.
  destruct (recruit_loop p o (step_idx st)
              (Some (length (subjobs_remaining st))) (host_pool p) [] (fs st))
    as [found d'] eqn:Eloop.
  destruct (length found <? min_hosts p)%nat; [done|]. injection Erec' as -> ->.
  destruct (recruit_loop_spec _ _ _ _ _ _ _ Eloop)
    as (extra & _ & _ & _ & _ & _ & Hi & Hb & Hr & Hz & _ & _).
  cbn [results_zip checkpoint] in Hbody.
  destruct (count_failures p _ _ _) as [failures' dead'] eqn:Ecount in Hbody.
  injection Hbody as <- <-. cbn [fs n_failures dead_jobs subjobs_remaining hosts
                                  step_idx results_zip input_zip input_zip_bk checkpoint].
  destruct (step_files (step_idx st) hs
              (take (ppn p * length hs) (subjobs_remaining st)) d1)
    as (Hi2 & Hb2 & Hr2 & Hz2).
  eexists hs, d1, _. split; [done|]. split; [done|]. split; [done|].
  split; [rewrite Hz2, Hz; apply union_subseteq_l|].
  split; [congruence|]. split; [congruence|]. split; [by rewrite Ecount|].
  done.
Qed.


(** The retry accounting of [run]: the dead jobs are the operations whose
    failure count exceeds [n_retries]; no count goes beyond
    [n_retries + 1]; no dead job is left among the remaining ones. *)
Definition accounted (st : state) : Prop :=
  (forall j, j ∈ dead_jobs st <-> n_retries p < Z.of_nat (failures st j)) /\
  (forall j, Z.of_nat (failures st j) <= n_retries p + 1) /\
  (forall j, j ∈ subjobs_remaining st -> j ∉ dead_jobs st) /\
  NoDup (subjobs_remaining st).

Lemma accounted_start d : 0 <= n_retries p -> accounted (start p d).
Proof.
  intros Hn. unfold accounted, failures. cbn. repeat split.
  - intros Hj. by apply not_elem_of_empty in Hj.
  - rewrite lookup_empty. cbn. lia.
  - intros j. rewrite lookup_empty. cbn. lia.
  - intros j _. apply not_elem_of_empty.
  - rewrite sorted_perm_nat. apply NoDup_elements.
Qed.

Lemma remaining_after st indices st' job :
  loop_body p o st = Ok (indices, st') ->
  results_zip (fs st') = Some job ->
  forall j, j ∈ subjobs_remaining st'
            <-> j ∈ ops p /\ (j ∉ job) /\ (j ∉ dead_jobs st').
Proof.
  intros Hbody Hjob j.
  destruct (loop_body_inv _ _ _ Hbody)
    as (hs & d1 & job' & _ & _ & Hz & _ & _ & _ & _ & -> & _).
  simplify_eq. rewrite sorted_perm_nat, list_elem_of_filter, elem_of_elements.
  unfold ready_incomplete_ops. rewrite elem_of_difference. tauto.
Qed.

Lemma failures_after st indices st' job :
  NoDup (subjobs_remaining st) ->
  loop_body p o st = Ok (indices, st') ->
  results_zip (fs st') = Some job ->
  forall j,
    failures st' j
    = (if decide (j ∈ indices /\ j ∈ ops p ∖ job)
       then S (failures st j) else failures st j) /\
    (j ∈ dead_jobs st'
     <-> j ∈ dead_jobs st \/
         (j ∈ indices /\ j ∈ ops p ∖ job /\
          n_retries p < Z.of_nat (S (failures st j)))).
Proof.
  intros Hnd Hbody Hjob j.
  destruct (loop_body_inv _ _ _ Hbody)
    as (hs & d1 & job' & _ & -> & Hz & _ & _ & _ & Hcount & _).
  simplify_eq.
  assert (Hnd' : NoDup (take (ppn p * length hs) (subjobs_remaining st))).
  { eapply sublist_NoDup; [exact Hnd|]. apply sublist_take. }
  pose proof (count_failures_spec (ready_incomplete_ops (ops p) job) _
                (n_failures st, dead_jobs st) j Hnd') as Hspec.
  rewrite <- Hcount in Hspec. exact Hspec.
Qed.

Lemma accounted_step st indices st' :
  accounted st -> loop_body p o st = Ok (indices, st') -> accounted st'.
Proof.
  intros (Hdead & Hbound & Hrem & Hnd) Hbody.
  destruct (loop_body_inv _ _ _ Hbody)
    as (hs & d1 & job & _ & Hidx & Hz & _ & _ & _ & _ & Hsub & _).
  pose proof (failures_after _ _ _ _ Hnd Hbody Hz) as Hf.
  assert (Hin : forall j, j ∈ indices -> j ∈ subjobs_remaining st).
  { intros j Hj. rewrite Hidx in Hj. by apply subseteq_take in Hj. }
  repeat split.
  - intros Hj. destruct (Hf j) as [-> Hd]. apply Hd in Hj as [Hj|(Hi & Hr & Hlt)].
    + apply Hdead in Hj. case_decide; lia.
    + rewrite decide_True by done. done.
  - intros Hj. destruct (Hf j) as [Hfj Hd]. apply Hd. rewrite Hfj in Hj.
    case_decide as Hc.
    + right. destruct Hc as [? ?]. done.
    + left. by apply Hdead.
  - intros j. destruct (Hf j) as [-> _]. case_decide as Hc; [|apply Hbound].
    destruct Hc as [Hi _]. specialize (Hrem j (Hin j Hi)).
    rewrite Hdead in Hrem. lia.
  - intros j Hj. apply (remaining_after _ _ _ _ Hbody Hz) in Hj. tauto.
  - rewrite Hsub, sorted_perm_nat. apply NoDup_filter, NoDup_elements.
Qed.

Lemma accounted_run k :
  forall st tr final,
    accounted st -> run_steps k p o st = Ok (tr, final) ->
    Forall accounted tr.*2 /\ accounted final.
Proof.
  induction k as [|k IH]; intros st tr final Hacc Hrun.
  - cbn in Hrun. destruct (subjobs_remaining st); simplify_eq; by split.
  - cbn [run_steps] in Hrun. destruct (subjobs_remaining st) as [|j l] eqn:Erem.
    { simplify_eq. by split. }
    destruct (loop_body p o st) as [[indices st']|msg|] eqn:Ebody; try done.
    destruct (run_steps k p o st') as [[tr' final']|msg|] eqn:Erest; try done.
    injection Hrun as <- <-.
    pose proof (accounted_step _ _ _ Hacc Ebody) as Hacc'.
    destruct (IH _ _ _ Hacc' Erest) as [Htr Hfin]. split; [|done].
    cbn. by constructor.
Qed.


(** The input archive and its back-up are as in [d]. *)
Definition input_as_in (d : files) (st : state) : Prop :=
  input_zip (fs st) = input_zip d /\ input_zip_bk (fs st) = input_zip_bk d.

Lemma run_steps_files k :
  forall st tr final,
    run_steps k p o st = Ok (tr, final) ->
    Forall (input_as_in (fs st)) tr.*2 /\
    input_as_in (fs st) final /\
    default ∅ (results_zip (fs st)) ⊆ default ∅ (results_zip (fs final)).
Proof.
  induction k as [|k IH]; intros st tr final Hrun.
  - cbn in Hrun. destruct (subjobs_remaining st); simplify_eq; by repeat split.
  - cbn [run_steps] in Hrun. destruct (subjobs_remaining st) as [|j l] eqn:Erem.
    { simplify_eq. by repeat split. }
    destruct (loop_body p o st) as [[indices st']|msg|] eqn:Ebody; try done.
    destruct (run_steps k p o st') as [[tr' final']|msg|] eqn:Erest; try done.
    injection Hrun as <- <-.
    destruct (loop_body_inv _ _ _ Ebody)
      as (hs & d1 & job & _ & _ & Hz & Hgrow & Hi & Hb & _).
    destruct (IH _ _ _ Erest) as (Htr & [Hfi Hfb] & Hres).
    unfold input_as_in in *. rewrite Hi, Hb in *. split; [|split; [done|]].
    + cbn. by constructor.
    + rewrite Hz in Hres. cbn in Hres. etrans; [exact Hgrow|exact Hres].
Qed.

End ParallelFacts.

(** The hosts [recruit_hosts] settles on: hosts of the pool, in the order of
    the pool, each of them usable (reachable unless it is the local host,
    and prepared); at least [min_hosts] and at most [max_hosts] of them; and
    no more than are needed for [max_procs] processes. *)
Theorem recruit_hosts_within_bounds (p : Parallel.params) (o : Parallel.outside)
    (i : nat) (max_procs : option nat) (d d' : Parallel.files)
    (hs : list string) :
  Parallel.recruit_hosts p o i max_procs d = Parallel.Ok (hs, d') ->
  hs `sublist_of` Parallel.host_pool p /\
  Forall (usable o i) hs /\
  (Parallel.min_hosts p <= length hs)%nat /\
  (length hs <= Parallel.max_hosts p)%nat /\
  (forall m, max_procs = Some m -> hs <> [] ->
             ((length hs - 1) * Parallel.ppn p < m)%nat).
Proof.
  unfold Parallel.recruit_hosts. intros Hrec.
  destruct (Parallel.recruit_loop p o i max_procs (Parallel.host_pool p) [] d)
    as [found d0] eqn:Eloop.
  destruct (length found <? Parallel.min_hosts p)%nat eqn:Emin; [done|].
  injection Hrec as -> ->. apply Nat.ltb_ge in Emin.
  destruct (recruit_loop_spec _ _ _ _ _ _ _ _ _ Eloop)
    as (extra & Hfound & Hsub & Huse & Hmax & Hprocs & _).
  cbn in Hfound. subst extra. repeat split; try done.
  destruct hs as [|h hs]; [cbn; lia|]. by apply Hmax.
Qed.

(** [recruit_hosts] writes nothing but the scratch directories of hosts:
    every host it settles on has the archive afterwards, and an archive that
    is already on a host is left as it is, so what a host has computed in
    earlier steps survives its being recruited again. *)
Theorem recruit_hosts_stages_without_overwriting (p : Parallel.params)
    (o : Parallel.outside) (i : nat) (max_procs : option nat)
    (d d' : Parallel.files) (hs : list string) :
  Parallel.recruit_hosts p o i max_procs d = Parallel.Ok (hs, d') ->
  Parallel.input_zip d' = Parallel.input_zip d /\
  Parallel.input_zip_bk d' = Parallel.input_zip_bk d /\
  Parallel.results_dir d' = Parallel.results_dir d /\
  Parallel.results_zip d' = Parallel.results_zip d /\
  (forall h, h ∈ hs -> is_Some (Parallel.scratch d' !! h)) /\
  (forall h a, Parallel.scratch d !! h = Some a ->
               Parallel.scratch d' !! h = Some a).
Proof.
  unfold Parallel.recruit_hosts. intros Hrec.
  destruct (Parallel.recruit_loop p o i max_procs (Parallel.host_pool p) [] d)
    as [found d0] eqn:Eloop.
  destruct (length found <? Parallel.min_hosts p)%nat eqn:Emin; [done|].
  injection Hrec as -> ->.
  destruct (recruit_loop_spec _ _ _ _ _ _ _ _ _ Eloop)
    as (extra & Hfound & _ & _ & _ & _ & Hi & Hb & Hr & Hz & Hin & Hkeep).
  cbn in Hfound. subst extra. done.
Qed.

(** The retry accounting of [run], for [n_retries >= 0]: after every step,
    an operation is dead exactly when its failure count exceeds [n_retries];
    no failure count exceeds [n_retries + 1]; and the operations remaining
    for later steps are distinct and none of them is dead. *)
Theorem dead_jobs_are_those_out_of_retries (p : Parallel.params)
    (o : Parallel.outside) (k : nat) (d : Parallel.files)
    (tr : list (list nat * Parallel.state)) (final : Parallel.state) :
  0 <= Parallel.n_retries p ->
  Parallel.run_steps k p o (Parallel.start p d) = Parallel.Ok (tr, final) ->
  Forall (accounted p) tr.*2 /\ accounted p final.
Proof.
  intros Hn Hrun. eapply accounted_run; [|exact Hrun]. by apply accounted_start.
Qed.

(** One pass of the loop of [run]: the indices run are the first of the
    remaining ones; exactly the operations that were run and are still
    incomplete in [results.zip] have one failure more; the operations
    remaining afterwards are those of the job that are neither complete nor
    dead, in increasing order. *)
Theorem pass_counts_failed_attempts (p : Parallel.params) (o : Parallel.outside)
    (st st' : Parallel.state) (indices : list nat) :
  NoDup (Parallel.subjobs_remaining st) ->
  Parallel.loop_body p o st = Parallel.Ok (indices, st') ->
  exists job,
    Parallel.results_zip (Parallel.fs st') = Some job /\
    indices `prefix_of` Parallel.subjobs_remaining st /\
    (forall j, failures st' j
               = if decide (j ∈ indices /\ j ∈ Parallel.ops p ∖ job)
                 then S (failures st j) else failures st j) /\
    (forall j, j ∈ Parallel.subjobs_remaining st'
               <-> j ∈ Parallel.ops p /\ (j ∉ job) /\
                   (j ∉ Parallel.dead_jobs st')) /\
    Sorted Nat.le (Parallel.subjobs_remaining st').
Proof.
  intros Hnd Hbody.
  destruct (loop_body_inv _ _ _ _ _ Hbody)
    as (hs & d1 & job & _ & Hidx & Hz & _ & _ & _ & _ & Hsub & _).
  exists job. split; [done|]. split; [rewrite Hidx; apply prefix_take|].
  split; [|split].
  - intros j. by destruct (failures_after _ _ _ _ _ _ Hnd Hbody Hz j).
  - by apply (remaining_after _ _ _ _ _ _ Hbody).
  - rewrite Hsub. apply sorted_Sorted.
Qed.

(** An operation that is complete in [results.zip] stays complete: after a
    further pass it is not among the remaining operations, and it is not
    dead unless it was before. *)
Theorem completed_operations_stay_completed (p : Parallel.params)
    (o : Parallel.outside) (st st' : Parallel.state) (indices : list nat)
    (job : Parallel.archive) (j : nat) :
  NoDup (Parallel.subjobs_remaining st) ->
  Parallel.loop_body p o st = Parallel.Ok (indices, st') ->
  Parallel.results_zip (Parallel.fs st) = Some job ->
  j ∈ job ->
  (j ∉ Parallel.subjobs_remaining st') /\
  (j ∉ Parallel.dead_jobs st -> j ∉ Parallel.dead_jobs st').
Proof.
  intros Hnd Hbody Hjob Hj.
  destruct (loop_body_inv _ _ _ _ _ Hbody)
    as (hs & d1 & job' & _ & _ & Hz & Hgrow & _).
  rewrite Hjob in Hgrow. cbn in Hgrow.
  assert (Hj' : j ∈ job') by (by apply Hgrow).
  split.
  - intros Hrem. apply (remaining_after _ _ _ _ _ _ Hbody Hz) in Hrem. tauto.
  - intros Hdead Hdead'.
    destruct (failures_after _ _ _ _ _ _ Hnd Hbody Hz j) as [_ Hd].
    apply Hd in Hdead' as [?|(_ & Hin & _)]; [done|].
    apply elem_of_difference in Hin. tauto.
Qed.

(** While the loop of [run] goes on, the input archive and its back-up are
    never written, and [results.zip] only grows. *)
Theorem loop_never_writes_input (p : Parallel.params) (o : Parallel.outside)
    (k : nat) (st final : Parallel.state)
    (tr : list (list nat * Parallel.state)) :
  Parallel.run_steps k p o st = Parallel.Ok (tr, final) ->
  Forall (input_as_in (Parallel.fs st)) tr.*2 /\
  input_as_in (Parallel.fs st) final /\
  default ∅ (Parallel.results_zip (Parallel.fs st))
    ⊆ default ∅ (Parallel.results_zip (Parallel.fs final)).
Proof. apply run_steps_files. Qed.

(** What [run] leaves when it ends normally: nothing is changed on a dry
    run; otherwise the back-up holds the input archive as it was before the
    run, and the input archive is replaced by [results.zip]. *)
Theorem run_backs_up_input_after_the_loop (fuel : nat) (p : Parallel.params)
    (o : Parallel.outside) (d d' : Parallel.files) :
  Parallel.run fuel p o d = Parallel.Ok d' ->
  if Parallel.dry_run p then d' = d
  else Parallel.input_zip_bk d' = Some (Parallel.input_zip d) /\
       Parallel.results_zip d' = Some (Parallel.input_zip d') /\
       default ∅ (Parallel.results_zip d) ⊆ Parallel.input_zip d'.
Proof.
  unfold Parallel.run. intros Hrun. destruct (Parallel.dry_run p); [congruence|].
  destruct (Parallel.run_steps fuel p o (Parallel.start p d))
    as [[tr final]|msg|] eqn:Esteps; try done.
  destruct (Parallel.subjobs_remaining final); [|done].
  destruct (run_steps_files _ _ _ _ _ _ Esteps) as (_ & [Hi Hb] & Hres).
  unfold Parallel.finish in Hrun.
  destruct (Parallel.results_zip (Parallel.fs final)) as [merged|] eqn:Ez; [|done].
  injection Hrun as <-. cbn in *. rewrite Hi. repeat split; try done.
Qed.

(** [recruit_hosts_within_bounds] on the first recruitment of a session of
    three operations on a pool of two single-processor hosts. *)
Lemma recruit_hosts_within_bounds_witness :
  Scenario.first_recruits.1 `sublist_of` Parallel.host_pool Scenario.cluster /\
  Forall (usable Scenario.flaky 0) Scenario.first_recruits.1 /\
  (Parallel.min_hosts Scenario.cluster <= length Scenario.first_recruits.1)%nat /\
  (length Scenario.first_recruits.1 <= Parallel.max_hosts Scenario.cluster)%nat /\
  (forall m, Some 3%nat = Some m -> Scenario.first_recruits.1 <> [] ->
             ((length Scenario.first_recruits.1 - 1)
              * Parallel.ppn Scenario.cluster < m)%nat).
Proof.
  apply (recruit_hosts_within_bounds Scenario.cluster Scenario.flaky 0
           (Some 3%nat) Scenario.new_job Scenario.first_recruits.2
           Scenario.first_recruits.1).
  vm_compute. reflexivity.
Defined.

Lemma recruit_hosts_stages_without_overwriting_witness :
  Parallel.input_zip Scenario.first_recruits.2
  = Parallel.input_zip Scenario.new_job /\
  Parallel.input_zip_bk Scenario.first_recruits.2
  = Parallel.input_zip_bk Scenario.new_job /\
  Parallel.results_dir Scenario.first_recruits.2
  = Parallel.results_dir Scenario.new_job /\
  Parallel.results_zip Scenario.first_recruits.2
  = Parallel.results_zip Scenario.new_job /\
  (forall h, h ∈ Scenario.first_recruits.1 ->
             is_Some (Parallel.scratch Scenario.first_recruits.2 !! h)) /\
  (forall h a, Parallel.scratch Scenario.new_job !! h = Some a ->
               Parallel.scratch Scenario.first_recruits.2 !! h = Some a).
Proof.
  apply (recruit_hosts_stages_without_overwriting Scenario.cluster
           Scenario.flaky 0 (Some 3%nat) Scenario.new_job
           Scenario.first_recruits.2 Scenario.first_recruits.1).
  vm_compute. reflexivity.
Defined.

(** [dead_jobs_are_those_out_of_retries] on the whole session: operation 2
    fails twice and is dead, operation 1 fails once and completes. *)
Lemma dead_jobs_are_those_out_of_retries_witness :
  Forall (accounted Scenario.cluster) Scenario.session_steps.1.*2 /\
  accounted Scenario.cluster Scenario.session_steps.2.
Proof.
  apply (dead_jobs_are_those_out_of_retries Scenario.cluster Scenario.flaky 5
           Scenario.new_job Scenario.session_steps.1 Scenario.session_steps.2).
  - cbn. lia.
  - vm_compute. reflexivity.
Defined.

Lemma pass_counts_failed_attempts_witness :
  exists job,
    Parallel.results_zip (Parallel.fs Scenario.first_pass.2) = Some job /\
    Scenario.first_pass.1
      `prefix_of` Parallel.subjobs_remaining
                    (Parallel.start Scenario.cluster Scenario.new_job) /\
    (forall j, failures Scenario.first_pass.2 j
               = if decide (j ∈ Scenario.first_pass.1 /\
                            j ∈ Parallel.ops Scenario.cluster ∖ job)
                 then S (failures (Parallel.start Scenario.cluster
                                     Scenario.new_job) j)
                 else failures (Parallel.start Scenario.cluster
                                  Scenario.new_job) j) /\
    (forall j, j ∈ Parallel.subjobs_remaining Scenario.first_pass.2
               <-> j ∈ Parallel.ops Scenario.cluster /\ (j ∉ job) /\
                   (j ∉ Parallel.dead_jobs Scenario.first_pass.2)) /\
    Sorted Nat.le (Parallel.subjobs_remaining Scenario.first_pass.2).
Proof.
  apply (pass_counts_failed_attempts Scenario.cluster Scenario.flaky
           (Parallel.start Scenario.cluster Scenario.new_job)
           Scenario.first_pass.2 Scenario.first_pass.1).
  - apply (bool_decide_unpack _). vm_compute. reflexivity.
  - vm_compute. reflexivity.
Defined.

(** [completed_operations_stay_completed] on operation 0, which the first
    pass completes, over the second pass. *)
Lemma completed_operations_stay_completed_witness :
  (0%nat ∉ Parallel.subjobs_remaining Scenario.second_pass.2) /\
  (0%nat ∉ Parallel.dead_jobs Scenario.first_pass.2 ->
   0%nat ∉ Parallel.dead_jobs Scenario.second_pass.2).
Proof.
  apply (completed_operations_stay_completed Scenario.cluster Scenario.flaky
           Scenario.first_pass.2 Scenario.second_pass.2
           Scenario.second_pass.1
           (default ∅ (Parallel.results_zip (Parallel.fs Scenario.first_pass.2)))
           0%nat).
  - apply (bool_decide_unpack _). vm_compute. reflexivity.
  - vm_compute. reflexivity.
  - vm_compute. reflexivity.
  - apply (bool_decide_unpack _). vm_compute. reflexivity.
Defined.

Lemma loop_never_writes_input_witness :
  Forall (input_as_in (Parallel.fs (Parallel.start Scenario.cluster
                                      Scenario.new_job)))
         Scenario.session_steps.1.*2 /\
  input_as_in (Parallel.fs (Parallel.start Scenario.cluster Scenario.new_job))
              Scenario.session_steps.2 /\
  default ∅ (Parallel.results_zip
               (Parallel.fs (Parallel.start Scenario.cluster Scenario.new_job)))
    ⊆ default ∅ (Parallel.results_zip (Parallel.fs Scenario.session_steps.2)).
Proof.
  apply (loop_never_writes_input Scenario.cluster Scenario.flaky 5
           (Parallel.start Scenario.cluster Scenario.new_job)
           Scenario.session_steps.2 Scenario.session_steps.1).
  vm_compute. reflexivity.
Defined.

Lemma run_backs_up_input_after_the_loop_witness :
  Parallel.input_zip_bk Scenario.session_end
  = Some (Parallel.input_zip Scenario.new_job) /\
  Parallel.results_zip Scenario.session_end
  = Some (Parallel.input_zip Scenario.session_end) /\
  default ∅ (Parallel.results_zip Scenario.new_job)
    ⊆ Parallel.input_zip Scenario.session_end.
Proof.
  apply (run_backs_up_input_after_the_loop 5 Scenario.cluster Scenario.flaky
           Scenario.new_job Scenario.session_end).
  vm_compute. reflexivity.
Defined.

(** ** More on [EarlyStopHook] *)

Section EarlyStopMore.

Import EarlyStop.
Context {M R : Type} `{Metric M}.

(** A hook that holds a best value holds the step it was seen at. *)
Definition holds_step (h : hook M R) : Prop :=
  is_Some (_best_stopping_criteria h) -> is_Some (_best_step h).

Lemma check_holds_step (h : hook M R) sc step rec :
  holds_step h ->
  exists h' out, check h sc step rec = Some (h', out) /\ holds_step h' /\
                 patience h' = patience h /\ maximize h' = maximize h.
Proof.
  intros Hh. unfold check. destruct (_check_trigger h sc) eqn:Et; cbn.
  - eexists _, _. split; [done|]. split; [|done]. intros _. cbn. eauto.
  - unfold _check_trigger in Et.
    destruct (_best_stopping_criteria h) as [b|] eqn:Eb; [|done].
    destruct (Hh ltac:(eauto)) as [bs Hbs]. rewrite Hbs.
    eexists _, _. split; [done|]. split; [|done]. intros _. cbn. eauto.
Qed.

Lemma checks_hold_step (cs : list (M * Z * R)) :
  forall h : hook M R,
    holds_step h ->
    exists h' outs, checks h cs = Some (h', outs) /\ length outs = length cs /\
                    patience h' = patience h /\ maximize h' = maximize h.
Proof.
  induction cs as [|[[sc step] rec] cs IH]; intros h Hh.
  - by exists h, [].
  - destruct (check_holds_step h sc step rec Hh) as (h1 & out & Hc & Hh1 & Hp & Hm).
    destruct (IH h1 Hh1) as (h' & outs & Hcs & Hlen & Hp' & Hm').
    exists h', (out :: outs). cbn [checks]. rewrite Hc, Hcs.
    split; [done|]. split; [cbn; by rewrite Hlen|]. split; congruence.
Qed.

(** Once stopped, every later check answers [should_stop = True]. *)
Lemma check_stopped (h h' : hook M R) sc step rec nb st :
  check h sc step rec = Some (h', (nb, st)) ->
  _early_stopped h' = st /\ (_early_stopped h = true -> st = true).
Proof.
  unfold check. intros Hc.
  destruct (_check_trigger h sc); cbn in Hc.
  - injection Hc as <- _ <-. split; [done|]. by intros ->.
  - destruct (_best_step h); [|done]. injection Hc as <- _ <-.
    split; [done|]. by intros ->.
Qed.

Lemma checks_stopped (cs : list (M * Z * R)) :
  forall (h h' : hook M R) outs,
    _early_stopped h = true ->
    checks h cs = Some (h', outs) ->
    Forall (fun o => o.2 = true) outs /\ _early_stopped h' = true.
Proof.
  induction cs as [|[[sc step] rec] cs IH]; intros h h' outs Hs Hrun.
  - cbn in Hrun. by simplify_eq.
  - cbn [checks] in Hrun.
    destruct (check h sc step rec) as [[h1 [nb st]]|] eqn:Ec; [|done].
    destruct (checks h1 cs) as [[h2 outs']|] eqn:Er; [|done].
    injection Hrun as <- <-.
    destruct (check_stopped _ _ _ _ _ _ _ Ec) as [Hs1 Hst].
    specialize (Hst Hs). rewrite Hst in Hs1.
    destruct (IH _ _ _ Hs1 Er) as [Hall Hs']. split; [|done]. by constructor.
Qed.

Lemma checks_sticky (cs : list (M * Z * R)) :
  forall (h h' : hook M R) outs i nb,
    checks h cs = Some (h', outs) ->
    outs !! i = Some (nb, true) ->
    _early_stopped h' = true /\
    forall j nb' st, (i <= j)%nat -> outs !! j = Some (nb', st) -> st = true.
Proof.
  induction cs as [|[[sc step] rec] cs IH]; intros h h' outs i nb Hrun Hi.
  - cbn in Hrun. by simplify_eq.
  - cbn [checks] in Hrun.
    destruct (check h sc step rec) as [[h1 [nb0 st0]]|] eqn:Ec; [|done].
    destruct (checks h1 cs) as [[h2 outs']|] eqn:Er; [|done].
    injection Hrun as <- <-.
    destruct i as [|i]; cbn in Hi.
    + injection Hi as -> ->.
      destruct (check_stopped _ _ _ _ _ _ _ Ec) as [Hs1 _].
      destruct (checks_stopped _ _ _ _ Hs1 Er) as [Hall Hs']. split; [done|].
      intros j nb' st _ Hj. destruct j as [|j]; cbn in Hj; [by simplify_eq|].
      rewrite Forall_lookup in Hall. by apply (Hall _ _ Hj).
    + destruct (IH _ _ _ i nb Er Hi) as [Hs' Hlater]. split; [done|].
      intros j nb' st Hij Hj. destruct j as [|j]; [lia|]. cbn in Hj.
      eapply (Hlater j); [lia|done].
Qed.

(** Checks that are no new best leave the best value, step and record. *)
Lemma checks_keep_best (cs : list (M * Z * R)) :
  forall (h h' : hook M R) outs,
    checks h cs = Some (h', outs) ->
    Forall (fun o => o.1 = false) outs ->
    _best_stopping_criteria h' = _best_stopping_criteria h /\
    _best_step h' = _best_step h /\ _best_record h' = _best_record h.
Proof.
  induction cs as [|[[sc step] rec] cs IH]; intros h h' outs Hrun Hall.
  - cbn in Hrun. by simplify_eq.
  - cbn [checks] in Hrun.
    destruct (check h sc step rec) as [[h1 [nb st]]|] eqn:Ec; [|done].
    destruct (checks h1 cs) as [[h2 outs']|] eqn:Er; [|done].
    injection Hrun as <- <-. apply Forall_cons in Hall as [Hnb Hall].
    cbn in Hnb. subst nb.
    destruct (IH _ _ _ Er Hall) as (-> & -> & ->).
    unfold check in Ec. destruct (_check_trigger h sc); cbn in Ec.
    + congruence.
    + destruct (_best_step h) eqn:Eb; [|done]. injection Ec as <- _. cbn.
      by rewrite ?Eb.
Qed.

Lemma checks_app (cs1 : list (M * Z * R)) :
  forall (h : hook M R) cs2,
    checks h (cs1 ++ cs2)
    = match checks h cs1 with
      | Some (h1, outs1) =>
          match checks h1 cs2 with
          | Some (h2, outs2) => Some (h2, outs1 ++ outs2)
          | None => None
          end
      | None => None
      end.
Proof.
  induction cs1 as [|[[sc step] rec] cs1 IH]; intros h cs2.
  - cbn. by destruct (checks h cs2) as [[? ?]|].
  - cbn [app checks]. destruct (check h sc step rec) as [[h1 out]|]; [|done].
    rewrite IH. destruct (checks h1 cs1) as [[h2 outs1]|]; [|done].
    by destruct (checks h2 cs2) as [[? ?]|].
Qed.

Lemma checks_length (cs : list (M * Z * R)) :
  forall (h h' : hook M R) outs,
    checks h cs = Some (h', outs) -> length outs = length cs.
Proof.
  induction cs as [|[[sc step] rec] cs IH]; intros h h' outs Hrun.
  - cbn in Hrun. by simplify_eq.
  - cbn [checks] in Hrun.
    destruct (check h sc step rec) as [[h1 out]|]; [|done].
    destruct (checks h1 cs) as [[h2 outs']|] eqn:Er; [|done].
    injection Hrun as <- <-. cbn. f_equal. by eapply IH.
Qed.

End EarlyStopMore.

(** A hook used from its construction or from a [reset] never fails: the
    [TypeError] of [step - None] cannot occur, since a best value is never
    stored without its step. Every check is answered, and the patience and
    the direction never change. *)
Theorem check_never_raises {M R : Type} `{Metric M}
    (h : EarlyStop.hook M R) (p : EarlyStop.patience_t) (mx : bool)
    (cs : list (M * Z * R)) :
  (exists h' outs,
     EarlyStop.checks (EarlyStop.reset h) cs = Some (h', outs) /\
     length outs = length cs /\
     EarlyStop.patience h' = EarlyStop.patience h /\
     EarlyStop.maximize h' = EarlyStop.maximize h) /\
  (exists h' outs,
     EarlyStop.checks (EarlyStop.init p mx) cs = Some (h', outs) /\
     length outs = length cs /\
     EarlyStop.patience h' = p /\ EarlyStop.maximize h' = mx).
Proof.
  split.
  - apply (checks_hold_step cs (EarlyStop.reset h)). by intros [? [=]].
  - apply (checks_hold_step cs (EarlyStop.init p mx)). by intros [? [=]].
Qed.

(** [should_stop] is sticky: once a check has answered [should_stop = True],
    every later check of the hook does, whatever the values checked (a new
    best included), until [reset]. *)
Theorem should_stop_is_sticky {M R : Type} `{Metric M}
    (h h' : EarlyStop.hook M R) (cs : list (M * Z * R))
    (outs : list (bool * bool)) (i j : nat) (nb nb' st : bool) :
  EarlyStop.checks h cs = Some (h', outs) ->
  outs !! i = Some (nb, true) ->
  (i <= j)%nat ->
  outs !! j = Some (nb', st) ->
  st = true /\ EarlyStop._early_stopped h' = true /\
  EarlyStop._early_stopped (EarlyStop.reset h') = false.
Proof.
  intros Hrun Hi Hij Hj.
  destruct (checks_sticky _ _ _ _ _ _ Hrun Hi) as [Hs Hlater].
  split; [by eapply Hlater|]. by split.
Qed.

(** What the hook holds as its best ([best]: the record, the stopping
    criteria and the step) is what was passed to the last check that
    answered [new_best = True]. *)
Theorem best_is_the_last_new_best {M R : Type} `{Metric M}
    (h h' : EarlyStop.hook M R) (cs1 cs2 : list (M * Z * R))
    (sc : M) (step : Z) (rec : R) (outs : list (bool * bool)) (stop : bool) :
  EarlyStop.checks h (cs1 ++ (sc, step, rec) :: cs2) = Some (h', outs) ->
  outs !! length cs1 = Some (true, stop) ->
  Forall (fun o => o.1 = false) (drop (S (length cs1)) outs) ->
  EarlyStop._best_stopping_criteria h' = Some sc /\
  EarlyStop._best_step h' = Some step /\
  EarlyStop._best_record h' = Some rec.
Proof.
  intros Hrun Hat Hlater. rewrite checks_app in Hrun.
  destruct (EarlyStop.checks h cs1) as [[h1 outs1]|] eqn:E1; [|done].
  cbn [EarlyStop.checks] in Hrun.
  destruct (EarlyStop.check h1 sc step rec) as [[h2 [nb st]]|] eqn:Ec; [|done].
  destruct (EarlyStop.checks h2 cs2) as [[h3 outs2]|] eqn:E2; [|done].
  injection Hrun as -> <-.
  pose proof (checks_length _ _ _ _ E1) as Hl1.
  rewrite lookup_app_r, Hl1, Nat.sub_diag in Hat by lia.
  injection Hat as -> ->.
  replace (drop (S (length cs1)) (outs1 ++ (true, stop) :: outs2))
    with outs2 in Hlater.
  2: { rewrite <- Hl1, cons_middle, app_assoc.
       rewrite drop_app_length'; [done|]. rewrite length_app. cbn. lia. }
  destruct (checks_keep_best _ _ _ _ E2 Hlater) as (-> & -> & ->).
  unfold EarlyStop.check in Ec.
  destruct (EarlyStop._check_trigger h1 sc); cbn in Ec.
  - by injection Ec as <- _.
  - destruct (EarlyStop._best_step h1); [congruence|done].
Qed.

(** [should_stop_is_sticky] on the checks 5, 4, 10, 9 at steps 0 to 3 with
    patience 0: the check of step 1 asks to stop, and so does the check of
    step 2 although 10 is a new best. *)
Lemma should_stop_is_sticky_witness :
  true = true /\
  EarlyStop._early_stopped
    (default (EarlyStop.init (EarlyStop.Finite 0) true)
       (fst <$> EarlyStop.checks (EarlyStop.init (EarlyStop.Finite 0) true)
                  Scenario.plateau_then_best)) = true /\
  EarlyStop._early_stopped
    (EarlyStop.reset
       (default (EarlyStop.init (EarlyStop.Finite 0) true)
          (fst <$> EarlyStop.checks (EarlyStop.init (EarlyStop.Finite 0) true)
                     Scenario.plateau_then_best))) = false.
Proof.
  apply (should_stop_is_sticky (EarlyStop.init (EarlyStop.Finite 0) true)
           (default (EarlyStop.init (EarlyStop.Finite 0) true)
              (fst <$> EarlyStop.checks (EarlyStop.init (EarlyStop.Finite 0) true)
                         Scenario.plateau_then_best))
           Scenario.plateau_then_best
           [(true, false); (false, true); (true, true); (false, true)]
           1 2 false true true).
  - vm_compute. reflexivity.
  - reflexivity.
  - lia.
  - reflexivity.
Defined.

(** [best_is_the_last_new_best] on the same checks: the best is the 10 of
    step 2. *)
Lemma best_is_the_last_new_best_witness :
  EarlyStop._best_stopping_criteria
    (default (EarlyStop.init (EarlyStop.Finite 0) true)
       (fst <$> EarlyStop.checks (EarlyStop.init (EarlyStop.Finite 0) true)
                  Scenario.plateau_then_best)) = Some (Scenario.n 10) /\
  EarlyStop._best_step
    (default (EarlyStop.init (EarlyStop.Finite 0) true)
       (fst <$> EarlyStop.checks (EarlyStop.init (EarlyStop.Finite 0) true)
                  Scenario.plateau_then_best)) = Some 2 /\
  EarlyStop._best_record
    (default (EarlyStop.init (EarlyStop.Finite 0) true)
       (fst <$> EarlyStop.checks (EarlyStop.init (EarlyStop.Finite 0) true)
                  Scenario.plateau_then_best)) = Some tt.
Proof.
  apply (best_is_the_last_new_best (EarlyStop.init (EarlyStop.Finite 0) true)
           (default (EarlyStop.init (EarlyStop.Finite 0) true)
              (fst <$> EarlyStop.checks (EarlyStop.init (EarlyStop.Finite 0) true)
                         Scenario.plateau_then_best))
           [(Scenario.n 5, 0, tt); (Scenario.n 4, 1, tt)] [(Scenario.n 9, 3, tt)]
           (Scenario.n 10) 2 tt
           [(true, false); (false, true); (true, true); (false, true)] true).
  - vm_compute. reflexivity.
  - reflexivity.
  - repeat constructor.
Defined.

(** ** More on the stages of [TrainingLoop] *)

Section StageMore.

Import Train.
Context {M R : Type} `{Metric M}.
Variable entry : string -> R -> option M.

(** A hook is due at a step: at step 0 when it is [initial], and at every
    positive multiple of its [n]. *)
Definition due (h : step_hook) (step : Z) : bool :=
  (step =? 0) && hook_initial h || (0 <? step) && (step mod hook_n h =? 0).

Definition due_events (step : Z) (i0 : nat) (hs : list step_hook)
  : list (event M) :=
  omap (fun ih => if due ih.2 step then Some (EHookStep ih.1 step) else None)
       (zip (seq i0 (length hs)) hs).

Lemma due_events_cons step i0 h (hs : list step_hook) :
  due_events step i0 (h :: hs)
  = (if due h step then [EHookStep i0 step] else []) ++ due_events step (S i0) hs.
Proof. unfold due_events. cbn. by destruct (due h step). Qed.

Lemma run_hooks_due step (hs : list step_hook) :
  forall i0 (s s' : tl M R),
    run_hooks step i0 hs s = (Ok tt, s') ->
    s' = foldl (fun s e => add_event e s) s (due_events step i0 hs).
Proof.
  induction hs as [|h hs IH]; intros i0 s s' Hrun.
  - cbn in Hrun. by injection Hrun as <-.
  - cbn [run_hooks] in Hrun. rewrite due_events_cons, foldl_app. unfold due.
    unfold bind, pymod, ret, raise, emit, modify, lift in Hrun.
    destruct (0 <? step) eqn:Epos.
    + assert (Hz : (step =? 0) = false) by (apply Z.ltb_lt in Epos; lia).
      rewrite Hz in *. cbn [andb orb] in *.
      destruct (hook_n h =? 0) eqn:En; [done|].
      destruct (step mod hook_n h =? 0) eqn:Emod.
      * destruct (hook_step h step) as [[]|e]; [|done]. by apply IH.
      * by apply IH.
    + cbn [andb orb] in *. rewrite orb_false_r in *.
      destruct ((step =? 0) && hook_initial h) eqn:Einit.
      * destruct (hook_step h step) as [[]|e]; [|done]. by apply IH.
      * by apply IH.
Qed.

Lemma foldl_add_event (es : list (event M)) :
  forall s : tl M R,
    trace (foldl (fun s e => add_event e s) s es) = trace s ++ es /\
    history (foldl (fun s e => add_event e s) s es) = history s /\
    cfg (foldl (fun s e => add_event e s) s es) = cfg s /\
    local_step (foldl (fun s e => add_event e s) s es) = local_step s /\
    global_step (foldl (fun s e => add_event e s) s es) = global_step s /\
    yielded (foldl (fun s e => add_event e s) s es) = yielded s.
Proof.
  induction es as [|e es IH]; intros s.
  - cbn. by rewrite app_nil_r.
  - cbn [foldl]. destruct (IH (add_event e s)) as (-> & -> & -> & -> & -> & ->).
    cbn. by rewrite <- app_assoc.
Qed.

Lemma time_remaining_state ss i (s : tl M R) : (time_remaining ss i s).2 = s.
Proof.
  unfold time_remaining, bind, get, cfg_get, ret, raise.
  repeat case_match; by simplify_eq.
Qed.

End StageMore.

(** The hooks called in one pass of the stage loop: when the block of the
    hooks ends normally, the calls made are [hook.step] of exactly the hooks
    that are due at the step, in the order of [self.hooks], and nothing else
    of the loop's state has changed. *)
Theorem hooks_are_called_when_due {M R : Type} `{Metric M}
    (step : Z) (i0 : nat) (hs : list Train.step_hook) (s s' : Train.tl M R) :
  Train.run_hooks step i0 hs s = (Train.Ok tt, s') ->
  Train.trace s' = Train.trace s ++ due_events step i0 hs /\
  Train.history s' = Train.history s /\
  Train.cfg s' = Train.cfg s /\
  Train.local_step s' = Train.local_step s /\
  Train.global_step s' = Train.global_step s /\
  Train.yielded s' = Train.yielded s.
Proof.
  intros Hrun. rewrite (run_hooks_due step hs i0 s s' Hrun).
  apply foldl_add_event.
Qed.

(** An exception of [_run_stage] other than a user interrupt (or the alarm
    of the time limit) leaves [run_stage] at once: [NotImplementedError] as
    [Exception("NotImplemented")], any other as it is. The statements after
    the [with] block are skipped: the memory delta is not recorded and no
    [end_stage] is called, the state being the one [_run_stage] left. *)
Theorem other_exceptions_skip_the_cleanup {M R : Type} `{Metric M}
    (entry : string -> R -> option M) (fuel : nat) (ss : Train.session M R)
    (stage_idx : nat) (u : Train.updater R) (early_stop : EarlyStop.hook M R)
    (s s1 s2 : Train.tl M R) (e : Train.exn) :
  Train.stage_setup ss stage_idx u s = (Train.Ok early_stop, s1) ->
  Train._run_stage entry fuel ss u early_stop s1 = (Train.Raise e, s2) ->
  e <> Train.KeyboardInterrupt ->
  e <> Train.TimeLimitAlarm ->
  Train.run_stage entry fuel ss stage_idx u s
  = (Train.Raise match e with
                 | Train.NotImplementedError => Train.Exception "NotImplemented"
                 | _ => e
                 end, s2).
Proof.
  intros Hsetup Hrun Hk Ht.
  unfold Train.run_stage. unfold Train.bind at 1. rewrite Hsetup.
  unfold Train.bind at 1. unfold Train.timed_stage, Train.try_except.
  unfold Train.bind at 1. rewrite Hrun. by destruct e.
Qed.

(** When no stage is started -- the curriculum is empty, or at most one
    second is left before the first stage -- [_run] does not yield a result:
    building the return value reads [self.latest] of an empty history, which
    raises [IndexError]. *)
Theorem no_stage_no_result {M R : Type} `{Metric M}
    (entry : string -> R -> option M) (fuel : nat) (ss : Train.session M R)
    (s : Train.tl M R) :
  Train.history s = [] ->
  is_Some (Train.cfg_lookup (Train.cfg s) "slim") ->
  Train.curriculum ss = [] \/
  (exists t, (Train.time_remaining ss 0
                (Train.set_steps 0 (Train.local_step s) s)).1
             = Train.Ok (EarlyStop.Finite t) /\ t <= 1) ->
  Train._run entry fuel ss s
  = (Train.Raise Train.IndexError, Train.set_steps 0 (Train.local_step s) s).
Proof.
  intros Hh [v Hv] Hnone. unfold Train._run. unfold Train.bind at 1.
  unfold Train.modify at 1. set (s0 := Train.set_steps 0 (Train.local_step s) s).
  assert (Hstages : Train.run_stages entry fuel ss 0 (Train.curriculum ss) s0
                    = (Train.Ok tt, s0)).
  { destruct Hnone as [-> | (t & Ht & Hle)]; [done|].
    destruct (Train.curriculum ss) as [|l rest]; [done|].
    cbn [Train.run_stages]. unfold Train.bind at 1.
    assert (Etr : Train.time_remaining ss 0 s0
                  = (Train.Ok (EarlyStop.Finite t), s0)).
    { apply injective_projections; [exact Ht|apply time_remaining_state]. }
    rewrite Etr.
    assert (Hle' : (t <=? 1) = true) by (by apply Z.leb_le).
    by rewrite Hle'. }
  unfold Train.bind at 1. rewrite Hstages.
  unfold Train.bind at 1. unfold Train.cfg_get at 1.
  change (Train.cfg s0) with (Train.cfg s). rewrite Hv.
  unfold Train.yield_value, Train._build_return_value.
  unfold Train.bind at 1 2. unfold Train.latest at 1.
  change (Train.history s0) with (Train.history s). by rewrite Hh.
Qed.

(** When [_run] ends normally, the last value it yields is the summary of
    the state it ends in: the whole history, the frozen config, the host and
    the experiment directory. *)
Theorem run_yields_the_final_summary {M R : Type} `{Metric M}
    (entry : string -> R -> option M) (fuel : nat) (ss : Train.session M R)
    (s s' : Train.tl M R) :
  Train._run entry fuel ss s = (Train.Ok tt, s') ->
  last (Train.yielded s')
  = Some {| Train.snap_config := Train.cfg_freeze (Train.cfg s');
            Train.snap_history := Train.history s';
            Train.snap_host := Train.hostname (Train.the_world ss);
            Train.snap_exp_dir := Train.exp_dir ss |} /\
  Train.history s' <> [].
Proof.
  unfold Train._run. unfold Train.bind at 1. unfold Train.modify at 1.
  unfold Train.bind at 1.
  destruct (Train.run_stages entry fuel ss 0 (Train.curriculum ss) _)
    as [[[]|e] s1]; [|done].
  unfold Train.bind at 1. unfold Train.cfg_get at 1.
  destruct (Train.cfg_lookup (Train.cfg s1) "slim"); [|done].
  unfold Train.yield_value, Train._build_return_value.
  unfold Train.bind, Train.latest, Train.get, Train.ret, Train.modify.
  destruct (last (Train.history s1)) as [d|] eqn:El; [|done].
  intros [= <-]. cbn. rewrite last_snoc. split; [done|].
  intros Hnil. by rewrite Hnil in El.
Qed.

(** With [cfg.eval_step = 0] a stage fails in its first pass: the remainder
    of the step by [eval_step] is taken before the updater is called, so the
    pass raises [ZeroDivisionError] and has changed nothing.
    [cfg.checkpoint_step] is not even read at step 0. *)
Theorem zero_eval_step_fails_the_first_pass {M R : Type} `{Metric M}
    (entry : string -> R -> option M) (ss : Train.session M R)
    (u : Train.updater R) (es : EarlyStop.hook M R) (s : Train.tl M R)
    (max_steps max_experiences : EarlyStop.patience_t) :
  Train.local_step s = 0 ->
  Train.cfg_bound "max_steps" s = (Train.Ok max_steps, s) ->
  Train.reaches 0 max_steps = false ->
  Train.cfg_bound "max_experiences" s = (Train.Ok max_experiences, s) ->
  Train.reaches (Train.n_experiences u 0) max_experiences = false ->
  Train.cfg_lookup (Train.cfg s) "eval_step" = Some (Train.VInt 0) ->
  Train.stage_pass entry ss u es s = (Train.Raise Train.ZeroDivisionError, s).
Proof.
  intros Hstep Hms Hr1 Hme Hr2 Heval. unfold Train.stage_pass.
  unfold Train.bind at 1. unfold Train.get at 1. rewrite Hstep.
  unfold Train.bind at 1. rewrite Hms, Hr1.
  unfold Train.bind at 1. rewrite Hme, Hr2.
  unfold Train.bind at 1. cbn [Z.ltb Z.compare]. unfold Train.ret at 1.
  unfold Train.bind at 1. unfold Train.cfg_int, Train.bind at 1.
  unfold Train.cfg_get at 1. rewrite Heval. unfold Train.ret at 1.
  unfold Train.bind at 1. reflexivity.
Qed.

(** Passes of the stage loop that go on advance the local and the global
    step together, by one each, and leave the config alone: after [k] such
    passes both counters are [k] further. *)
Theorem passes_advance_both_counters {M R : Type} `{Metric M}
    (entry : string -> R -> option M) (k : nat) (ss : Train.session M R)
    (u : Train.updater R) (es es' : EarlyStop.hook M R) (s s1 : Train.tl M R) :
  Train.passes entry k ss u es s = (Train.Ok (Some es'), s1) ->
  Train.local_step s1 = Train.local_step s + Z.of_nat k /\
  Train.global_step s1 = Train.global_step s + Z.of_nat k /\
  Train.cfg s1 = Train.cfg s.
Proof.
  revert es s. induction k as [|k IH]; intros es s Hrun.
  - cbn in Hrun. injection Hrun as <- <-. repeat split; lia.
  - cbn [Train.passes] in Hrun. unfold Train.bind in Hrun.
    pose proof (pass_advances entry ss u es s) as Hadv.
    destruct (Train.stage_pass entry ss u es s) as [[[es1|thr why]|e] s0];
      cbn in Hadv; try done.
    destruct Hadv as (Hc & Hl & Hg). apply IH in Hrun as (Hl' & Hg' & Hc').
    repeat split; [lia|lia|congruence].
Qed.

(** [hooks_are_called_when_due] at step 2 with two hooks that are called
    every second step. *)
Lemma hooks_are_called_when_due_witness :
  Train.trace Scenario.hooks_ran
  = Train.trace Scenario.stage_start
    ++ due_events 2 0 [Scenario.every_other_step; Scenario.every_other_step] /\
  Train.history Scenario.hooks_ran = Train.history Scenario.stage_start /\
  Train.cfg Scenario.hooks_ran = Train.cfg Scenario.stage_start /\
  Train.local_step Scenario.hooks_ran = Train.local_step Scenario.stage_start /\
  Train.global_step Scenario.hooks_ran = Train.global_step Scenario.stage_start /\
  Train.yielded Scenario.hooks_ran = Train.yielded Scenario.stage_start.
Proof.
  apply (hooks_are_called_when_due 2 0
           [Scenario.every_other_step; Scenario.every_other_step]
           Scenario.stage_start Scenario.hooks_ran).
  vm_compute. reflexivity.
Defined.

(** [other_exceptions_skip_the_cleanup] on a stage whose updater is not
    implemented from step 1 on. *)
Lemma other_exceptions_skip_the_cleanup_witness :
  Train.run_stage Scenario.entry 6 Scenario.hooked_session 0
    Scenario.unimplemented Scenario.stage_start
  = (Train.Raise (Train.Exception "NotImplemented"), Scenario.crashed).
Proof.
  apply (other_exceptions_skip_the_cleanup Scenario.entry 6
           Scenario.hooked_session 0 Scenario.unimplemented
           Scenario.hook_of_setup Scenario.stage_start Scenario.setup_done.2
           Scenario.crashed Train.NotImplementedError).
  - vm_compute. reflexivity.
  - vm_compute. reflexivity.
  - discriminate.
  - discriminate.
Defined.

(** [no_stage_no_result] on a session without stages. *)
Lemma no_stage_no_result_witness :
  Train._run Scenario.entry 6 Scenario.no_stages Scenario.untrained
  = (Train.Raise Train.IndexError,
     Train.set_steps 0 (Train.local_step Scenario.untrained)
       Scenario.untrained).
Proof.
  apply (no_stage_no_result Scenario.entry 6 Scenario.no_stages
           Scenario.untrained).
  - reflexivity.
  - exists (Train.VBool false). vm_compute. reflexivity.
  - left. reflexivity.
Defined.

(** [run_yields_the_final_summary] on the two-stage curriculum. *)
Lemma run_yields_the_final_summary_witness :
  last (Train.yielded Scenario.finished)
  = Some {| Train.snap_config := Train.cfg_freeze (Train.cfg Scenario.finished);
            Train.snap_history := Train.history Scenario.finished;
            Train.snap_host := Train.hostname (Train.the_world Scenario.the_session);
            Train.snap_exp_dir := Train.exp_dir Scenario.the_session |} /\
  Train.history Scenario.finished <> [].
Proof.
  apply (run_yields_the_final_summary Scenario.entry 6 Scenario.the_session
           Scenario.untrained Scenario.finished).
  vm_compute. reflexivity.
Defined.

(** [zero_eval_step_fails_the_first_pass] at the start of stage 0 with
    [eval_step = 0]. *)
Lemma zero_eval_step_fails_the_first_pass_witness :
  Train.stage_pass Scenario.entry Scenario.the_session (Scenario.climbing None)
    Scenario.fresh_hook Scenario.never_evaluated
  = (Train.Raise Train.ZeroDivisionError, Scenario.never_evaluated).
Proof.
  apply (zero_eval_step_fails_the_first_pass Scenario.entry Scenario.the_session
           (Scenario.climbing None) Scenario.fresh_hook Scenario.never_evaluated
           (EarlyStop.Finite 5) EarlyStop.Infinity).
  - reflexivity.
  - vm_compute. reflexivity.
  - reflexivity.
  - vm_compute. reflexivity.
  - reflexivity.
  - vm_compute. reflexivity.
Defined.

(** [passes_advance_both_counters] on the five passes of stage 0. *)
Lemma passes_advance_both_counters_witness :
  Train.local_step Scenario.after_five
  = Train.local_step (Train.set_steps (Train.global_step Scenario.stage_start) 0
                        Scenario.stage_start) + Z.of_nat 5 /\
  Train.global_step Scenario.after_five
  = Train.global_step (Train.set_steps (Train.global_step Scenario.stage_start) 0
                         Scenario.stage_start) + Z.of_nat 5 /\
  Train.cfg Scenario.after_five
  = Train.cfg (Train.set_steps (Train.global_step Scenario.stage_start) 0
                 Scenario.stage_start).
Proof.
  apply (passes_advance_both_counters Scenario.entry 5 Scenario.the_session
           (Scenario.climbing None) Scenario.fresh_hook Scenario.hook_after_five
           (Train.set_steps (Train.global_step Scenario.stage_start) 0
              Scenario.stage_start)
           Scenario.after_five).
  vm_compute. reflexivity.
Defined.

(** ** The schedule made by [ParallelSession.__init__] *)

Section ScheduleFacts.

Import Parallel.

Lemma ceil_div_bounds (a b : Z) :
  0 < b -> a <= ceil_div a b * b /\ (ceil_div a b - 1) * b < a.
Proof.
  intros Hb. unfold ceil_div.
  pose proof (Z.div_mod (- a) b ltac:(lia)) as Hdm.
  pose proof (Z.mod_pos_bound (- a) b Hb) as Hm.
  set (q := - a / b) in *. set (r := (- a) mod b) in *. split; lia.
Qed.

Lemma floor_div_bounds (a b : Z) :
  0 < b -> floor_div a b * b <= a /\ a < (floor_div a b + 1) * b.
Proof.
  intros Hb. unfold floor_div.
  pose proof (Z.div_mod a b ltac:(lia)) as Hdm.
  pose proof (Z.mod_pos_bound a b Hb) as Hm.
  set (q := a / b) in *. set (r := a mod b) in *. split; lia.
Qed.

End ScheduleFacts.

(** The schedule [__init__] makes. It is made only for an explicit host
    pool and when some operation is incomplete. The steps are enough to run
    every incomplete operation once on the processors at hand, and no fewer
    would do: [(n_steps - 1) * n_procs < n_jobs_to_run <= n_steps * n_procs];
    the processors are those of the hosts kept, [ppn] each, and the hosts
    kept are the first of those recruited; when one step is enough, no more
    nodes are kept than needed. The steps fit into the execution time, the
    wall time less the cleanup time: [n_steps * abs_seconds_per_step <=
    execution_time], and every step has computing time left after the
    slack. *)
Theorem schedule_covers_the_jobs (job_ops : gset nat)
    (host_pool_arg : option (list string))
    (min_hosts_arg max_hosts_arg ppn_arg : nat) (n_retries_arg : Z)
    (dry_run_arg fresh_directory : bool) (wall : Parallel.wall_time)
    (cleanup_us time_slack : Z) (o : Parallel.outside) (d d' : Parallel.files)
    (p : Parallel.params) (sc : Parallel.schedule) :
  Parallel.init job_ops host_pool_arg min_hosts_arg max_hosts_arg ppn_arg
    n_retries_arg dry_run_arg fresh_directory wall cleanup_us time_slack o d
  = Parallel.Ready p sc d' ->
  let n_jobs_to_run :=
    Z.of_nat (size (Parallel.ready_incomplete_ops job_ops (Parallel.input_zip d))) in
  host_pool_arg = Some (Parallel.host_pool p) /\
  0 < n_jobs_to_run /\
  (Parallel.n_steps sc - 1) * Parallel.sched_n_procs sc < n_jobs_to_run /\
  n_jobs_to_run <= Parallel.n_steps sc * Parallel.sched_n_procs sc /\
  Parallel.sched_n_procs sc
  = Z.of_nat (Parallel.ppn p * length (Parallel.sched_hosts sc)) /\
  Parallel.n_nodes sc = Z.of_nat (length (Parallel.sched_hosts sc)) /\
  (exists hs d0, Parallel.recruit_hosts p o 0 None d0 = Parallel.Ok (hs, d') /\
                 Parallel.sched_hosts sc `prefix_of` hs) /\
  (Parallel.n_steps sc = 1 \/
   Parallel.sched_hosts sc <> [] /\
   Parallel.sched_n_procs sc <= n_jobs_to_run) /\
  (Parallel.n_nodes sc - 1) * Z.of_nat (Parallel.ppn p) < n_jobs_to_run /\
  Parallel.n_steps sc * Parallel.abs_seconds_per_step sc
  <= Parallel.execution_time sc /\
  Parallel.execution_time sc * 1000000 <= Parallel.wall_us wall - cleanup_us /\
  0 < Parallel.seconds_per_step sc /\
  Parallel.seconds_per_step sc
  = Parallel.abs_seconds_per_step sc - time_slack.
Proof.
  intros Hinit n_jobs_to_run. unfold Parallel.init in Hinit.
  destruct fresh_directory; [|done]. cbn [negb] in Hinit.
  destruct (match wall with
            | Parallel.Duration _ => false
            | Parallel.Deadline us => Parallel.whole_seconds us <? 0
            end); [done|].
  destruct (Parallel.wall_us wall <? cleanup_us) eqn:Eclean; [done|].
  apply Z.ltb_ge in Eclean.
  assert (Hjobs : Z.of_nat (length (Parallel.sorted (elements
                    (Parallel.ready_incomplete_ops job_ops (Parallel.input_zip d)))))
                  = n_jobs_to_run).
  { unfold n_jobs_to_run. f_equal.
    by rewrite (Permutation_length (sorted_perm_nat _)). }
  rewrite Hjobs in Hinit.
  destruct (n_jobs_to_run =? 0) eqn:Ezero; [done|]. apply Z.eqb_neq in Ezero.
  assert (Hpos : 0 < n_jobs_to_run) by (unfold n_jobs_to_run in *; lia).
  destruct host_pool_arg as [pool|]; [|done].
  match type of Hinit with
  | match Parallel.recruit_hosts ?p0 o 0 None ?d0 with _ => _ end = _ =>
      destruct (Parallel.recruit_hosts p0 o 0 None d0) as [[hs d1]|msg|] eqn:Erec;
      try done
  end.
  set (procs := Z.of_nat (ppn_arg * length hs)) in *.
  destruct (n_jobs_to_run <? procs) eqn:Esmall.
  - apply Z.ltb_lt in Esmall.
    assert (Hppn : 0 < Z.of_nat ppn_arg) by (unfold procs in Esmall; nia).
    destruct (ceil_div_bounds n_jobs_to_run (Z.of_nat ppn_arg) Hppn) as [Hup Hlow].
    set (nodes := Parallel.ceil_div n_jobs_to_run (Z.of_nat ppn_arg)) in *.
    assert (Hnodes : 1 <= nodes <= Z.of_nat (length hs)) by (unfold procs in Esmall; nia).
    cbn zeta in Hinit.
    destruct (0 <? Parallel.whole_seconds (Parallel.wall_us wall - cleanup_us))
      eqn:Eexec; [|done].
    destruct (0 <? Parallel.floor_div
                     (Parallel.whole_seconds (Parallel.wall_us wall - cleanup_us)) 1)
      eqn:Eabs; [|done].
    destruct (0 <? Parallel.floor_div
                     (Parallel.whole_seconds (Parallel.wall_us wall - cleanup_us)) 1
                   - time_slack) eqn:Esec; [|done].
    cbn [negb] in Hinit. injection Hinit as <- <- <-. cbn.
    apply Z.ltb_lt in Eexec, Eabs, Esec.
    assert (Hlen : length (take (Z.to_nat nodes) hs) = Z.to_nat nodes)
      by (rewrite length_take; lia).
    destruct (floor_div_bounds
                (Parallel.whole_seconds (Parallel.wall_us wall - cleanup_us)) 1
                ltac:(lia)) as [Hf1 Hf2].
    assert (Hws : Parallel.whole_seconds (Parallel.wall_us wall - cleanup_us)
                  * 1000000 <= Parallel.wall_us wall - cleanup_us).
    { unfold Parallel.whole_seconds.
      pose proof (Z.mul_quot_le (Parallel.wall_us wall - cleanup_us) 1000000).
      lia. }
    split_and!; try lia; try done; try (by left).
    eexists hs, _. split; [exact Erec|]. apply prefix_take.
  - apply Z.ltb_ge in Esmall.
    destruct (procs =? 0) eqn:Eprocs; [done|]. apply Z.eqb_neq in Eprocs.
    assert (Hprocs : 0 < procs) by (unfold procs in *; lia).
    destruct (ceil_div_bounds n_jobs_to_run procs Hprocs) as [Hup Hlow].
    set (steps := Parallel.ceil_div n_jobs_to_run procs) in *.
    assert (Hsteps : 1 <= steps) by nia.
    cbn zeta in Hinit.
    destruct (0 <? Parallel.whole_seconds (Parallel.wall_us wall - cleanup_us))
      eqn:Eexec; [|done].
    destruct (0 <? Parallel.floor_div
                     (Parallel.whole_seconds (Parallel.wall_us wall - cleanup_us))
                     steps) eqn:Eabs; [|done].
    destruct (0 <? Parallel.floor_div
                     (Parallel.whole_seconds (Parallel.wall_us wall - cleanup_us))
                     steps - time_slack) eqn:Esec; [|done].
    cbn [negb] in Hinit. injection Hinit as <- <- <-. cbn.
    apply Z.ltb_lt in Eexec, Eabs, Esec.
    destruct (floor_div_bounds
                (Parallel.whole_seconds (Parallel.wall_us wall - cleanup_us)) steps
                ltac:(lia)) as [Hf1 Hf2].
    assert (Hws : Parallel.whole_seconds (Parallel.wall_us wall - cleanup_us)
                  * 1000000 <= Parallel.wall_us wall - cleanup_us).
    { unfold Parallel.whole_seconds.
      pose proof (Z.mul_quot_le (Parallel.wall_us wall - cleanup_us) 1000000).
      lia. }
    split_and!; try lia; try done.
    + eexists hs, _. split; [exact Erec|]. done.
    + right. split; [|lia]. intros ->. unfold procs in Hprocs. cbn in Hprocs. lia.
    + unfold procs in *. nia.
Qed.

(** ** [nested_map] *)

Section NestedFacts.

Import Hyper.
Context {A : Type}.

Lemma nested_induction (P : nested A -> Prop) :
  (forall a, P (Leaf a)) ->
  (forall items, Forall (fun kv => P kv.2) items -> P (Dict items)) ->
  forall d, P d.
Proof.
  intros Hleaf Hdict. fix IH 1. intros [a|items]; [apply Hleaf|].
  apply Hdict. induction items as [|[k v] items IHitems]; constructor.
  - apply IH.
  - apply IHitems.
Qed.

(** The keys of every dict are distinct, as in any [dict]. *)
Fixpoint well_formed (d : nested A) : Prop :=
  match d with
  | Leaf _ => True
  | Dict items =>
      NoDup (map fst items) /\
      (fix all (l : list (string * nested A)) : Prop :=
         match l with
         | [] => True
         | (_, v) :: l' => well_formed v /\ all l'
         end) items
  end.

Lemma well_formed_Dict (items : list (string * nested A)) :
  well_formed (Dict items)
  <-> NoDup (map fst items) /\ Forall (fun kv => well_formed kv.2) items.
Proof.
  cbn [well_formed]. apply and_iff_compat_l.
  induction items as [|[k v] items IH].
  - split; [constructor|done].
  - rewrite Forall_cons, <- IH. done.
Qed.

(** [f] applied to every leaf, the dicts as they are. *)
Fixpoint map_leaves (f : A -> A) (d : nested A) : nested A :=
  match d with
  | Leaf a => Leaf (f a)
  | Dict items =>
      Dict (map (fun kv => match kv with
                           | (k, v) => (k, map_leaves f v)
                           end) items)
  end.

(** The leaves of a value, each with the keys that lead to it, in order. *)
Fixpoint leaves (d : nested A) : list (list string * A) :=
  match d with
  | Leaf a => [([], a)]
  | Dict items =>
      (fix go (l : list (string * nested A)) : list (list string * A) :=
         match l with
         | [] => []
         | (k, v) :: l' =>
             map (fun pa => (k :: pa.1, pa.2)) (leaves v) ++ go l'
         end) items
  end.

Lemma set_item_there {B} (k : string) (v v' : B) (pre l : list (string * B)) :
  k ∉ map fst pre ->
  set_item k v' (pre ++ (k, v) :: l) = pre ++ (k, v') :: l.
Proof.
  induction pre as [|[k0 v0] pre IH]; intros Hk; cbn.
  - by rewrite String.eqb_refl.
  - destruct (String.eqb_spec k0 k) as [->|Hne].
    + exfalso. apply Hk. cbn. by constructor.
    + rewrite IH; [done|]. intros Hin. apply Hk. cbn. by constructor.
Qed.

(** Updating a dict with new values for its own keys, in its own order,
    replaces every value in place. *)
Lemma update_own_keys {B} (g : string -> B -> B) (l : list (string * B)) :
  forall pre,
    NoDup (map fst (pre ++ l)) ->
    update (pre ++ l) (map (fun kv => (kv.1, g kv.1 kv.2)) l)
    = pre ++ map (fun kv => (kv.1, g kv.1 kv.2)) l.
Proof.
  unfold update. induction l as [|[k v] l IH]; intros pre Hnd; [done|].
  cbn [map foldl fst snd]. rewrite set_item_there.
  - rewrite (cons_middle (k, g k v) pre l), app_assoc. rewrite IH.
    + by rewrite <- app_assoc.
    + rewrite <- app_assoc. cbn.
      rewrite map_app in *. cbn in *. done.
  - rewrite map_app in Hnd. apply NoDup_app in Hnd as (_ & Hdis & _).
    intros Hin. apply (Hdis _ Hin). cbn. by constructor.
Qed.

Lemma nested_map_structural (f : A -> A) (d : nested A) :
  well_formed d -> nested_map d f = map_leaves f d.
Proof.
  induction d as [a|items IH] using nested_induction; intros Hwf; [done|].
  apply well_formed_Dict in Hwf as [Hnd Hall]. cbn [nested_map map_leaves].
  f_equal.
  assert (Hmap : map (fun kv : string * nested A =>
                        match kv with (k, v) => (k, nested_map v f) end) items
                 = map (fun kv : string * nested A =>
                        match kv with (k, v) => (k, map_leaves f v) end) items).
  { clear Hnd. induction items as [|[k v] items IHitems]; [done|].
    apply Forall_cons in IH as [Hv IH]. apply Forall_cons in Hall as [Hwv Hall].
    cbn in Hv, Hwv |- *. rewrite (Hv Hwv), (IHitems IH Hall). done. }
  rewrite Hmap.
  pose proof (update_own_keys (fun _ v => map_leaves f v) items [] Hnd) as Hup.
  cbn [app] in Hup.
  assert (Hsame : map (fun kv : string * nested A => (kv.1, map_leaves f kv.2)) items
                  = map (fun kv : string * nested A =>
                           match kv with (k, v) => (k, map_leaves f v) end) items).
  { apply map_ext. by intros [k v]. }
  by rewrite Hsame in Hup.
Qed.

Lemma well_formed_map_leaves (f : A -> A) (d : nested A) :
  well_formed d -> well_formed (map_leaves f d).
Proof.
  induction d as [a|items IH] using nested_induction; intros Hwf; [done|].
  apply well_formed_Dict in Hwf as [Hnd Hall]. cbn [map_leaves].
  apply well_formed_Dict. split.
  - rewrite map_map.
    rewrite (map_ext _ fst); [done|]. by intros [k v].
  - clear Hnd. induction items as [|[k v] items IHitems]; [constructor|].
    apply Forall_cons in IH as [Hv IH]. apply Forall_cons in Hall as [Hwv Hall].
    cbn. constructor; [by apply Hv|by apply IHitems].
Qed.

Lemma leaves_map_leaves (f : A -> A) (d : nested A) :
  leaves (map_leaves f d) = map (fun pa => (pa.1, f pa.2)) (leaves d).
Proof.
  induction d as [a|items IH] using nested_induction; [done|].
  cbn [map_leaves leaves].
  induction items as [|[k v] items IHitems]; [done|].
  apply Forall_cons in IH as [Hv IH]. cbn [map].
  rewrite (IHitems IH), map_app. cbn in Hv. rewrite Hv, !map_map. done.
Qed.

Lemma map_leaves_compose (f g : A -> A) (d : nested A) :
  map_leaves g (map_leaves f d) = map_leaves (fun a => g (f a)) d.
Proof.
  induction d as [a|items IH] using nested_induction; [done|].
  cbn [map_leaves]. f_equal. rewrite map_map.
  induction items as [|[k v] items IHitems]; [done|].
  apply Forall_cons in IH as [Hv IH]. cbn. cbn in Hv. by rewrite Hv, (IHitems IH).
Qed.

Lemma map_leaves_id (d : nested A) : map_leaves (fun a => a) d = d.
Proof.
  induction d as [a|items IH] using nested_induction; [done|].
  cbn [map_leaves]. f_equal.
  induction items as [|[k v] items IHitems]; [done|].
  apply Forall_cons in IH as [Hv IH]. cbn. cbn in Hv. by rewrite Hv, (IHitems IH).
Qed.

End NestedFacts.

(** [nested_map] keeps the shape of its argument and maps every leaf: on a
    value whose dicts have distinct keys (as those of any [dict] are) it is
    the structural map; the dicts of the result have the same keys in the
    same order, and its leaves are those of the argument under the same
    keys, each with [f] applied. *)
Theorem nested_map_maps_every_leaf {A : Type} (f : A -> A)
    (d : Hyper.nested A) :
  well_formed d ->
  Hyper.nested_map d f = map_leaves f d /\
  well_formed (Hyper.nested_map d f) /\
  leaves (Hyper.nested_map d f) = map (fun pa => (pa.1, f pa.2)) (leaves d).
Proof.
  intros Hwf. rewrite (nested_map_structural f d Hwf). split; [done|]. split.
  - by apply well_formed_map_leaves.
  - apply leaves_map_leaves.
Qed.

(** Mapping twice is mapping the composition, and mapping the identity
    changes nothing. *)
Theorem nested_map_composes {A : Type} (f g : A -> A) (d : Hyper.nested A) :
  well_formed d ->
  Hyper.nested_map (Hyper.nested_map d f) g
  = Hyper.nested_map d (fun a => g (f a)) /\
  Hyper.nested_map d (fun a => a) = d.
Proof.
  intros Hwf. split.
  - rewrite (nested_map_structural f d Hwf).
    rewrite (nested_map_structural g _ (well_formed_map_leaves f d Hwf)).
    rewrite (nested_map_structural _ d Hwf). apply map_leaves_compose.
  - rewrite (nested_map_structural _ d Hwf). apply map_leaves_id.
Qed.

(** [schedule_covers_the_jobs] on three operations and two hosts with one
    processor each: two steps of 1350 seconds. *)
Lemma schedule_covers_the_jobs_witness :
  Some [":"; "node1"] = Some (Parallel.host_pool Scenario.planned.1.1) /\
  0 < Z.of_nat (size (Parallel.ready_incomplete_ops (list_to_set [0; 1; 2]%nat)
                        (Parallel.input_zip Scenario.new_job))) /\
  (Parallel.n_steps Scenario.planned.1.2 - 1)
  * Parallel.sched_n_procs Scenario.planned.1.2
  < Z.of_nat (size (Parallel.ready_incomplete_ops (list_to_set [0; 1; 2]%nat)
                      (Parallel.input_zip Scenario.new_job))) /\
  Z.of_nat (size (Parallel.ready_incomplete_ops (list_to_set [0; 1; 2]%nat)
                    (Parallel.input_zip Scenario.new_job)))
  <= Parallel.n_steps Scenario.planned.1.2
     * Parallel.sched_n_procs Scenario.planned.1.2 /\
  Parallel.sched_n_procs Scenario.planned.1.2
  = Z.of_nat (Parallel.ppn Scenario.planned.1.1
              * length (Parallel.sched_hosts Scenario.planned.1.2)) /\
  Parallel.n_nodes Scenario.planned.1.2
  = Z.of_nat (length (Parallel.sched_hosts Scenario.planned.1.2)) /\
  (exists hs d0,
     Parallel.recruit_hosts Scenario.planned.1.1 Scenario.flaky 0 None d0
     = Parallel.Ok (hs, Scenario.planned.2) /\
     Parallel.sched_hosts Scenario.planned.1.2 `prefix_of` hs) /\
  (Parallel.n_steps Scenario.planned.1.2 = 1 \/
   Parallel.sched_hosts Scenario.planned.1.2 <> [] /\
   Parallel.sched_n_procs Scenario.planned.1.2
   <= Z.of_nat (size (Parallel.ready_incomplete_ops (list_to_set [0; 1; 2]%nat)
                        (Parallel.input_zip Scenario.new_job)))) /\
  (Parallel.n_nodes Scenario.planned.1.2 - 1)
  * Z.of_nat (Parallel.ppn Scenario.planned.1.1)
  < Z.of_nat (size (Parallel.ready_incomplete_ops (list_to_set [0; 1; 2]%nat)
                      (Parallel.input_zip Scenario.new_job))) /\
  Parallel.n_steps Scenario.planned.1.2
  * Parallel.abs_seconds_per_step Scenario.planned.1.2
  <= Parallel.execution_time Scenario.planned.1.2 /\
  Parallel.execution_time Scenario.planned.1.2 * 1000000
  <= Parallel.wall_us (Parallel.Duration 3600000000) - 900000000 /\
  0 < Parallel.seconds_per_step Scenario.planned.1.2 /\
  Parallel.seconds_per_step Scenario.planned.1.2
  = Parallel.abs_seconds_per_step Scenario.planned.1.2 - 0.
Proof.
  apply (schedule_covers_the_jobs (list_to_set [0; 1; 2]%nat)
           (Some [":"; "node1"]) 1 2 1 1 false true
           (Parallel.Duration 3600000000) 900000000 0 Scenario.flaky
           Scenario.new_job Scenario.planned.2 Scenario.planned.1.1
           Scenario.planned.1.2).
  vm_compute. reflexivity.
Defined.

(** [nested_map_maps_every_leaf] on a config two levels deep, every number
    doubled. *)
Lemma nested_map_maps_every_leaf_witness :
  Hyper.nested_map Scenario.config_tree (Z.mul 2)
  = map_leaves (Z.mul 2) Scenario.config_tree /\
  well_formed (Hyper.nested_map Scenario.config_tree (Z.mul 2)) /\
  leaves (Hyper.nested_map Scenario.config_tree (Z.mul 2))
  = map (fun pa => (pa.1, 2 * pa.2)) (leaves Scenario.config_tree).
Proof.
  apply (nested_map_maps_every_leaf (Z.mul 2) Scenario.config_tree).
  cbn. repeat split; apply (bool_decide_unpack _); vm_compute; reflexivity.
Defined.

Lemma nested_map_composes_witness :
  Hyper.nested_map (Hyper.nested_map Scenario.config_tree (Z.mul 2)) Z.succ
  = Hyper.nested_map Scenario.config_tree (fun a => Z.succ (2 * a)) /\
  Hyper.nested_map Scenario.config_tree (fun a => a) = Scenario.config_tree.
Proof.
  apply (nested_map_composes (Z.mul 2) Z.succ Scenario.config_tree).
  cbn. repeat split; apply (bool_decide_unpack _); vm_compute; reflexivity.
Defined.


(** ** What a step of the session records *)

Section StepFacts.

Import Parallel.

Variable p : params.
Variable o : outside.

Lemma merged_spec i (hs : list string) (sc : gmap string archive) :
  forall (acc : archive) j,
    j ∈ foldl (fun acc h =>
                 if fetched o i h then acc ∪ default ∅ (sc !! h) else acc)
              acc hs
    <-> j ∈ acc \/
        exists h a, h ∈ hs /\ fetched o i h = true /\ sc !! h = Some a /\ j ∈ a.
Proof.
  induction hs as [|h hs IH]; intros acc j.
  - cbn. split; [by left|]. intros [?|(h & a & Hin & _)]; [done|].
    by apply elem_of_nil in Hin.
  - cbn [foldl]. rewrite IH. clear IH. split.
    + intros [Hacc|(h' & a & Hin & Hf & Hsc & Hj)].
      * destruct (fetched o i h) eqn:Ef; [|by left].
        apply elem_of_union in Hacc as [?|Hj]; [by left|].
        destruct (sc !! h) as [a|] eqn:Esc; cbn in Hj.
        -- right. exists h, a. split; [constructor|done].
        -- by apply not_elem_of_empty in Hj.
      * right. exists h', a. split; [by constructor|done].
    + intros [Hacc|(h' & a & Hin & Hf & Hsc & Hj)].
      * left. destruct (fetched o i h); [|done]. apply elem_of_union. by left.
      * apply elem_of_cons in Hin. destruct Hin as [->|Hin].
        -- left. rewrite Hf, Hsc. cbn. apply elem_of_union. by right.
        -- right. by exists h', a.
Qed.

Lemma step_scratch i (hs : list string) (indices : list nat) :
  forall d h,
    scratch (step o i hs indices d) !! h
    = (fun a => a ∪ list_to_set
                      (filter (fun j => completes o i j = Some h /\ h ∈ hs)
                              indices))
      <$> scratch d !! h.
Proof.
  unfold step. induction indices as [|j indices IH]; intros d h.
  - cbn. destruct (scratch d !! h) as [a|]; cbn; [|done].
    f_equal. change (filter _ []) with (@nil nat). cbn.
    by rewrite (right_id_L ∅ (∪)).
  - cbn [foldl]. rewrite IH. clear IH. rewrite filter_cons.
    destruct (completes o i j) as [h'|] eqn:Ec.
    + case_bool_decide as Hin.
      * cbn [scratch set_scratch]. destruct (decide (h' = h)) as [->|Hne].
        -- rewrite lookup_alter_eq. rewrite decide_True by done.
           destruct (scratch d !! h) as [a|]; cbn; [|done]. f_equal.
           rewrite <- (assoc_L (∪)). f_equal.
        -- rewrite lookup_alter_ne by done.
           rewrite decide_False; [done|]. intros [[= ?] _]. done.
      * rewrite decide_False; [done|]. intros [[= ->] ?]. done.
    + rewrite decide_False; [done|]. by intros [? _].
Qed.


(** The files after one pass of the loop are those [checkpoint] leaves after
    [step], on the hosts just recruited. *)
Lemma files_after st indices st' :
  loop_body p o st = Ok (indices, st') ->
  exists hs d1,
    recruit_hosts p o (step_idx st) (Some (length (subjobs_remaining st))) (fs st)
    = Ok (hs, d1) /\
    hosts st' = hs /\
    fs st' = checkpoint o (step_idx st) hs (step o (step_idx st) hs indices d1).
Proof.
  unfold loop_body. intros Hbody.
  destruct (recruit_hosts p o (step_idx st)
              (Some (length (subjobs_remaining st))) (fs st))
    as [[hs d1]|msg|] eqn:Erec; try done.
  cbn [results_zip checkpoint] in Hbody.
  destruct (count_failures p _ _ _) as [failures' dead'] eqn:Ecount in Hbody.
  injection Hbody as <- <-. by exists hs, d1.
Qed.

Lemma recruited_have_archive i max_procs d hs d1 :
  recruit_hosts p o i max_procs d = Ok (hs, d1) ->
  forall h, h ∈ hs -> is_Some (scratch d1 !! h).
Proof.
  unfold recruit_hosts. intros Hrec.
  destruct (recruit_loop p o i max_procs (host_pool p) [] d)
    as [found d0] eqn:Eloop.
  destruct (length found <? min_hosts p)%nat; [done|]. injection Hrec as -> ->.
  destruct (recruit_loop_spec _ _ _ _ _ _ _ _ _ Eloop)
    as (extra & Hfound & _ & _ & _ & _ & _ & _ & _ & _ & Hin & _).
  cbn in Hfound. by subst extra.
Qed.

End StepFacts.


(** Work that is done is recorded: an operation run in a step that completes
    on one of the hosts of the step, when the transfer from that host works,
    is in [results.zip] after the step and is not among the operations that
    remain. *)
Theorem completed_work_is_recorded (p : Parallel.params) (o : Parallel.outside)
    (st st' : Parallel.state) (indices : list nat) (j : nat) (h : string) :
  Parallel.loop_body p o st = Parallel.Ok (indices, st') ->
  j ∈ indices ->
  Parallel.completes o (Parallel.step_idx st) j = Some h ->
  h ∈ Parallel.hosts st' ->
  Parallel.fetched o (Parallel.step_idx st) h = true ->
  exists job,
    Parallel.results_zip (Parallel.fs st') = Some job /\ j ∈ job /\
    (j ∉ Parallel.subjobs_remaining st').
Proof.
  intros Hbody Hj Hc Hh Hf.
  destruct (files_after _ _ _ _ _ Hbody) as (hs & d1 & Hrec & Hhs & Hfs).
  subst hs. destruct (recruited_have_archive _ _ _ _ _ _ _ Hrec h Hh) as [a Ha].
  eexists. rewrite Hfs. split; [reflexivity|].
  assert (Hin : j ∈ default ∅ (Parallel.results_zip
                                 (Parallel.step o (Parallel.step_idx st)
                                    (Parallel.hosts st') indices d1))
                    ∪ foldl (fun acc h =>
                               if Parallel.fetched o (Parallel.step_idx st) h
                               then acc ∪ default ∅
                                      (Parallel.scratch
                                         (Parallel.step o (Parallel.step_idx st)
                                            (Parallel.hosts st') indices d1) !! h)
                               else acc)
                            (Parallel.results_dir
                               (Parallel.step o (Parallel.step_idx st)
                                  (Parallel.hosts st') indices d1))
                            (Parallel.hosts st')).
  { apply elem_of_union. right. apply (merged_spec o). right.
    eexists h, _. split; [done|]. split; [done|]. split.
    - rewrite step_scratch, Ha. reflexivity.
    - apply elem_of_union. right. apply elem_of_list_to_set.
      apply list_elem_of_filter. done. }
  split; [exact Hin|].
  intros Hrem.
  eapply (remaining_after p o st indices st' _ Hbody) in Hrem.
  - destruct Hrem as (_ & Hnot & _). apply Hnot. exact Hin.
  - rewrite Hfs. reflexivity.
Qed.

(** [completed_work_is_recorded] on operation 0 in the first pass of the
    session of three operations. *)
Lemma completed_work_is_recorded_witness :
  exists job,
    Parallel.results_zip (Parallel.fs Scenario.first_pass.2) = Some job /\
    0%nat ∈ job /\
    (0%nat ∉ Parallel.subjobs_remaining Scenario.first_pass.2).
Proof.
  apply (completed_work_is_recorded Scenario.cluster Scenario.flaky
           (Parallel.start Scenario.cluster Scenario.new_job)
           Scenario.first_pass.2 Scenario.first_pass.1 0%nat ":").
  - vm_compute. reflexivity.
  - apply (bool_decide_unpack _). vm_compute. reflexivity.
  - reflexivity.
  - apply (bool_decide_unpack _). vm_compute. reflexivity.
  - reflexivity.
Defined.
